(** * RouteX: RouteOptimizer and RouterDefense

    A shallow embedding of [contracts/src/libraries/RouteOptimizer.sol] and
    [contracts/src/core/RouterDefense.sol] (with the structs of
    [IRouterDefense]), and the properties of the route allocation, the
    commit-reveal ledger and the protected swap executor.

    Conventions of the embedding:
    - [uint256], [address] and [bytes32] are binary naturals ([N]); the
      arithmetic is Solidity 0.8 checked arithmetic, where an overflow, an
      underflow or a division by zero aborts the call with a [Panic];
    - a [mapping] is a finite map read with the total lookup [!!!], whose
      default is the all-zero value of the struct;
    - a call is a state-passing computation that either returns a value and a
      new state or aborts; a call from outside that aborts leaves the state
      it started from ([exec]);
    - the tokens, the swap router and the hash function are collaborators
      ([Collaborators]), and every statement holds for all of them; a
      collaborator that is called may call the contract back before it
      returns ([Script]). *)

From Stdlib Require Import NArith String List Lia.
From stdpp Require Import gmap strings list.

Local Open Scope N_scope.

(** ** Machine integers and results *)

Abbreviation uint256 := N (only parsing).
Abbreviation address := N (only parsing).
Abbreviation bytes32 := N (only parsing).

Definition MAX_UINT256 : N := 2 ^ 256 - 1.

Inductive error :=
| Revert (msg : string)   (* require(cond, msg) failed *)
| Panic (code : N)        (* 0x11 arithmetic, 0x12 division by zero *)
| CallFailed.             (* an external call reverted *)

Inductive result (A : Type) :=
| Ok (a : A)
| Err (e : error).
Arguments Ok {A} a.
Arguments Err {A} e.

Definition rbind {A B} (r : result A) (k : A -> result B) : result B :=
  match r with
  | Ok a => k a
  | Err e => Err e
  end.

Notation "'let?' x := r 'in' k" := (rbind r (fun x => k))
  (at level 10, x name, r at level 100, k at level 200).

Module U256.
Definition add (a b : uint256) : result uint256 :=
  if a + b <=? MAX_UINT256 then Ok (a + b) else Err (Panic 17).
Definition sub (a b : uint256) : result uint256 :=
  if b <=? a then Ok (a - b) else Err (Panic 17).
Definition mul (a b : uint256) : result uint256 :=
  if a * b <=? MAX_UINT256 then Ok (a * b) else Err (Panic 17).
Definition div (a b : uint256) : result uint256 :=
  if b =? 0 then Err (Panic 18) else Ok (a / b).
End U256.

Fixpoint sumN (l : list N) : N :=
  match l with
  | [] => 0
  | x :: l' => x + sumN l'
  end.

(** ** IRouterDefense: structs *)

Module SwapParams.
Record t := mk {
  tokenIn : address;
  tokenOut : address;
  amountIn : uint256;
  amountOutMin : uint256;
  recipient : address;
  deadline : uint256
}.
End SwapParams.

Module Route.
Record t := mk {
  pool : address;
  tokenIn : address;
  tokenOut : address;
  percentage : uint256
}.
Definition zero : t := mk 0 0 0 0.
End Route.

Module CommitRevealOrder.
Record t := mk {
  commitment : bytes32;
  deadline : uint256;
  revealed : bool;
  executed : bool
}.
Definition zero : t := mk 0 0 false false.
Definition set_revealed (b : bool) (o : t) : t :=
  mk (commitment o) (deadline o) b (executed o).
Definition set_executed (b : bool) (o : t) : t :=
  mk (commitment o) (deadline o) (revealed o) b.
End CommitRevealOrder.

#[global] Instance CommitRevealOrder_inhabited : Inhabited CommitRevealOrder.t :=
  populate CommitRevealOrder.zero.

(** ** RouteOptimizer.sol *)

Module RouteOptimizer.

Definition MAX_ROUTES : uint256 := 3.
Definition PERCENTAGE_BASE : uint256 := 10000.

Record PoolInfo := mkPool {
  pool : address;
  token0 : address;
  token1 : address;
  liquidity : uint256;
  fee : uint256
}.

Definition _isValidPool (p : PoolInfo) (tokenIn tokenOut : address) : bool :=
  ((token0 p =? tokenIn) && (token1 p =? tokenOut)) ||
  ((token0 p =? tokenOut) && (token1 p =? tokenIn)).

Definition _calculatePoolCapacity (p : PoolInfo) (amountIn : uint256)
  : result uint256 :=
  let? x := U256.mul (liquidity p) 3000 in
  U256.div x 10000.

Definition _calculateExpectedOutput (p : PoolInfo) (tokenIn tokenOut : address)
    (amountIn : uint256) : result uint256 :=
  let? x := U256.mul amountIn (fee p) in
  let? feeAmount := U256.div x 1000000 in
  let? amountInAfterFee := U256.sub amountIn feeAmount in
  let? y := U256.mul amountInAfterFee 997 in
  U256.div y 1000.

(** The local variables of the loop of [optimizeRoute]. [legs] is a ghost
    field: the value of the local [routeAmount] of every iteration that
    stored a route, in order; the source keeps only its percentage. *)
Record vars := mkVars {
  routes : list Route.t;
  routeCount : uint256;
  expectedAmountOut : uint256;
  remainingAmount : uint256;
  legs : list uint256
}.

(** [for (i = 0; i < availablePools.length && routeCount < MAX_ROUTES &&
    remainingAmount > 0; i++)], by recursion on the pools not yet visited. *)
Fixpoint optimizeRoute_loop (tokenIn tokenOut : address) (amountIn : uint256)
    (availablePools : list PoolInfo) (v : vars) : result vars :=
  match availablePools with
  | [] => Ok v
  | p :: rest =>
    if (routeCount v <? MAX_ROUTES) && (0 <? remainingAmount v) then
      if negb (_isValidPool p tokenIn tokenOut) then
        optimizeRoute_loop tokenIn tokenOut amountIn rest v
      else
        let? poolCapacity := _calculatePoolCapacity p amountIn in
        let routeAmount :=
          if poolCapacity <? remainingAmount v then poolCapacity
          else remainingAmount v in
        if routeAmount =? 0 then
          optimizeRoute_loop tokenIn tokenOut amountIn rest v
        else
          let? x := U256.mul routeAmount PERCENTAGE_BASE in
          let? percentage := U256.div x amountIn in
          let? expectedOut :=
            _calculateExpectedOutput p tokenIn tokenOut routeAmount in
          let routes' :=
            <[ N.to_nat (routeCount v) :=
                 Route.mk (pool p) tokenIn tokenOut percentage ]> (routes v) in
          let? expectedAmountOut' := U256.add (expectedAmountOut v) expectedOut in
          let? remainingAmount' := U256.sub (remainingAmount v) routeAmount in
          let? routeCount' := U256.add (routeCount v) 1 in
          optimizeRoute_loop tokenIn tokenOut amountIn rest
            (mkVars routes' routeCount' expectedAmountOut' remainingAmount'
                    (legs v ++ [routeAmount]))
    else Ok v
  end.

Definition optimizeRoute_init (amountIn : uint256) : vars :=
  mkVars (replicate (N.to_nat MAX_ROUTES) Route.zero) 0 0 amountIn [].

(** [routes = new Route[](MAX_ROUTES)]; the loop; then
    [mstore(routes, routeCount)], which shortens the array to its first
    [routeCount] cells. *)
Definition optimizeRoute (tokenIn tokenOut : address) (amountIn : uint256)
    (availablePools : list PoolInfo) : result (list Route.t * uint256) :=
  let? v := optimizeRoute_loop tokenIn tokenOut amountIn availablePools
              (optimizeRoute_init amountIn) in
  Ok (take (N.to_nat (routeCount v)) (routes v), expectedAmountOut v).

(** The input amount of every leg of the allocation (the ghost [legs]). *)
Definition optimizeRoute_legs (tokenIn tokenOut : address) (amountIn : uint256)
    (availablePools : list PoolInfo) : result (list uint256) :=
  let? v := optimizeRoute_loop tokenIn tokenOut amountIn availablePools
              (optimizeRoute_init amountIn) in
  Ok (legs v).

Definition calculateSlippage (expectedAmount actualAmount : uint256)
  : result uint256 :=
  if expectedAmount =? 0 then Ok 0
  else if expectedAmount <=? actualAmount then Ok 0
  else
    let? d := U256.sub expectedAmount actualAmount in
    let? x := U256.mul d PERCENTAGE_BASE in
    U256.div x expectedAmount.

End RouteOptimizer.

(** ** RouterDefense.sol *)

(** The argument of [ISwapRouter.exactInputSingle]. *)
Module ExactInputSingleParams.
Record t := mk {
  tokenIn : address;
  tokenOut : address;
  fee : uint256;
  recipient : address;
  deadline : uint256;
  amountIn : uint256;
  amountOutMinimum : uint256;
  sqrtPriceLimitX96 : uint256
}.
End ExactInputSingleParams.

Inductive Event :=
| SwapExecuted (user tokenIn tokenOut : address) (amountIn amountOut : uint256)
               (routes : list Route.t)
| CommitmentMade (user : address) (commitment : bytes32) (deadline : uint256)
| OrderRevealed (user : address) (commitment : bytes32)
| BatchExecuted (orderCount totalGasSaved : uint256).

(** An external call the contract made, as the callee sees it. *)
Inductive ExtCall :=
| XTransferFrom (token from to : address) (amount : uint256)
| XApprove (token spender : address) (amount : uint256)
| XExactInputSingle (p : ExactInputSingleParams.t) (value : uint256).

(** What a call sees of its transaction: [address(this)], [msg.sender],
    [msg.value] and [block.timestamp]. *)
Record Env := mkEnv {
  this : address;
  msg_sender : address;
  msg_value : uint256;
  block_timestamp : uint256
}.

(** The storage of the contract ([swapRouter], immutable, the mappings and the
    queue, [owner] of Ownable and the lock of ReentrancyGuard), the events it
    emitted, the external calls it made, and the state of its collaborators.
    [supportedPools] is declared and never read or written, and is left out.
    The ether of [msg.value] is credited by the EVM before the body runs and
    returned with every other effect when the call aborts; the embedding
    starts after the credit. *)
Record State (World : Type) := mkState {
  swapRouter : address;
  commitments : gmap address CommitRevealOrder.t;
  usedCommitments : gset bytes32;
  revealedOrders : list address;
  tokenPairPools : gmap (address * address) (list address);
  owner : address;
  locked : bool;
  events : list Event;
  calls : list ExtCall;
  world : World
}.
Arguments mkState {World}.
Arguments swapRouter {World}.
Arguments commitments {World}.
Arguments usedCommitments {World}.
Arguments revealedOrders {World}.
Arguments tokenPairPools {World}.
Arguments owner {World}.
Arguments locked {World}.
Arguments events {World}.
Arguments calls {World}.
Arguments world {World}.

(** What the callee of an external call can run on the contract before it
    returns. Every external call of the contract is made by [protectedSwap]
    or [revealAndExecute], inside [nonReentrant]: a nested call of one of the
    three guarded functions finds the lock held and reverts, leaving nothing
    ([guarded_reentry_rejected]), and the view functions change nothing. Of
    the functions the contract defines, that leaves the two that write
    storage and carry no guard, [commitOrder] and [addPool], called by any
    [sender] the callee can reach. *)
Inductive Callback :=
| CbCommitOrder (sender : address) (commitment : bytes32) (deadline : uint256)
| CbAddPool (sender : address) (tokenA tokenB pool : address).

(** The behaviour of a callee: it calls the contract back any number of
    times, sees the state of the contract after each nested call (through
    the getters and the events; whether the nested call went through shows
    there), and in the end reverts ([None]) or returns a value and leaves
    the collaborators in a new state. *)
Inductive Script (World A : Type) : Type :=
| Return (r : option (A * World))
| Reenter (cb : Callback) (k : State World -> Script World A).
Arguments Return {World A} r.
Arguments Reenter {World A} cb k.

(** The contracts and primitives the contract calls and does not define: the
    ERC-20 tokens (through SafeERC20), the Uniswap swap router and
    [keccak256(abi.encodePacked(...))]. [World] is their state. The first
    argument of a call is its caller; the last is the state of the contract
    when the call is made, [World] included. *)
Class Collaborators (World : Type) := {
  keccak256 :
    address -> SwapParams.t -> uint256 -> bytes32 -> bytes32;
  safeTransferFrom :
    address -> address -> address -> address -> uint256 -> State World ->
    Script World unit;
  safeApprove :
    address -> address -> address -> uint256 -> State World ->
    Script World unit;
  exactInputSingle :
    address -> ExactInputSingleParams.t -> uint256 -> State World ->
    Script World uint256
}.

(** ** Calls as state-passing computations *)

Definition M (World A : Type) : Type :=
  Env -> State World -> result (A * State World).

Definition ret {World A} (a : A) : M World A := fun _ s => Ok (a, s).
Definition bind {World A B} (m : M World A) (k : A -> M World B) : M World B :=
  fun env s =>
    match m env s with
    | Ok (a, s') => k a env s'
    | Err e => Err e
    end.
Definition lift {World A} (r : result A) : M World A :=
  fun _ s => match r with Ok a => Ok (a, s) | Err e => Err e end.
Definition ask {World} : M World Env := fun env s => Ok (env, s).
Definition get {World} : M World (State World) := fun _ s => Ok (s, s).
Definition modify {World} (f : State World -> State World) : M World unit :=
  fun _ s => Ok (tt, f s).
Definition require {World} (cond : bool) (msg : string) : M World unit :=
  fun _ s => if cond then Ok (tt, s) else Err (Revert msg).

Notation "'do' x <- m ; k" := (bind m (fun x => k))
  (at level 100, x name, m at next level, k at level 200).
Notation "'do' ' pat <- m ; k" := (bind m (fun x => match x with pat => k end))
  (at level 100, pat pattern, m at next level, k at level 200).
Notation "m ;; k" := (bind m (fun _ => k))
  (at level 100, k at level 200, right associativity).

Section RouterDefense.
Context {World : Type} `{!Collaborators World}.

Local Abbreviation M := (M World).

(** A call from outside: all of its effects, or none of them. *)
Definition exec {A} (m : M A) (env : Env) (s : State World)
  : result A * State World :=
  match m env s with
  | Ok (a, s') => (Ok a, s')
  | Err e => (Err e, s)
  end.

(** *** Storage writes *)

Definition set_commitments (f : gmap address CommitRevealOrder.t ->
                                gmap address CommitRevealOrder.t)
    (s : State World) : State World :=
  mkState (swapRouter s) (f (commitments s)) (usedCommitments s) (revealedOrders s)
          (tokenPairPools s) (owner s) (locked s) (events s) (calls s) (world s).
Definition set_usedCommitments (f : gset bytes32 -> gset bytes32)
    (s : State World) : State World :=
  mkState (swapRouter s) (commitments s) (f (usedCommitments s)) (revealedOrders s)
          (tokenPairPools s) (owner s) (locked s) (events s) (calls s) (world s).
Definition set_revealedOrders (f : list address -> list address)
    (s : State World) : State World :=
  mkState (swapRouter s) (commitments s) (usedCommitments s) (f (revealedOrders s))
          (tokenPairPools s) (owner s) (locked s) (events s) (calls s) (world s).
Definition set_tokenPairPools (f : gmap (address * address) (list address) ->
                                   gmap (address * address) (list address))
    (s : State World) : State World :=
  mkState (swapRouter s) (commitments s) (usedCommitments s) (revealedOrders s)
          (f (tokenPairPools s)) (owner s) (locked s) (events s) (calls s) (world s).
Definition set_locked (b : bool) (s : State World) : State World :=
  mkState (swapRouter s) (commitments s) (usedCommitments s) (revealedOrders s)
          (tokenPairPools s) (owner s) b (events s) (calls s) (world s).
Definition set_world (w : World) (s : State World) : State World :=
  mkState (swapRouter s) (commitments s) (usedCommitments s) (revealedOrders s)
          (tokenPairPools s) (owner s) (locked s) (events s) (calls s) w.
Definition log_call (c : ExtCall) (s : State World) : State World :=
  mkState (swapRouter s) (commitments s) (usedCommitments s) (revealedOrders s)
          (tokenPairPools s) (owner s) (locked s) (events s) (calls s ++ [c])
          (world s).

Definition emit (e : Event) : M unit :=
  modify (fun s =>
    mkState (swapRouter s) (commitments s) (usedCommitments s) (revealedOrders s)
            (tokenPairPools s) (owner s) (locked s) (events s ++ [e]) (calls s)
            (world s)).

(** [order.field = v] through the storage pointer
    [order = commitments[user]]. *)
Definition update_order (user : address)
    (f : CommitRevealOrder.t -> CommitRevealOrder.t) : M unit :=
  modify (set_commitments (fun m => <[ user := f (m !!! user) ]> m)).

(** *** Constants and modifiers *)

Definition COMMIT_REVEAL_DELAY : uint256 := 60.
Definition MAX_BATCH_SIZE : uint256 := 20.
Definition SLIPPAGE_PROTECTION : uint256 := 500.

(** Modelled from the spec: [utils/ReentrancyGuard.sol] is not among the
    sources. The guard holds one lock for the duration of the call and
    rejects a nested entry. *)
Definition nonReentrant {A} (body : M A) : M A :=
  do s <- get;
  require (negb (locked s)) "ReentrancyGuard: reentrant call" ;;
  modify (set_locked true) ;;
  do a <- body;
  modify (set_locked false) ;;
  ret a.

(** [Ownable.onlyOwner] of OpenZeppelin. *)
Definition onlyOwner {A} (body : M A) : M A :=
  do env <- ask;
  do s <- get;
  require (owner s =? msg_sender env) "Ownable: caller is not the owner" ;;
  body.

Definition validCommitment {A} (commitment : bytes32) (body : M A) : M A :=
  require (negb (commitment =? 0)) "RouterDefense: invalid commitment" ;;
  do s <- get;
  require (negb (bool_decide (commitment ∈ usedCommitments s)))
          "RouterDefense: commitment used" ;;
  body.

(** Declared by the contract and applied to none of its functions. *)
Definition validReveal {A} (commitment : bytes32) (body : M A) : M A :=
  do env <- ask;
  do s <- get;
  let order := commitments s !!! msg_sender env in
  require (CommitRevealOrder.commitment order =? commitment)
          "RouterDefense: invalid reveal" ;;
  require (negb (CommitRevealOrder.revealed order))
          "RouterDefense: already revealed" ;;
  require (block_timestamp env <=? CommitRevealOrder.deadline order)
          "RouterDefense: commitment expired" ;;
  do t <- lift (U256.sub (CommitRevealOrder.deadline order) COMMIT_REVEAL_DELAY);
  require (t <=? block_timestamp env) "RouterDefense: reveal too early" ;;
  body.

(** *** The unguarded functions *)

Definition commitOrder (commitment : bytes32) (deadline : uint256) : M unit :=
  validCommitment commitment (
    do env <- ask;
    do soonest <- lift (U256.add (block_timestamp env) COMMIT_REVEAL_DELAY);
    require (soonest <? deadline) "RouterDefense: deadline too soon" ;;
    do latest <- lift (U256.add (block_timestamp env) 3600);
    require (deadline <=? latest) "RouterDefense: deadline too far" ;;
    modify (set_commitments (fun m =>
      <[ msg_sender env :=
           CommitRevealOrder.mk commitment deadline false false ]> m)) ;;
    modify (set_usedCommitments (fun u => {[ commitment ]} ∪ u)) ;;
    emit (CommitmentMade (msg_sender env) commitment deadline)).

Definition addPool (tokenA tokenB pool : address) : M unit :=
  onlyOwner (
    modify (set_tokenPairPools (fun t =>
      <[ (tokenA, tokenB) := default [] (t !! (tokenA, tokenB)) ++ [pool] ]> t)) ;;
    modify (set_tokenPairPools (fun t =>
      <[ (tokenB, tokenA) := default [] (t !! (tokenB, tokenA)) ++ [pool] ]> t))).

(** *** External calls *)

(** A nested call from a callee: it runs in the transaction of the outer
    call, at its time, with the callee's choice of [msg.sender] and no value
    (neither function is payable); when it aborts it leaves nothing and the
    callee goes on. *)
Definition reenter (cb : Callback) (env : Env) (s : State World) : State World :=
  match cb with
  | CbCommitOrder sender commitment deadline =>
      snd (exec (commitOrder commitment deadline)
             (mkEnv (this env) sender 0 (block_timestamp env)) s)
  | CbAddPool sender tokenA tokenB pool =>
      snd (exec (addPool tokenA tokenB pool)
             (mkEnv (this env) sender 0 (block_timestamp env)) s)
  end.

(** The run of a callee against the contract. *)
Fixpoint play {A} (p : Script World A) (env : Env) (s : State World)
  : option (A * State World) :=
  match p with
  | Return None => None
  | Return (Some (a, w)) => Some (a, set_world w s)
  | Reenter cb k => play (k (reenter cb env s)) env (reenter cb env s)
  end.

(** An external call: logged, then left to the callee; when the callee
    reverts, so does the call. *)
Definition call {A} (c : ExtCall) (p : State World -> Script World A) : M A :=
  fun env s =>
    match play (p s) env (log_call c s) with
    | Some (a, s') => Ok (a, s')
    | None => Err CallFailed
    end.

Definition call_safeTransferFrom (token from to : address) (amount : uint256)
  : M unit :=
  do env <- ask;
  call (XTransferFrom token from to amount)
       (safeTransferFrom (this env) token from to amount).

Definition call_safeApprove (token spender : address) (amount : uint256)
  : M unit :=
  do env <- ask;
  call (XApprove token spender amount)
       (safeApprove (this env) token spender amount).

Definition call_exactInputSingle (p : ExactInputSingleParams.t) (value : uint256)
  : M uint256 :=
  do env <- ask;
  call (XExactInputSingle p value) (exactInputSingle (this env) p value).

(** *** Routing and execution *)

Definition _getWETH : address := 0xC02aaA39b223FE8D0A0e5C4F27eAD9083C756Cc2.

Definition _getAvailablePools (tokenIn tokenOut : address)
  : M (list RouteOptimizer.PoolInfo) :=
  do s <- get;
  let pools := default [] (tokenPairPools s !! (tokenIn, tokenOut)) in
  ret (map (fun pool =>
              RouteOptimizer.mkPool pool
                (if tokenIn <? tokenOut then tokenIn else tokenOut)
                (if tokenIn <? tokenOut then tokenOut else tokenIn)
                (1000000 * 10 ^ 18)
                3000) pools).

Definition getOptimalRoute (tokenIn tokenOut : address) (amountIn : uint256)
  : M (list Route.t * uint256) :=
  do availablePools <- _getAvailablePools tokenIn tokenOut;
  lift (RouteOptimizer.optimizeRoute tokenIn tokenOut amountIn availablePools).

Definition _executeSingleRoute (route : Route.t) (amountIn : uint256)
    (recipient : address) (deadline : uint256) : M uint256 :=
  do s <- get;
  (if negb (Route.tokenIn route =? 0)
   then call_safeApprove (Route.tokenIn route) (swapRouter s) amountIn
   else ret tt) ;;
  let swapParams :=
    ExactInputSingleParams.mk
      (if Route.tokenIn route =? 0 then _getWETH else Route.tokenIn route)
      (if Route.tokenOut route =? 0 then _getWETH else Route.tokenOut route)
      3000 recipient deadline amountIn 0 0 in
  if Route.tokenIn route =? 0
  then call_exactInputSingle swapParams amountIn
  else call_exactInputSingle swapParams 0.

(** The loop of [_executeMultiPathSwap], by recursion on the routes not yet
    visited, with its locals [remainingAmountIn] and [totalAmountOut]. *)
Fixpoint _executeMultiPathSwap_loop (params : SwapParams.t)
    (routes : list Route.t) (remainingAmountIn totalAmountOut : uint256)
  : M uint256 :=
  match routes with
  | [] => ret totalAmountOut
  | route :: rest =>
    if remainingAmountIn =? 0 then ret totalAmountOut
    else
      do x <- lift (U256.mul (SwapParams.amountIn params) (Route.percentage route));
      do q <- lift (U256.div x 10000);
      let routeAmountIn := if remainingAmountIn <? q then remainingAmountIn else q in
      if 0 <? routeAmountIn then
        do routeAmountOut <-
          _executeSingleRoute route routeAmountIn
            (SwapParams.recipient params) (SwapParams.deadline params);
        do totalAmountOut' <- lift (U256.add totalAmountOut routeAmountOut);
        do remainingAmountIn' <- lift (U256.sub remainingAmountIn routeAmountIn);
        _executeMultiPathSwap_loop params rest remainingAmountIn' totalAmountOut'
      else
        _executeMultiPathSwap_loop params rest remainingAmountIn totalAmountOut
  end.

Definition _executeMultiPathSwap (params : SwapParams.t) (routes : list Route.t)
  : M uint256 :=
  require (negb (length routes =? 0)%nat) "RouterDefense: no routes available" ;;
  _executeMultiPathSwap_loop params routes (SwapParams.amountIn params) 0.

(** The fund pull shared by [protectedSwap] and [revealAndExecute]. *)
Definition pullFunds (params : SwapParams.t) : M unit :=
  do env <- ask;
  if negb (SwapParams.tokenIn params =? 0)
  then call_safeTransferFrom (SwapParams.tokenIn params) (msg_sender env)
         (this env) (SwapParams.amountIn params)
  else require (msg_value env =? SwapParams.amountIn params)
         "RouterDefense: incorrect ETH amount".

(** *** External functions *)

Definition protectedSwap (params : SwapParams.t) : M uint256 :=
  nonReentrant (
    do env <- ask;
    require (block_timestamp env <=? SwapParams.deadline params)
            "RouterDefense: expired deadline" ;;
    require (0 <? SwapParams.amountIn params) "RouterDefense: invalid amount" ;;
    pullFunds params ;;
    do '(routes, expectedAmountOut) <-
      getOptimalRoute (SwapParams.tokenIn params) (SwapParams.tokenOut params)
                      (SwapParams.amountIn params);
    require (SwapParams.amountOutMin params <=? expectedAmountOut)
            "RouterDefense: insufficient output" ;;
    do amountOut <- _executeMultiPathSwap params routes;
    require (SwapParams.amountOutMin params <=? amountOut)
            "RouterDefense: slippage exceeded" ;;
    emit (SwapExecuted (msg_sender env) (SwapParams.tokenIn params)
            (SwapParams.tokenOut params) (SwapParams.amountIn params)
            amountOut routes) ;;
    ret amountOut).

Definition revealAndExecute (params : SwapParams.t) (nonce : uint256)
    (salt : bytes32) : M uint256 :=
  nonReentrant (
    do env <- ask;
    let expectedCommitment := keccak256 (msg_sender env) params nonce salt in
    do s <- get;
    require (CommitRevealOrder.commitment (commitments s !!! msg_sender env)
               =? expectedCommitment)
            "RouterDefense: invalid reveal" ;;
    let order := commitments s !!! msg_sender env in
    require (negb (CommitRevealOrder.revealed order))
            "RouterDefense: already revealed" ;;
    require (negb (CommitRevealOrder.executed order))
            "RouterDefense: already executed" ;;
    require (block_timestamp env <=? CommitRevealOrder.deadline order)
            "RouterDefense: commitment expired" ;;
    update_order (msg_sender env) (CommitRevealOrder.set_revealed true) ;;
    modify (set_revealedOrders (fun q => q ++ [msg_sender env])) ;;
    emit (OrderRevealed (msg_sender env) expectedCommitment) ;;
    pullFunds params ;;
    do '(routes, expectedAmountOut) <-
      getOptimalRoute (SwapParams.tokenIn params) (SwapParams.tokenOut params)
                      (SwapParams.amountIn params);
    do amountOut <- _executeMultiPathSwap params routes;
    update_order (msg_sender env) (CommitRevealOrder.set_executed true) ;;
    emit (SwapExecuted (msg_sender env) (SwapParams.tokenIn params)
            (SwapParams.tokenOut params) (SwapParams.amountIn params)
            amountOut routes) ;;
    ret amountOut).

(** The loop of [batchExecuteRevealed] over [revealedOrders], by recursion on
    the entries not yet visited; [executed] is its counter, bounded by
    [MAX_BATCH_SIZE]. *)
Fixpoint batch_loop (now : uint256) (queue : list address)
    (cm : gmap address CommitRevealOrder.t) (executed : uint256)
  : gmap address CommitRevealOrder.t * uint256 :=
  match queue with
  | [] => (cm, executed)
  | user :: rest =>
    if executed <? MAX_BATCH_SIZE then
      let order := cm !!! user in
      if CommitRevealOrder.revealed order
         && negb (CommitRevealOrder.executed order)
         && (now <=? CommitRevealOrder.deadline order)
      then batch_loop now rest
             (<[ user := CommitRevealOrder.set_executed true order ]> cm)
             (executed + 1)
      else batch_loop now rest cm executed
    else (cm, executed)
  end.

Definition _clearRevealedOrders : M unit :=
  modify (set_revealedOrders (fun _ => [])).

(** [gasStart] and [gasUsed] are computed and never used; [gasSaved] is
    [executed * 21000], at most 420000. *)
Definition batchExecuteRevealed : M unit :=
  nonReentrant (
    do env <- ask;
    do s <- get;
    require (negb (length (revealedOrders s) =? 0)%nat)
            "RouterDefense: no revealed orders" ;;
    let '(cm, executed) :=
      batch_loop (block_timestamp env) (revealedOrders s) (commitments s) 0 in
    modify (set_commitments (fun _ => cm)) ;;
    (if 0 <? executed then _clearRevealedOrders else ret tt) ;;
    let gasSaved := executed * 21000 in
    emit (BatchExecuted executed gasSaved)).

Definition getCommitmentStatus (user : address) : M CommitRevealOrder.t :=
  do s <- get; ret (commitments s !!! user).

Definition getRevealedOrdersCount : M uint256 :=
  do s <- get; ret (N.of_nat (length (revealedOrders s))).

Definition _initializePools : gmap (address * address) (list address) :=
  let WETH := _getWETH in
  let USDC := 0xA0B86A33E6417C82bdDB8E35c5B14bBc6c3E6d7C in
  let DAI := 0x6B175474E89094C44Da98b954EedeAC495271d0F in
  let poolWETH_USDC := 0x8ad599c3A0ff1De082011EFDDc58f1908eb6e6D8 in
  let poolWETH_DAI := 0xC2e9F25Be6257c210d7Adf0D4Cd6E3E881ba25f8 in
  let poolUSDC_DAI := 0x5777d92f208679DB4b9778590Fa3CAB3aC9e2168 in
  <[ (DAI, USDC) := [poolUSDC_DAI] ]> (
  <[ (USDC, DAI) := [poolUSDC_DAI] ]> (
  <[ (DAI, WETH) := [poolWETH_DAI] ]> (
  <[ (WETH, DAI) := [poolWETH_DAI] ]> (
  <[ (USDC, WETH) := [poolWETH_USDC] ]> (
  <[ (WETH, USDC) := [poolWETH_USDC] ]> ∅))))).

(** The storage after the constructor, run by [deployer] in the world [w]. *)
Definition constructor (deployer _swapRouter : address) (w : World)
  : State World :=
  mkState _swapRouter ∅ ∅ [] _initializePools deployer false [] [] w.

(** *** Histories of calls *)

Inductive Tx :=
| TxProtectedSwap (params : SwapParams.t)
| TxCommitOrder (commitment : bytes32) (deadline : uint256)
| TxRevealAndExecute (params : SwapParams.t) (nonce : uint256) (salt : bytes32)
| TxBatchExecuteRevealed
| TxAddPool (tokenA tokenB pool : address)
| TxElsewhere (w : World).   (* the collaborators change state on their own *)

Definition transact (tx : Tx) (env : Env) (s : State World) : State World :=
  match tx with
  | TxProtectedSwap params => snd (exec (protectedSwap params) env s)
  | TxCommitOrder c d => snd (exec (commitOrder c d) env s)
  | TxRevealAndExecute params nonce salt =>
      snd (exec (revealAndExecute params nonce salt) env s)
  | TxBatchExecuteRevealed => snd (exec batchExecuteRevealed env s)
  | TxAddPool a b p => snd (exec (addPool a b p) env s)
  | TxElsewhere w => set_world w s
  end.

Fixpoint run (history : list (Env * Tx)) (s : State World) : State World :=
  match history with
  | [] => s
  | (env, tx) :: rest => run rest (transact tx env s)
  end.

End RouterDefense.

(** ** Vocabulary of the statements *)

Module Alloc.
Import RouteOptimizer.

(** 30% of the reported liquidity. *)
Definition capacity (p : PoolInfo) : uint256 := liquidity p * 3000 / 10000.

(** The capacities of the candidates that match the token pair and have a
    positive capacity, in source order. *)
Fixpoint eligible (tokenIn tokenOut : address) (pools : list PoolInfo)
  : list uint256 :=
  match pools with
  | [] => []
  | p :: rest =>
    if _isValidPool p tokenIn tokenOut && (0 <? capacity p)
    then capacity p :: eligible tokenIn tokenOut rest
    else eligible tokenIn tokenOut rest
  end.

(** No product formed for a matching candidate leaves [uint256], and its fee
    is at most 100%. *)
Definition pool_in_range (tokenIn tokenOut : address) (amountIn : uint256)
    (p : PoolInfo) : Prop :=
  _isValidPool p tokenIn tokenOut = true ->
  liquidity p * 3000 <= MAX_UINT256 /\
  amountIn * fee p <= MAX_UINT256 /\
  fee p <= 1000000.

(** What the loop of [optimizeRoute] maintains between iterations. *)
Record inv (amountIn : uint256) (v : vars) : Prop := mkInv {
  inv_count : routeCount v = N.of_nat (length (legs v));
  inv_bound : routeCount v <= MAX_ROUTES;
  inv_cells : length (routes v) = N.to_nat MAX_ROUTES;
  inv_pct :
    Forall2 (fun r a => Route.percentage r = a * PERCENTAGE_BASE / amountIn)
            (take (length (legs v)) (routes v)) (legs v);
  inv_sum : sumN (legs v) + remainingAmount v = amountIn;
  inv_out : expectedAmountOut v <= sumN (legs v)
}.

(** The expected output with the fee read in basis points, as the
    specification words it: the fee is the fraction [fee/10000] of the
    input, and the rest is scaled by 997/1000. *)
Definition expectedOutput_bps (amountIn fee : uint256) : uint256 :=
  (amountIn - amountIn * fee / 10000) * 997 / 1000.

(** The same with the fee in parts per million, the unit of the source. *)
Definition expectedOutput_ppm (amountIn fee : uint256) : uint256 :=
  (amountIn - amountIn * fee / 1000000) * 997 / 1000.
End Alloc.

(** The states of a commitment slot at time [now]. *)
Module Ledger.
Definition live (o : CommitRevealOrder.t) (now : uint256) : bool :=
  negb (CommitRevealOrder.commitment o =? 0)
  && negb (CommitRevealOrder.executed o)
  && (now <=? CommitRevealOrder.deadline o).

Definition expired (o : CommitRevealOrder.t) (now : uint256) : bool :=
  CommitRevealOrder.deadline o <? now.

(** What the loop of [batchExecuteRevealed] asks of an entry to mark it. *)
Definition settleable (o : CommitRevealOrder.t) (now : uint256) : bool :=
  CommitRevealOrder.revealed o
  && negb (CommitRevealOrder.executed o)
  && (now <=? CommitRevealOrder.deadline o).

(** The moves of one commitment slot in one call at time [now], [used]
    being the hashes retired before the call: it is left alone, overwritten
    by a fresh commitment, revealed and executed, or settled by a batch; or,
    when its committer commits again from a callback while the reveal is
    running, overwritten by a fresh commitment and then marked executed by
    the reveal. *)
Inductive slot_step (now : uint256) (used : gset bytes32)
    (o : CommitRevealOrder.t) : CommitRevealOrder.t -> Prop :=
| slot_same : slot_step now used o o
| slot_commit c d :
    c <> 0 -> c ∉ used ->
    slot_step now used o (CommitRevealOrder.mk c d false false)
| slot_reveal :
    CommitRevealOrder.revealed o = false ->
    CommitRevealOrder.executed o = false ->
    now <= CommitRevealOrder.deadline o ->
    slot_step now used o
      (CommitRevealOrder.mk (CommitRevealOrder.commitment o)
         (CommitRevealOrder.deadline o) true true)
| slot_settle :
    settleable o now = true ->
    slot_step now used o (CommitRevealOrder.set_executed true o)
| slot_recommit c d :
    c <> 0 -> c ∉ used ->
    slot_step now used o (CommitRevealOrder.mk c d false true).
End Ledger.

(** The two pushes of [addPool] and of each pool of [_initializePools]. *)
Definition register_pool (tokenA tokenB pool : address)
    (t : gmap (address * address) (list address))
  : gmap (address * address) (list address) :=
  let t1 := <[ (tokenA, tokenB) := default [] (t !! (tokenA, tokenB)) ++ [pool] ]> t in
  <[ (tokenB, tokenA) := default [] (t1 !! (tokenB, tokenA)) ++ [pool] ]> t1.

(** A registry that lists the same pools for a pair in both directions. *)
Definition symmetric_registry (t : gmap (address * address) (list address)) : Prop :=
  forall x y, default [] (t !! (x, y)) = default [] (t !! (y, x)).

(** The registry after any number of registrations. *)
Inductive registry_grows (t : gmap (address * address) (list address))
  : gmap (address * address) (list address) -> Prop :=
| grows_none : registry_grows t t
| grows_more t' tokenA tokenB pool :
    registry_grows t t' ->
    registry_grows t (register_pool tokenA tokenB pool t').

(** What the callees of external calls can have done to the storage between
    two points of a call: through nested [commitOrder]s, retired fresh
    nonzero hashes and overwritten slots with unrevealed, unexecuted
    commitments of such hashes; through nested [addPool]s, registered pools.
    The router and the queue are as they were. *)
Record reentered {World} (s s' : State World) : Prop := mkReentered {
  re_router : swapRouter s' = swapRouter s;
  re_queue : revealedOrders s' = revealedOrders s;
  re_used : usedCommitments s ⊆ usedCommitments s';
  re_zero : (0 ∉ usedCommitments s) -> 0 ∉ usedCommitments s';
  re_slots : forall u,
    commitments s' !!! u = commitments s !!! u \/
    exists c d,
      c <> 0 /\ (c ∉ usedCommitments s) /\ c ∈ usedCommitments s' /\
      commitments s' !!! u = CommitRevealOrder.mk c d false false;
  re_pools : registry_grows (tokenPairPools s) (tokenPairPools s')
}.

(** Across external calls, in addition: the lock is as it was, and the
    events emitted before are kept. *)
Definition called_back {World} (s s' : State World) : Prop :=
  reentered s s' /\
  locked s' = locked s /\
  exists es, events s' = events s ++ es.

(** The state after a successful [commitOrder], and when it succeeds. *)
Definition committed {World} (commitment : bytes32) (deadline : uint256)
    (env : Env) (s : State World) : State World :=
  mkState (swapRouter s)
    (<[ msg_sender env := CommitRevealOrder.mk commitment deadline false false ]>
       (commitments s))
    ({[ commitment ]} ∪ usedCommitments s)
    (revealedOrders s) (tokenPairPools s) (owner s) (locked s)
    (events s ++ [CommitmentMade (msg_sender env) commitment deadline])
    (calls s) (world s).

Definition commit_accepts {World} (commitment : bytes32) (deadline : uint256)
    (env : Env) (s : State World) : Prop :=
  commitment <> 0 /\
  (commitment ∉ usedCommitments s) /\
  block_timestamp env + 3600 <= MAX_UINT256 /\
  block_timestamp env + 60 < deadline /\
  deadline <= block_timestamp env + 3600.

(** The state of a reveal once its checks are passed: the lock taken, the
    caller's order marked revealed and queued, [OrderRevealed] emitted; the
    pull and the legs are still to come. *)
Definition revealing {World} `{!Collaborators World} (params : SwapParams.t)
    (nonce : uint256) (salt : bytes32) (env : Env) (s : State World)
  : State World :=
  mkState (swapRouter s)
    (<[ msg_sender env :=
          CommitRevealOrder.set_revealed true (commitments s !!! msg_sender env) ]>
       (commitments s))
    (usedCommitments s)
    (revealedOrders s ++ [msg_sender env]) (tokenPairPools s) (owner s) true
    (events s ++ [OrderRevealed (msg_sender env)
                    (keccak256 (msg_sender env) params nonce salt)])
    (calls s) (world s).

Module Legs.
(** The input amounts of the swaps among the external calls made. *)
Fixpoint swap_amounts (cs : list ExtCall) : list uint256 :=
  match cs with
  | [] => []
  | XExactInputSingle p _ :: rest =>
      ExactInputSingleParams.amountIn p :: swap_amounts rest
  | _ :: rest => swap_amounts rest
  end.

(** The legs of a multi-path swap of [amountIn] over routes of the given
    percentages, [remaining] being unspent: each leg is
    [floor (amountIn * percentage / 10000)] capped by what remains, and is
    skipped when that is zero. *)
Fixpoint planned (amountIn : uint256) (percentages : list uint256)
    (remaining : uint256) : list uint256 :=
  match percentages with
  | [] => []
  | pct :: rest =>
    if remaining =? 0 then []
    else
      let leg := N.min (amountIn * pct / 10000) remaining in
      if 0 <? leg then leg :: planned amountIn rest (remaining - leg)
      else planned amountIn rest remaining
  end.
End Legs.

(** The request with its minimum output lowered to zero: the swap it
    describes, without the slippage guard. *)
Definition unguarded (params : SwapParams.t) : SwapParams.t :=
  SwapParams.mk (SwapParams.tokenIn params) (SwapParams.tokenOut params)
    (SwapParams.amountIn params) 0 (SwapParams.recipient params)
    (SwapParams.deadline params).

(** ** A test double for the collaborators

    Token balances keyed by (token, holder); the router pays 99% of the input
    in the output token; the hash is a linear mix of its arguments. It is used
    to run the contract on concrete inputs. *)
Module Sim.
Abbreviation World := (gmap (address * address) N).

Definition balanceOf (w : World) (token holder : address) : N :=
  default 0 (w !! (token, holder)).

Definition credit (token holder : address) (amount : N) (w : World) : World :=
  <[ (token, holder) := balanceOf w token holder + amount ]> w.

Definition transfer (token from to : address) (amount : N) (w : World)
  : option World :=
  if amount <=? balanceOf w token from
  then Some (credit token to amount
               (<[ (token, from) := balanceOf w token from - amount ]> w))
  else None.

Definition router : address := 900.

Definition mix (sender : address) (p : SwapParams.t) (nonce : uint256)
    (salt : bytes32) : bytes32 :=
  1 + sender + 3 * SwapParams.tokenIn p + 5 * SwapParams.tokenOut p
    + 7 * SwapParams.amountIn p + 11 * SwapParams.amountOutMin p
    + 13 * SwapParams.recipient p + 17 * SwapParams.deadline p
    + 19 * nonce + 23 * salt.

Definition swap (caller : address) (p : ExactInputSingleParams.t)
    (value : uint256) (w : World) : option (uint256 * World) :=
  let amountOut := ExactInputSingleParams.amountIn p * 99 / 100 in
  match (if value =? 0
         then transfer (ExactInputSingleParams.tokenIn p) caller router
                (ExactInputSingleParams.amountIn p) w
         else Some w) with
  | Some w' =>
      Some (amountOut,
            credit (ExactInputSingleParams.tokenOut p)
                   (ExactInputSingleParams.recipient p) amountOut w')
  | None => None
  end.

(** The collaborators of the test double call nothing back. *)
#[global] Instance collaborators : Collaborators World := {|
  keccak256 := mix;
  safeTransferFrom := fun _ token from to amount s =>
    Return (pair tt <$> transfer token from to amount (world s));
  safeApprove := fun _ _ _ _ s => Return (Some (tt, world s));
  exactInputSingle := fun caller p value s => Return (swap caller p value (world s))
|}.

Definition contract : address := 1000.
Definition alice : address := 1.
Definition bob : address := 2.
Definition tokenA : address := 11.
Definition tokenB : address := 12.

Definition at_time (sender : address) (t : uint256) : Env :=
  mkEnv contract sender 0 t.

(** Alice's request: 100 A for B, by time 500; and its commitment. *)
Definition request : SwapParams.t := SwapParams.mk tokenA tokenB 100 0 alice 500.
Definition request_hash : bytes32 := mix alice request 7 9.

(** A deployed contract with three pools for the pair (A, B), and Alice
    holding 1000 A. *)
Definition genesis : State World :=
  mkState router ∅ ∅ [] {[ (tokenA, tokenB) := [101; 102; 103] ]} 0 false [] []
          {[ (tokenA, alice) := 1000 ]}.

(** Alice commits at time 0 with deadline 120, and reveals at time 90. *)
Definition after_commit : State World :=
  snd (exec (commitOrder request_hash 120) (at_time alice 0) genesis).
Definition after_reveal : State World :=
  snd (exec (revealAndExecute request 7 9) (at_time alice 90) after_commit).

(** The contract holding the 100 A of the request, and an allocation of 60%
    and 40% over two pools. *)
Definition funded : State World :=
  mkState router ∅ ∅ [] {[ (tokenA, tokenB) := [101; 102; 103] ]} 0 false [] []
          {[ (tokenA, contract) := 100 ]}.
Definition two_routes : list Route.t :=
  [Route.mk 101 tokenA tokenB 6000; Route.mk 102 tokenA tokenB 4000].
Definition after_swap : State World :=
  snd (exec (_executeMultiPathSwap request two_routes) (at_time alice 10) funded).

(** A request of 1000 A for at least 992 B: the quote is 994, the router
    pays 990. *)
Definition tight_request : SwapParams.t :=
  SwapParams.mk tokenA tokenB 1000 992 alice 500.
Definition after_unguarded_swap : State World :=
  snd (exec (protectedSwap (unguarded tight_request)) (at_time alice 10) genesis).
End Sim.

(** ** Vocabulary of the further properties *)

Definition rmap {A B} (f : A -> B) (r : result A) : result B :=
  match r with
  | Ok a => Ok (f a)
  | Err e => Err e
  end.

Module Quote.
(** What every stored route carries: the tokens of the request and a positive
    leg. *)
Definition stamped (tokenIn tokenOut : address) (v : RouteOptimizer.vars) : Prop :=
  Forall (fun r => Route.tokenIn r = tokenIn /\ Route.tokenOut r = tokenOut)
         (take (length (RouteOptimizer.legs v)) (RouteOptimizer.routes v)) /\
  Forall (fun a => 0 < a) (RouteOptimizer.legs v).

(** A route with its two tokens exchanged. *)
Definition flip (r : Route.t) : Route.t :=
  Route.mk (Route.pool r) (Route.tokenOut r) (Route.tokenIn r) (Route.percentage r).

Definition flip_vars (v : RouteOptimizer.vars) : RouteOptimizer.vars :=
  RouteOptimizer.mkVars (map flip (RouteOptimizer.routes v))
    (RouteOptimizer.routeCount v) (RouteOptimizer.expectedAmountOut v)
    (RouteOptimizer.remainingAmount v) (RouteOptimizer.legs v).
End Quote.

(** The pools registered for a pair, in registration order: the array
    [tokenPairPools[tokenIn][tokenOut]]. *)
Definition registered {World} (s : State World) (tokenIn tokenOut : address)
  : list address :=
  default [] (tokenPairPools s !! (tokenIn, tokenOut)).

(** The [PoolInfo] that [_getAvailablePools] builds for a registered pool. *)
Definition pool_info (tokenIn tokenOut pool : address) : RouteOptimizer.PoolInfo :=
  RouteOptimizer.mkPool pool
    (if tokenIn <? tokenOut then tokenIn else tokenOut)
    (if tokenIn <? tokenOut then tokenOut else tokenIn)
    (1000000 * 10 ^ 18) 3000.

(** What a call made for a leg looks like: an approval of the swap router for
    a token, or a swap that pays the recipient of the request, by its
    deadline, at the 0.30% fee tier and with no minimum of its own, carrying
    as value nothing or the amount of the leg. Never a transfer. *)
Definition leg_call (router recipient : address) (deadline : uint256)
    (c : ExtCall) : Prop :=
  match c with
  | XTransferFrom _ _ _ _ => False
  | XApprove token spender _ => spender = router /\ token <> 0
  | XExactInputSingle p value =>
      ExactInputSingleParams.recipient p = recipient /\
      ExactInputSingleParams.deadline p = deadline /\
      ExactInputSingleParams.amountOutMinimum p = 0 /\
      ExactInputSingleParams.fee p = 3000 /\
      ExactInputSingleParams.tokenIn p <> 0 /\
      ExactInputSingleParams.tokenOut p <> 0 /\
      (value = 0 \/ value = ExactInputSingleParams.amountIn p)
  end.

(** The pull of [amountIn]: one transfer from the caller for a token, none
    for the native asset. *)
Definition pull_calls (params : SwapParams.t) (env : Env) : list ExtCall :=
  if SwapParams.tokenIn params =? 0 then []
  else [XTransferFrom (SwapParams.tokenIn params) (msg_sender env) (this env)
          (SwapParams.amountIn params)].

(** ** More runs of the test double *)

Module Scenario.
(** A request for a pair with no pool, and one that is too late. *)
Definition tokenC : address := 13.
Definition unlisted_request : SwapParams.t :=
  SwapParams.mk Sim.tokenA tokenC 100 0 Sim.alice 500.
Definition late_request : SwapParams.t :=
  SwapParams.mk Sim.tokenA Sim.tokenB 100 0 Sim.alice 5.

(** Two pools of liquidity 200 for the pair (A, B): each can take 60. *)
Definition shallow_pools : list RouteOptimizer.PoolInfo :=
  [RouteOptimizer.mkPool 101 Sim.tokenA Sim.tokenB 200 3000;
   RouteOptimizer.mkPool 102 Sim.tokenA Sim.tokenB 200 3000].

(** A swap of the native asset for a token it has no pool with. *)
Definition native_request : SwapParams.t :=
  SwapParams.mk 0 tokenC 100 0 Sim.alice 500.

(** A contract run from its constructor. The committers 1 to 21 hold 1000 A
    each. The deployer registers a pool for (A, B); every committer commits
    a request of their own at time 0, with deadline 120, and reveals it at
    time 90. *)
Definition deployer : address := 50.

End Scenario.

(** ** A test double that calls back

    The balances and the router of [Sim], with a token in the manner of
    ERC-777: before it returns, its [transferFrom] lets the payer commit the
    hash 777 with deadline 200, and lets the owner of the contract register
    the pool 105 for the token and [Scenario.tokenC]. *)
Module Hook.
Record World := mkWorld { balances : Sim.World }.

Definition owner : address := 60.

#[global] Instance collaborators : Collaborators World := {|
  keccak256 := Sim.mix;
  safeTransferFrom := fun _ token from to amount s =>
    match Sim.transfer token from to amount (balances (world s)) with
    | Some w =>
        Reenter (CbCommitOrder from 777 200) (fun _ =>
        Reenter (CbAddPool owner token Scenario.tokenC 105) (fun _ =>
        Return (Some (tt, mkWorld w))))
    | None => Return None
    end;
  safeApprove := fun _ _ _ _ s => Return (Some (tt, world s));
  exactInputSingle := fun caller p value s =>
    Return (prod_map id mkWorld <$> Sim.swap caller p value (balances (world s)))
|}.

(** A deployed contract with one pool for the pair (A, B), and Alice holding
    1000 A. *)
Definition genesis : State World :=
  mkState Sim.router ∅ ∅ [] {[ (Sim.tokenA, Sim.tokenB) := [101] ]} owner false [] []
          (mkWorld {[ (Sim.tokenA, Sim.alice) := 1000 ]}).

(** Alice swaps A for C, a pair with no pool, at time 10. *)
Definition after_swap : State World :=
  snd (exec (protectedSwap Scenario.unlisted_request) (Sim.at_time Sim.alice 10)
         genesis).

(** Alice commits the request of [Sim] at time 0 and reveals it at time 90. *)
Definition after_commit : State World :=
  snd (exec (commitOrder Sim.request_hash 120) (Sim.at_time Sim.alice 0) genesis).
Definition after_reveal : State World :=
  snd (exec (revealAndExecute Sim.request 7 9) (Sim.at_time Sim.alice 90)
         after_commit).
End Hook.

(** ** Proof automation *)

(** Linear arithmetic with the induction hypothesis of a loop out of the way. *)
Ltac arith :=
  repeat match goal with IH : forall v : RouteOptimizer.vars, _ |- _ => clear IH end;
  lia.
Ltac narith :=
  repeat match goal with IH : forall v : RouteOptimizer.vars, _ |- _ => clear IH end;
  nia.

(** [a <= b] on closed binary naturals, by evaluation. *)
Ltac le_compute := apply N.leb_le; vm_compute; reflexivity.

(** * Properties *)

(** ** Checked arithmetic *)

Module U256Facts.
Lemma add_ok a b : a + b <= MAX_UINT256 -> U256.add a b = Ok (a + b).
Proof.
  intros Hle. unfold U256.add.
  destruct (N.leb_spec (a + b) MAX_UINT256); [reflexivity | lia].
Qed.

Lemma sub_ok a b : b <= a -> U256.sub a b = Ok (a - b).
Proof.
  intros Hle. unfold U256.sub.
  destruct (N.leb_spec b a); [reflexivity | lia].
Qed.

Lemma mul_ok a b : a * b <= MAX_UINT256 -> U256.mul a b = Ok (a * b).
Proof.
  intros Hle. unfold U256.mul.
  destruct (N.leb_spec (a * b) MAX_UINT256); [reflexivity | lia].
Qed.

Lemma div_ok a b : 0 < b -> U256.div a b = Ok (a / b).
Proof.
  intros Hpos. unfold U256.div.
  destruct (N.eqb_spec b 0); [lia | reflexivity].
Qed.

Lemma add_inv a b c : U256.add a b = Ok c -> c = a + b.
Proof. unfold U256.add. destruct (_ <=? _); congruence. Qed.

Lemma sub_inv a b c : U256.sub a b = Ok c -> c = a - b /\ b <= a.
Proof.
  unfold U256.sub. destruct (N.leb_spec b a); [|congruence].
  intros [= <-]. auto.
Qed.

Lemma mul_inv a b c : U256.mul a b = Ok c -> c = a * b.
Proof. unfold U256.mul. destruct (_ <=? _); congruence. Qed.

Lemma div_inv a b c : U256.div a b = Ok c -> c = a / b /\ b <> 0.
Proof.
  unfold U256.div. destruct (N.eqb_spec b 0); [congruence|].
  intros [= <-]. auto.
Qed.

Lemma max_uint256_pos : 1000000 <= MAX_UINT256.
Proof. unfold MAX_UINT256. apply N.leb_le. vm_compute. reflexivity. Qed.
End U256Facts.

Lemma sumN_app l1 l2 : sumN (l1 ++ l2) = sumN l1 + sumN l2.
Proof. induction l1 as [|x l1 IH]; simpl; [reflexivity | rewrite IH; lia]. Qed.

(** ** RouteOptimizer *)

Module RouteOptimizerFacts.
Import RouteOptimizer Alloc.

Lemma capacity_run p amountIn :
  liquidity p * 3000 <= MAX_UINT256 ->
  _calculatePoolCapacity p amountIn = Ok (capacity p).
Proof.
  intros Hle. unfold _calculatePoolCapacity, capacity.
  rewrite (U256Facts.mul_ok _ _ Hle). cbn [rbind].
  apply U256Facts.div_ok. lia.
Qed.

Lemma fee_le a f : f <= 1000000 -> a * f / 1000000 <= a.
Proof. intros Hf. apply N.Div0.div_le_upper_bound. nia. Qed.

Lemma expectedOutput_run p tokenIn tokenOut a :
  a * fee p <= MAX_UINT256 ->
  fee p <= 1000000 ->
  a * 997 <= MAX_UINT256 ->
  _calculateExpectedOutput p tokenIn tokenOut a
    = Ok (expectedOutput_ppm a (fee p)).
Proof.
  intros Hmul Hfee Hscale.
  unfold _calculateExpectedOutput, expectedOutput_ppm.
  rewrite (U256Facts.mul_ok _ _ Hmul). cbn [rbind].
  rewrite U256Facts.div_ok by lia. cbn [rbind].
  pose proof (fee_le a (fee p) Hfee) as Hle.
  rewrite (U256Facts.sub_ok _ _ Hle). cbn [rbind].
  remember (a * fee p / 1000000) as x eqn:Hx. clear Hx.
  rewrite U256Facts.mul_ok by lia. cbn [rbind].
  apply U256Facts.div_ok. lia.
Qed.

Lemma expectedOutput_le a f : expectedOutput_ppm a f <= a.
Proof.
  unfold expectedOutput_ppm. apply N.Div0.div_le_upper_bound.
  generalize (a * f / 1000000). intros x. lia.
Qed.

Lemma inv_init amountIn : inv amountIn (optimizeRoute_init amountIn).
Proof.
  split; simpl;
    [reflexivity | unfold MAX_ROUTES; lia | reflexivity | constructor | lia | lia].
Qed.

Lemma eligible_pos tokenIn tokenOut pools :
  Forall (fun c => 0 < c) (eligible tokenIn tokenOut pools).
Proof.
  induction pools as [|p rest IH]; simpl; [constructor|].
  destruct (_isValidPool p tokenIn tokenOut); simpl; [|exact IH].
  destruct (N.ltb_spec 0 (capacity p)); [constructor; assumption | exact IH].
Qed.

Lemma loop_spec tokenIn tokenOut amountIn pools :
  0 < amountIn ->
  amountIn * 10000 <= MAX_UINT256 ->
  Forall (pool_in_range tokenIn tokenOut amountIn) pools ->
  forall v, inv amountIn v ->
  exists v',
    optimizeRoute_loop tokenIn tokenOut amountIn pools v = Ok v' /\
    inv amountIn v' /\
    sumN (legs v') =
      sumN (legs v) +
      N.min (remainingAmount v)
            (sumN (take (N.to_nat MAX_ROUTES - length (legs v))
                        (eligible tokenIn tokenOut pools))).
Proof.
  intros Hpos Hamt Hpools.
  assert (HM : MAX_ROUTES = 3) by reflexivity.
  induction Hpools as [|p rest Hp Hrest IH]; intros v Hv.
  - exists v. cbn [optimizeRoute_loop eligible]. rewrite take_nil. cbn [sumN].
    split; [reflexivity|]. split; [assumption|]. arith.
  - simpl optimizeRoute_loop. destruct Hv as [Hcnt Hbnd Hcells Hpct Hsum Hout].
    destruct (N.ltb_spec (routeCount v) MAX_ROUTES) as [Hlt|Hge]; simpl andb.
    2:{ exists v. split; [reflexivity|]. split; [by constructor|].
        replace (N.to_nat MAX_ROUTES - length (legs v))%nat with 0%nat by arith.
        rewrite take_0. cbn [sumN]. arith. }
    destruct (N.ltb_spec 0 (remainingAmount v)) as [Hrem|Hrem].
    2:{ exists v. split; [reflexivity|]. split; [by constructor|]. arith. }
    destruct (_isValidPool p tokenIn tokenOut) eqn:Hvalid; simpl negb; cbv iota.
    2:{ simpl eligible. rewrite Hvalid. simpl andb. cbv iota. apply IH.
        by constructor. }
    destruct (Hp Hvalid) as (Hliq & Hfee & Hfee1).
    rewrite (capacity_run p amountIn Hliq). cbn [rbind].
    simpl eligible. rewrite Hvalid. simpl andb.
    set (routeAmount :=
           if capacity p <? remainingAmount v then capacity p
           else remainingAmount v).
    assert (HrA : routeAmount = N.min (capacity p) (remainingAmount v)).
    { unfold routeAmount.
      destruct (N.ltb_spec (capacity p) (remainingAmount v)); arith. }
    destruct (N.eqb_spec routeAmount 0) as [Hz|Hnz].
    { assert (capacity p = 0) as Hc0 by arith. rewrite Hc0.
      change (0 <? 0) with false. cbv iota. apply IH. by constructor. }
    assert (0 < capacity p) as Hcpos by arith.
    destruct (N.ltb_spec 0 (capacity p)) as [_|?]; [|arith].
    assert (routeAmount <= remainingAmount v) as Hle by arith.
    assert (routeAmount <= amountIn) as Hle' by arith.
    rewrite U256Facts.mul_ok by (unfold PERCENTAGE_BASE; narith). cbn [rbind].
    rewrite U256Facts.div_ok by arith. cbn [rbind].
    rewrite expectedOutput_run by (try assumption; narith). cbn [rbind].
    pose proof (expectedOutput_le routeAmount (fee p)) as Hout'.
    rewrite U256Facts.add_ok by narith. cbn [rbind].
    rewrite U256Facts.sub_ok by arith. cbn [rbind].
    pose proof U256Facts.max_uint256_pos as Hmax.
    rewrite U256Facts.add_ok by (unfold MAX_ROUTES in *; arith). cbn [rbind].
    match goal with |- context [optimizeRoute_loop _ _ _ rest ?w] =>
      set (v1 := w) end.
    assert (Hlen : (length (legs v) < N.to_nat MAX_ROUTES)%nat) by arith.
    assert (Hv1 : inv amountIn v1).
    { split; unfold v1; simpl.
      - rewrite length_app. simpl. arith.
      - arith.
      - rewrite length_insert. assumption.
      - rewrite length_app. simpl.
        replace (length (legs v) + 1)%nat with (S (length (legs v))) by arith.
        rewrite Hcnt, Nat2N.id.
        rewrite (take_S_r _ _
                   (Route.mk (pool p) tokenIn tokenOut
                      (routeAmount * PERCENTAGE_BASE / amountIn))).
        2:{ apply list_lookup_insert_eq. arith. }
        rewrite take_insert_ge by arith.
        apply Forall2_app; [assumption|]. constructor; [reflexivity|constructor].
      - rewrite sumN_app. simpl. arith.
      - rewrite sumN_app. simpl. arith. }
    destruct (IH v1 Hv1) as (v' & Hrun & Hinv' & Hsum').
    exists v'. split; [exact Hrun|]. split; [exact Hinv'|].
    rewrite Hsum'. unfold v1; cbn [legs remainingAmount].
    rewrite sumN_app, length_app. cbn [sumN length].
    replace (N.to_nat MAX_ROUTES - length (legs v))%nat
      with (S (N.to_nat MAX_ROUTES - (length (legs v) + 1)))%nat by arith.
    rewrite firstn_cons. cbn [sumN]. arith.
Qed.

Lemma percentages_of_legs amountIn (rs : list Route.t) (ls : list uint256) :
  Forall2 (fun r a => Route.percentage r = a * PERCENTAGE_BASE / amountIn) rs ls ->
  map Route.percentage rs = map (fun a => a * PERCENTAGE_BASE / amountIn) ls.
Proof.
  induction 1 as [|r a rs ls Hra _ IH]; simpl; [reflexivity|].
  rewrite Hra, IH. reflexivity.
Qed.

(** Truncation loses less than one unit per entry. *)
Lemma floor_sum_bounds A B (ls : list uint256) :
  0 < A ->
  sumN (map (fun a => a * B / A) ls) * A <= B * sumN ls /\
  B * sumN ls <=
    sumN (map (fun a => a * B / A) ls) * A + N.of_nat (length ls) * (A - 1).
Proof.
  intros HA. induction ls as [|a ls [IHlo IHhi]].
  - simpl. lia.
  - cbn [map sumN length].
    pose proof (N.Div0.mul_div_le (a * B) A) as Hlo.
    pose proof (N.mul_succ_div_gt (a * B) A ltac:(lia)) as Hhi.
    remember (a * B / A) as q eqn:Hq. clear Hq.
    remember (sumN (map (fun a => a * B / A) ls)) as P eqn:HP. clear HP.
    split; nia.
Qed.
End RouteOptimizerFacts.

(** C8 (as amended). For a venue with liquidity [L] and fee [f], the capacity
    cap is [floor (L * 3000 / 10000)], 30% of the liquidity, and the expected
    output of a leg of input [a] is
    [floor ((a - floor (a * f / 1000000)) * 997 / 1000)]: the fee is a
    fraction of the input in parts per million (hundredths of a basis point),
    deducted first, and the rest is scaled by 997/1000, every division
    truncating. Both hold whenever no product leaves [uint256] and the fee is
    at most 1000000. *)
Theorem capacity_and_expected_output_ppm
    (p : RouteOptimizer.PoolInfo) (tokenIn tokenOut : address)
    (amountIn a : uint256) :
  RouteOptimizer.liquidity p * 3000 <= MAX_UINT256 ->
  a * RouteOptimizer.fee p <= MAX_UINT256 ->
  RouteOptimizer.fee p <= 1000000 ->
  a * 997 <= MAX_UINT256 ->
  RouteOptimizer._calculatePoolCapacity p amountIn
    = Ok (RouteOptimizer.liquidity p * 3000 / 10000) /\
  RouteOptimizer._calculateExpectedOutput p tokenIn tokenOut a
    = Ok ((a - a * RouteOptimizer.fee p / 1000000) * 997 / 1000).
Proof.
  intros Hliq Hmul Hfee Hscale. split.
  - apply RouteOptimizerFacts.capacity_run. exact Hliq.
  - apply RouteOptimizerFacts.expectedOutput_run; assumption.
Qed.

Lemma capacity_and_expected_output_ppm_witness :
  RouteOptimizer._calculatePoolCapacity
    (RouteOptimizer.mkPool 1 2 3 200 3000) 100 = Ok (200 * 3000 / 10000) /\
  RouteOptimizer._calculateExpectedOutput
    (RouteOptimizer.mkPool 1 2 3 200 3000) 2 3 10000
    = Ok ((10000 - 10000 * 3000 / 1000000) * 997 / 1000).
Proof.
  apply (capacity_and_expected_output_ppm
           (RouteOptimizer.mkPool 1 2 3 200 3000) 2 3 100 10000);
    le_compute.
Defined.

(** C8 as stated fails: with a fee of 30 read as 30 basis points, a leg of
    10000 would lose a fee of 30 and yield 9940; the code deducts
    [10000 * 30 / 1000000 = 0] and yields 9970. *)
Lemma expected_output_not_in_bps :
  Alloc.expectedOutput_bps 10000 30 = 9940 /\
  RouteOptimizer._calculateExpectedOutput
    (RouteOptimizer.mkPool 1 2 3 100000 30) 2 3 10000 = Ok 9970 /\
  RouteOptimizer._calculateExpectedOutput
    (RouteOptimizer.mkPool 1 2 3 100000 30) 2 3 10000
    <> Ok (Alloc.expectedOutput_bps 10000 30).
Proof.
  split; [reflexivity|]. split; [reflexivity|]. vm_compute. discriminate.
Qed.

(** C4 (as amended). For every request with [amountIn > 0] whose products stay
    within [uint256], [optimizeRoute] returns an allocation: its leg amounts
    sum to the minimum of [amountIn] and the total capacity of the first
    [MAX_ROUTES] matching candidates of positive capacity; it has at most
    [MAX_ROUTES] legs, and at least one when such a candidate exists; the
    percentage of each leg is [floor (legAmount * 10000 / amountIn)]; and when
    the legs sum to [amountIn], the percentages sum to at most 10000 and to at
    least 10000 less (entries - 1). *)
Theorem optimizeRoute_allocation
    (tokenIn tokenOut : address) (amountIn : uint256)
    (pools : list RouteOptimizer.PoolInfo) :
  0 < amountIn ->
  amountIn * 10000 <= MAX_UINT256 ->
  Forall (Alloc.pool_in_range tokenIn tokenOut amountIn) pools ->
  exists routes expectedAmountOut legs,
    RouteOptimizer.optimizeRoute tokenIn tokenOut amountIn pools
      = Ok (routes, expectedAmountOut) /\
    RouteOptimizer.optimizeRoute_legs tokenIn tokenOut amountIn pools = Ok legs /\
    sumN legs =
      N.min amountIn
        (sumN (take (N.to_nat RouteOptimizer.MAX_ROUTES)
                    (Alloc.eligible tokenIn tokenOut pools))) /\
    (length routes <= N.to_nat RouteOptimizer.MAX_ROUTES)%nat /\
    (Alloc.eligible tokenIn tokenOut pools <> [] -> routes <> []) /\
    Forall2 (fun r a => Route.percentage r = a * 10000 / amountIn) routes legs /\
    (sumN legs = amountIn ->
     sumN (map Route.percentage routes) <= 10000 /\
     10000 <= sumN (map Route.percentage routes) + (N.of_nat (length routes) - 1)).
Proof.
  intros Hpos Hamt Hpools.
  destruct (RouteOptimizerFacts.loop_spec tokenIn tokenOut amountIn pools
              Hpos Hamt Hpools _ (RouteOptimizerFacts.inv_init amountIn))
    as (v & Hrun & [Hcnt Hbnd Hcells Hpct Hsum Hout] & Hlegs).
  cbn [RouteOptimizer.optimizeRoute_init RouteOptimizer.legs
       RouteOptimizer.remainingAmount sumN length] in Hlegs.
  rewrite N.add_0_l, Nat.sub_0_r in Hlegs.
  exists (take (N.to_nat (RouteOptimizer.routeCount v)) (RouteOptimizer.routes v)),
         (RouteOptimizer.expectedAmountOut v), (RouteOptimizer.legs v).
  unfold RouteOptimizer.optimizeRoute, RouteOptimizer.optimizeRoute_legs.
  rewrite Hrun. cbn [rbind].
  rewrite Hcnt, Nat2N.id in *.
  assert (Hlen : length (take (length (RouteOptimizer.legs v))
                              (RouteOptimizer.routes v))
                 = length (RouteOptimizer.legs v)).
  { eapply Forall2_length. exact Hpct. }
  split; [reflexivity|]. split; [reflexivity|]. split; [exact Hlegs|].
  split; [rewrite Hlen; lia|].
  split.
  - intros Hne Hnil.
    assert (RouteOptimizer.legs v = []) as Hl.
    { apply length_zero_iff_nil. rewrite <- Hlen, Hnil. reflexivity. }
    rewrite Hl in Hlegs. cbn [sumN] in Hlegs.
    pose proof (RouteOptimizerFacts.eligible_pos tokenIn tokenOut pools) as Hall.
    destruct (Alloc.eligible tokenIn tokenOut pools) as [|c cs]; [congruence|].
    inversion Hall as [|? ? Hc _]; subst.
    change (N.to_nat RouteOptimizer.MAX_ROUTES) with 3%nat in Hlegs.
    rewrite firstn_cons in Hlegs. cbn [sumN] in Hlegs.
    lia.
  - split; [exact Hpct|].
    intros Hfull.
    rewrite (RouteOptimizerFacts.percentages_of_legs _ _ _ Hpct), Hlen.
    destruct (RouteOptimizerFacts.floor_sum_bounds amountIn
                RouteOptimizer.PERCENTAGE_BASE (RouteOptimizer.legs v) Hpos)
      as [Hlo Hhi].
    rewrite Hfull in Hlo, Hhi.
    change RouteOptimizer.PERCENTAGE_BASE with 10000 in *.
    assert (RouteOptimizer.legs v <> []) as Hne.
    { intros Hl. rewrite Hl in Hfull. cbn [sumN] in Hfull. lia. }
    assert (0 < length (RouteOptimizer.legs v))%nat as Hk.
    { destruct (RouteOptimizer.legs v); [congruence | simpl; lia]. }
    remember (sumN (map (fun a => a * 10000 / amountIn) (RouteOptimizer.legs v)))
      as P eqn:HP. clear HP.
    remember (N.of_nat (length (RouteOptimizer.legs v))) as k eqn:Hkk.
    assert (1 <= k) by lia. clear Hkk.
    split; nia.
Qed.

Lemma optimizeRoute_allocation_witness :
  exists routes expectedAmountOut legs,
    RouteOptimizer.optimizeRoute 2 3 100
      [RouteOptimizer.mkPool 1 2 3 200 30; RouteOptimizer.mkPool 5 3 2 267 30]
      = Ok (routes, expectedAmountOut) /\
    RouteOptimizer.optimizeRoute_legs 2 3 100
      [RouteOptimizer.mkPool 1 2 3 200 30; RouteOptimizer.mkPool 5 3 2 267 30]
      = Ok legs /\
    sumN legs =
      N.min 100
        (sumN (take (N.to_nat RouteOptimizer.MAX_ROUTES)
                 (Alloc.eligible 2 3
                    [RouteOptimizer.mkPool 1 2 3 200 30;
                     RouteOptimizer.mkPool 5 3 2 267 30]))) /\
    (length routes <= N.to_nat RouteOptimizer.MAX_ROUTES)%nat /\
    (Alloc.eligible 2 3
       [RouteOptimizer.mkPool 1 2 3 200 30; RouteOptimizer.mkPool 5 3 2 267 30]
       <> [] -> routes <> []) /\
    Forall2 (fun r a => Route.percentage r = a * 10000 / 100) routes legs /\
    (sumN legs = 100 ->
     sumN (map Route.percentage routes) <= 10000 /\
     10000 <= sumN (map Route.percentage routes) + (N.of_nat (length routes) - 1)).
Proof.
  apply (optimizeRoute_allocation 2 3 100
           [RouteOptimizer.mkPool 1 2 3 200 30; RouteOptimizer.mkPool 5 3 2 267 30]).
  - reflexivity.
  - le_compute.
  - repeat constructor; le_compute.
Defined.

(** C4 as stated fails on a request of 100 over four matching candidates of
    capacity 30 each: the total capacity is 120, the allocation stops at three
    legs of 30, which sum to 90 and not to [min 100 120]; their percentages
    sum to 9000, further from 10000 than the tolerance of 2. *)
Lemma optimizeRoute_underfills :
  let pools :=
    [RouteOptimizer.mkPool 1 2 3 100 3000; RouteOptimizer.mkPool 5 2 3 100 3000;
     RouteOptimizer.mkPool 6 3 2 100 3000; RouteOptimizer.mkPool 7 2 3 100 3000] in
  Alloc.eligible 2 3 pools = [30; 30; 30; 30] /\
  RouteOptimizer.optimizeRoute_legs 2 3 100 pools = Ok [30; 30; 30] /\
  sumN [30; 30; 30] <> N.min 100 (sumN (Alloc.eligible 2 3 pools)) /\
  exists routes,
    RouteOptimizer.optimizeRoute 2 3 100 pools = Ok (routes, 87) /\
    length routes = 3%nat /\
    sumN (map Route.percentage routes) = 9000 /\
    ~ (10000 <= sumN (map Route.percentage routes) + (N.of_nat (length routes) - 1)).
Proof.
  cbv zeta. split; [reflexivity|]. split; [reflexivity|].
  split; [vm_compute; discriminate|].
  eexists. split; [reflexivity|]. split; [reflexivity|]. split; [reflexivity|].
  vm_compute. intros H. apply H. reflexivity.
Qed.

(** ** Calls *)

Section MonadFacts.
Context {World : Type}.
Local Abbreviation M := (M World).

Lemma bind_ok {A B} (m : M A) (k : A -> M B) env s b s' :
  bind m k env s = Ok (b, s') <->
  exists a s1, m env s = Ok (a, s1) /\ k a env s1 = Ok (b, s').
Proof.
  unfold bind. split.
  - destruct (m env s) as [[a s1]|e]; [|discriminate]. eauto.
  - intros (a & s1 & -> & Hk). exact Hk.
Qed.

Lemma require_ok cond msg env (s : State World) u s' :
  require cond msg env s = Ok (u, s') <-> cond = true /\ s' = s.
Proof.
  unfold require. destruct cond; split.
  - intros [= _ <-]. auto.
  - intros [_ ->]. destruct u. reflexivity.
  - discriminate.
  - intros [? _]. discriminate.
Qed.

Lemma lift_ok {A} (r : result A) env (s : State World) a s' :
  lift r env s = Ok (a, s') <-> r = Ok a /\ s' = s.
Proof.
  unfold lift. destruct r; split.
  - intros [= <- <-]. auto.
  - intros [[= ->] ->]. reflexivity.
  - discriminate.
  - intros [? _]. discriminate.
Qed.

Lemma exec_ok {A} (m : M A) env s a s' :
  m env s = Ok (a, s') -> exec m env s = (Ok a, s').
Proof. unfold exec. intros ->. reflexivity. Qed.

Lemma exec_err {A} (m : M A) env s e :
  m env s = Err e -> exec m env s = (Err e, s).
Proof. unfold exec. intros ->. reflexivity. Qed.

Lemma exec_ok_inv {A} (m : M A) env s a s' :
  exec m env s = (Ok a, s') -> m env s = Ok (a, s').
Proof.
  unfold exec. destruct (m env s) as [[a0 s0]|e]; [|discriminate].
  intros [= <- <-]. reflexivity.
Qed.

(** A call that aborts has no effect. *)
Lemma exec_failure_keeps_state {A} (m : M A) env s e s' :
  exec m env s = (Err e, s') -> s' = s.
Proof.
  unfold exec. destruct (m env s) as [[a0 s0]|e0]; [discriminate|].
  intros [= _ <-]. reflexivity.
Qed.
End MonadFacts.

Section CommitFacts.
Context {World : Type} `{!Collaborators World}.

Lemma commitOrder_accepts c d env (s : State World) :
  commit_accepts c d env s ->
  commitOrder c d env s = Ok (tt, committed c d env s).
Proof.
  intros (Hnz & Hfresh & Hmax & Hsoon & Hfar).
  unfold commitOrder, validCommitment, bind, require, get, ask, lift, modify, emit,
    COMMIT_REVEAL_DELAY in *.
  destruct (N.eqb_spec c 0) as [?|_]; [contradiction|]. cbn [negb].
  rewrite bool_decide_eq_false_2 by exact Hfresh. cbn [negb].
  rewrite U256Facts.add_ok by lia.
  destruct (N.ltb_spec (block_timestamp env + 60) d); [|lia].
  rewrite U256Facts.add_ok by lia.
  destruct (N.leb_spec d (block_timestamp env + 3600)); [|lia].
  reflexivity.
Qed.

Lemma commitOrder_ok_inv c d env (s : State World) u s' :
  commitOrder c d env s = Ok (u, s') ->
  commit_accepts c d env s /\ s' = committed c d env s.
Proof.
  unfold commitOrder, validCommitment, bind, require, get, ask, lift, modify, emit,
    COMMIT_REVEAL_DELAY, commit_accepts.
  destruct (N.eqb_spec c 0) as [|Hnz]; cbn [negb]; [discriminate|].
  destruct (bool_decide_reflect (c ∈ usedCommitments s)) as [|Hfresh];
    cbn [negb]; [discriminate|].
  unfold U256.add.
  destruct (N.leb_spec (block_timestamp env + 60) MAX_UINT256); [|discriminate].
  destruct (N.ltb_spec (block_timestamp env + 60) d); [|discriminate].
  destruct (N.leb_spec (block_timestamp env + 3600) MAX_UINT256); [|discriminate].
  destruct (N.leb_spec d (block_timestamp env + 3600)); [|discriminate].
  intros [= <-]. unfold COMMIT_REVEAL_DELAY. auto 10.
Qed.

Lemma commitOrder_zero d env (s : State World) :
  commitOrder 0 d env s = Err (Revert "RouterDefense: invalid commitment").
Proof. reflexivity. Qed.

Lemma commitOrder_used c d env (s : State World) :
  c <> 0 -> c ∈ usedCommitments s ->
  commitOrder c d env s = Err (Revert "RouterDefense: commitment used").
Proof.
  intros Hnz Hused. unfold commitOrder, validCommitment, bind, require, get.
  destruct (N.eqb_spec c 0) as [?|_]; [contradiction|]. cbn [negb].
  rewrite bool_decide_eq_true_2 by exact Hused. reflexivity.
Qed.
End CommitFacts.

(** Inversion of a successful run, one monadic step at a time. *)
Ltac minv :=
  repeat match goal with
  | H : bind _ _ _ _ = Ok _ |- _ =>
      apply bind_ok in H; destruct H as (? & ? & ? & H)
  | H : require _ _ _ _ = Ok _ |- _ =>
      apply require_ok in H; destruct H as [? ->]
  | H : lift _ _ _ = Ok _ |- _ =>
      apply lift_ok in H; destruct H as [? ->]
  | H : ret _ _ _ = Ok _ |- _ => injection H as <- <-
  | H : get _ _ = Ok _ |- _ => injection H as <- <-
  | H : ask _ _ = Ok _ |- _ => injection H as <- <-
  | H : modify _ _ _ = Ok _ |- _ => injection H as <- <-
  | H : emit _ _ _ = Ok _ |- _ => injection H as <- <-
  end.

(** ** Nested calls *)

Section ReentryFacts.
Context {World : Type} `{!Collaborators World}.

Lemma registry_grows_trans (t1 t2 t3 : gmap (address * address) (list address)) :
  registry_grows t1 t2 -> registry_grows t2 t3 -> registry_grows t1 t3.
Proof. intros H12 H23. induction H23; [exact H12 | by constructor]. Qed.

Lemma reentered_refl (s : State World) : reentered s s.
Proof. constructor; auto using grows_none. Qed.

Lemma reentered_trans (s1 s2 s3 : State World) :
  reentered s1 s2 -> reentered s2 s3 -> reentered s1 s3.
Proof.
  intros [Hr1 Hq1 Hu1 Hz1 Hs1 Hp1] [Hr2 Hq2 Hu2 Hz2 Hs2 Hp2].
  constructor; [congruence | congruence | | auto | | ].
  - etransitivity; eassumption.
  - intros u. destruct (Hs2 u) as [->|(c & d & Hnz & Hfresh & Hin & ->)].
    + destruct (Hs1 u) as [->|(c & d & Hnz & Hfresh & Hin & ->)]; [by left|].
      right. exists c, d. repeat split; auto.
    + right. exists c, d. repeat split; auto.
  - eapply registry_grows_trans; eassumption.
Qed.

(** [reentered] looks at the storage only. *)
Lemma reentered_storage (s1 s2 t1 t2 : State World) :
  reentered s1 s2 ->
  swapRouter t1 = swapRouter s1 -> revealedOrders t1 = revealedOrders s1 ->
  usedCommitments t1 = usedCommitments s1 -> commitments t1 = commitments s1 ->
  tokenPairPools t1 = tokenPairPools s1 ->
  swapRouter t2 = swapRouter s2 -> revealedOrders t2 = revealedOrders s2 ->
  usedCommitments t2 = usedCommitments s2 -> commitments t2 = commitments s2 ->
  tokenPairPools t2 = tokenPairPools s2 ->
  reentered t1 t2.
Proof.
  intros [Hr Hq Hu Hz Hs Hp] E1 E2 E3 E4 E5 F1 F2 F3 F4 F5.
  constructor; rewrite ?E1, ?E2, ?E3, ?E4, ?E5, ?F1, ?F2, ?F3, ?F4, ?F5; assumption.
Qed.

Lemma called_back_refl (s : State World) : called_back s s.
Proof.
  split; [apply reentered_refl|]. split; [reflexivity|].
  exists []. rewrite app_nil_r. reflexivity.
Qed.

Lemma called_back_trans (s1 s2 s3 : State World) :
  called_back s1 s2 -> called_back s2 s3 -> called_back s1 s3.
Proof.
  intros (H1 & Hl1 & es1 & He1) (H2 & Hl2 & es2 & He2).
  split; [eapply reentered_trans; eassumption|]. split; [congruence|].
  exists (es1 ++ es2). rewrite He2, He1, <- app_assoc. reflexivity.
Qed.

Lemma addPool_ok_inv tokenA tokenB pool env (s : State World) u s' :
  addPool tokenA tokenB pool env s = Ok (u, s') ->
  owner s = msg_sender env /\
  s' = set_tokenPairPools (register_pool tokenA tokenB pool) s.
Proof.
  unfold addPool, onlyOwner. intros H. minv.
  split; [apply N.eqb_eq; assumption | reflexivity].
Qed.

(** One nested call. *)
Lemma reenter_called_back cb env (s : State World) :
  called_back s (reenter cb env s) /\ calls (reenter cb env s) = calls s.
Proof.
  destruct cb as [sender c d|sender a b p]; cbn [reenter]; unfold exec.
  - destruct (commitOrder c d _ s) as [[[] s']|e] eqn:H; cbn [snd];
      [|split; [apply called_back_refl | reflexivity]].
    apply commitOrder_ok_inv in H as ((Hnz & Hfresh & _) & ->).
    split; [|reflexivity]. split; [|split; [reflexivity|]].
    + constructor; cbn; [reflexivity | reflexivity | | | | apply grows_none].
      * apply union_subseteq_r.
      * intros H0. rewrite elem_of_union, elem_of_singleton.
        intros [?|?]; [congruence | contradiction].
      * intros u. destruct (decide (sender = u)) as [<-|Hne].
        -- right. exists c, d. rewrite lookup_total_insert_eq.
           repeat split; [exact Hnz | exact Hfresh |].
           apply elem_of_union_l, elem_of_singleton. reflexivity.
        -- left. apply lookup_total_insert_ne, Hne.
    + eexists. reflexivity.
  - destruct (addPool a b p _ s) as [[[] s']|e] eqn:H; cbn [snd];
      [|split; [apply called_back_refl | reflexivity]].
    apply addPool_ok_inv in H as (_ & ->).
    split; [|reflexivity]. split; [|split; [reflexivity|]].
    + constructor; cbn; auto. do 2 constructor.
    + exists []. rewrite app_nil_r. reflexivity.
Qed.

(** The run of a callee. *)
Lemma play_called_back {A} (p : Script World A) : forall env (s : State World) a s',
  play p env s = Some (a, s') ->
  called_back s s' /\ calls s' = calls s.
Proof.
  induction p as [[[a0 w]|]|cb k IH]; intros env s a s' H; cbn [play] in H.
  - injection H as <- <-. split; [|reflexivity].
    split; [|split; [reflexivity|]].
    + constructor; cbn; auto using grows_none.
    + exists []. rewrite app_nil_r. reflexivity.
  - discriminate.
  - apply IH in H as [H Hc]. destruct (reenter_called_back cb env s) as [H1 Hc1].
    split; [eapply called_back_trans; eassumption | congruence].
Qed.

Lemma call_called_back {A} (c : ExtCall) (p : State World -> Script World A)
    env (s : State World) a s' :
  call c p env s = Ok (a, s') ->
  called_back s s' /\ calls s' = calls s ++ [c].
Proof.
  unfold call. destruct (play _ _ _) as [[a1 s1]|] eqn:H; [|discriminate].
  intros [= <- <-]. apply play_called_back in H as [(Hre & Hl & es & He) Hc].
  split; [|exact Hc]. split; [|split; [exact Hl | eauto]].
  apply (reentered_storage _ _ _ _ Hre); reflexivity.
Qed.

Lemma call_err {A} (c : ExtCall) (p : State World -> Script World A)
    env (s : State World) e :
  call c p env s = Err e -> e = CallFailed.
Proof. unfold call. destruct (play _ _ _) as [[? ?]|]; congruence. Qed.
End ReentryFacts.

Section StorageFacts.
Context {World : Type} `{!Collaborators World}.

Lemma call_safeTransferFrom_inv token from to amount env (s : State World) u s' :
  call_safeTransferFrom token from to amount env s = Ok (u, s') ->
  called_back s s' /\ calls s' = calls s ++ [XTransferFrom token from to amount].
Proof.
  unfold call_safeTransferFrom. intros H. minv. eapply call_called_back, H.
Qed.

Lemma call_safeApprove_inv token spender amount env (s : State World) u s' :
  call_safeApprove token spender amount env s = Ok (u, s') ->
  called_back s s' /\ calls s' = calls s ++ [XApprove token spender amount].
Proof.
  unfold call_safeApprove. intros H. minv. eapply call_called_back, H.
Qed.

Lemma call_exactInputSingle_inv p value env (s : State World) out s' :
  call_exactInputSingle p value env s = Ok (out, s') ->
  called_back s s' /\ calls s' = calls s ++ [XExactInputSingle p value].
Proof.
  unfold call_exactInputSingle. intros H. minv. eapply call_called_back, H.
Qed.

Lemma pullFunds_storage params env (s : State World) u s' :
  pullFunds params env s = Ok (u, s') -> called_back s s'.
Proof.
  unfold pullFunds. intros H. minv.
  destruct (negb _).
  - eapply call_safeTransferFrom_inv; eassumption.
  - minv. apply called_back_refl.
Qed.

Lemma getOptimalRoute_view tokenIn tokenOut amountIn env (s : State World) r s' :
  getOptimalRoute tokenIn tokenOut amountIn env s = Ok (r, s') -> s' = s.
Proof.
  unfold getOptimalRoute, _getAvailablePools. intros H. minv. reflexivity.
Qed.

Lemma _executeSingleRoute_storage route amountIn recipient deadline env
    (s : State World) out s' :
  _executeSingleRoute route amountIn recipient deadline env s = Ok (out, s') ->
  called_back s s'.
Proof.
  unfold _executeSingleRoute. intros H. minv.
  eapply called_back_trans.
  - destruct (negb _).
    + eapply call_safeApprove_inv; eassumption.
    + minv. apply called_back_refl.
  - destruct (_ =? _); eapply call_exactInputSingle_inv; eassumption.
Qed.

Lemma _executeMultiPathSwap_loop_storage params routes :
  forall remaining total env (s : State World) out s',
  _executeMultiPathSwap_loop params routes remaining total env s = Ok (out, s') ->
  called_back s s'.
Proof.
  induction routes as [|route rest IH]; intros remaining total env s out s' H.
  - simpl in H. minv. apply called_back_refl.
  - cbn [_executeMultiPathSwap_loop] in H.
    destruct (remaining =? 0); [minv; apply called_back_refl|].
    minv. destruct (0 <? _).
    + minv. eapply called_back_trans.
      * eapply _executeSingleRoute_storage; eassumption.
      * eapply IH; eassumption.
    + eapply IH; eassumption.
Qed.

Lemma _executeMultiPathSwap_storage params routes env (s : State World) out s' :
  _executeMultiPathSwap params routes env s = Ok (out, s') ->
  called_back s s'.
Proof.
  unfold _executeMultiPathSwap. intros H. minv.
  eapply _executeMultiPathSwap_loop_storage; eassumption.
Qed.
End StorageFacts.

Section EntryPoints.
Context {World : Type} `{!Collaborators World}.

Lemma nonReentrant_ok_inv {A} (body : M World A) env (s : State World) a s' :
  nonReentrant body env s = Ok (a, s') ->
  locked s = false /\
  exists s1, body env (set_locked true s) = Ok (a, s1) /\ s' = set_locked false s1.
Proof.
  unfold nonReentrant. intros H. minv.
  split; [by destruct (locked s)|]. eauto.
Qed.

Lemma nonReentrant_locked {A} (body : M World A) env (s : State World) :
  locked s = true ->
  nonReentrant body env s = Err (Revert "ReentrancyGuard: reentrant call").
Proof. unfold nonReentrant, bind, get, require. intros ->. reflexivity. Qed.

(** A nested call of a guarded function, made while the lock is held, is
    rejected and leaves nothing: the calls that [Callback] leaves out. *)
Lemma guarded_reentry_rejected env (s : State World) :
  locked s = true ->
  (forall params,
     exec (protectedSwap params) env s
       = (Err (Revert "ReentrancyGuard: reentrant call"), s)) /\
  (forall params nonce salt,
     exec (revealAndExecute params nonce salt) env s
       = (Err (Revert "ReentrancyGuard: reentrant call"), s)) /\
  exec batchExecuteRevealed env s
    = (Err (Revert "ReentrancyGuard: reentrant call"), s).
Proof.
  intros Hl. repeat split; intros; apply exec_err, nonReentrant_locked, Hl.
Qed.

(** The points of a [protectedSwap] that returns: the pull, the quote, the
    legs. *)
Lemma protectedSwap_steps params env (s : State World) out s' :
  protectedSwap params env s = Ok (out, s') ->
  locked s = false /\
  block_timestamp env <= SwapParams.deadline params /\
  0 < SwapParams.amountIn params /\
  SwapParams.amountOutMin params <= out /\
  exists s1 s2 routes expected,
    pullFunds params env (set_locked true s) = Ok (tt, s1) /\
    getOptimalRoute (SwapParams.tokenIn params) (SwapParams.tokenOut params)
      (SwapParams.amountIn params) env s1 = Ok ((routes, expected), s1) /\
    SwapParams.amountOutMin params <= expected /\
    _executeMultiPathSwap params routes env s1 = Ok (out, s2) /\
    s' = mkState (swapRouter s2) (commitments s2) (usedCommitments s2)
           (revealedOrders s2) (tokenPairPools s2) (owner s2) false
           (events s2 ++ [SwapExecuted (msg_sender env) (SwapParams.tokenIn params)
                            (SwapParams.tokenOut params) (SwapParams.amountIn params)
                            out routes])
           (calls s2) (world s2).
Proof.
  unfold protectedSwap. intros H.
  apply nonReentrant_ok_inv in H as (Hlock & s3 & H & ->).
  minv.
  match goal with x : (list Route.t * N)%type |- _ => destruct x as [routes expected] end.
  minv.
  match goal with H : getOptimalRoute _ _ _ _ _ = Ok _ |- _ =>
    pose proof (getOptimalRoute_view _ _ _ _ _ _ _ H); subst end.
  repeat match goal with
         | H : (_ <=? _) = true |- _ => apply N.leb_le in H
         | H : (_ <? _) = true |- _ => apply N.ltb_lt in H
         end.
  split; [exact Hlock|]. do 3 (split; [assumption|]).
  repeat match goal with u : unit |- _ => destruct u end.
  do 4 eexists. repeat (split; [eassumption|]). reflexivity.
Qed.

Lemma protectedSwap_ok_inv params env (s : State World) out s' :
  protectedSwap params env s = Ok (out, s') ->
  locked s = false /\ locked s' = false /\ reentered s s'.
Proof.
  intros H. apply protectedSwap_steps in H
    as (Hlock & _ & _ & _ & s1 & s2 & routes & expected & Hpull & _ & _ & Hexec & ->).
  split; [exact Hlock|]. split; [reflexivity|].
  apply pullFunds_storage in Hpull as (H1 & _).
  apply _executeMultiPathSwap_storage in Hexec as (H2 & _).
  assert (Hre : reentered (set_locked true s) s2)
    by (eapply reentered_trans; eassumption).
  apply (reentered_storage _ _ _ _ Hre); reflexivity.
Qed.

(** The points of a [revealAndExecute] that returns. *)
Lemma revealAndExecute_steps params nonce salt env (s : State World) out s' :
  revealAndExecute params nonce salt env s = Ok (out, s') ->
  let o := commitments s !!! msg_sender env in
  locked s = false /\
  CommitRevealOrder.commitment o = keccak256 (msg_sender env) params nonce salt /\
  CommitRevealOrder.revealed o = false /\
  CommitRevealOrder.executed o = false /\
  block_timestamp env <= CommitRevealOrder.deadline o /\
  exists s1 s2 routes expected,
    pullFunds params env (revealing params nonce salt env s) = Ok (tt, s1) /\
    getOptimalRoute (SwapParams.tokenIn params) (SwapParams.tokenOut params)
      (SwapParams.amountIn params) env s1 = Ok ((routes, expected), s1) /\
    _executeMultiPathSwap params routes env s1 = Ok (out, s2) /\
    s' = mkState (swapRouter s2)
           (<[ msg_sender env :=
                 CommitRevealOrder.set_executed true
                   (commitments s2 !!! msg_sender env) ]> (commitments s2))
           (usedCommitments s2) (revealedOrders s2) (tokenPairPools s2) (owner s2)
           false
           (events s2 ++ [SwapExecuted (msg_sender env) (SwapParams.tokenIn params)
                            (SwapParams.tokenOut params) (SwapParams.amountIn params)
                            out routes])
           (calls s2) (world s2).
Proof.
  unfold revealAndExecute, update_order. intros H.
  apply nonReentrant_ok_inv in H as (Hlock & s3 & H & ->).
  minv.
  match goal with x : (list Route.t * N)%type |- _ => destruct x as [routes expected] end.
  minv.
  match goal with H : getOptimalRoute _ _ _ _ _ = Ok _ |- _ =>
    pose proof (getOptimalRoute_view _ _ _ _ _ _ _ H); subst end.
  cbn [commitments set_locked] in *.
  repeat match goal with H : negb _ = true |- _ => apply negb_true_iff in H end.
  repeat match goal with
         | H : (_ =? _) = true |- _ => apply N.eqb_eq in H
         | H : (_ <=? _) = true |- _ => apply N.leb_le in H
         end.
  cbv zeta. split; [exact Hlock|]. do 4 (split; [assumption|]).
  repeat match goal with u : unit |- _ => destruct u end.
  do 4 eexists. repeat (split; [eassumption|]). reflexivity.
Qed.

(** What a successful [revealAndExecute] found and what it left. *)
Lemma revealAndExecute_ok_inv params nonce salt env (s : State World) out s' :
  revealAndExecute params nonce salt env s = Ok (out, s') ->
  let o := commitments s !!! msg_sender env in
  locked s = false /\ locked s' = false /\
  CommitRevealOrder.commitment o = keccak256 (msg_sender env) params nonce salt /\
  CommitRevealOrder.revealed o = false /\
  CommitRevealOrder.executed o = false /\
  block_timestamp env <= CommitRevealOrder.deadline o /\
  (commitments s' !!! msg_sender env
     = CommitRevealOrder.mk (CommitRevealOrder.commitment o)
         (CommitRevealOrder.deadline o) true true \/
   exists c d,
     c <> 0 /\ (c ∉ usedCommitments s) /\ c ∈ usedCommitments s' /\
     commitments s' !!! msg_sender env = CommitRevealOrder.mk c d false true) /\
  (forall u, u <> msg_sender env ->
     commitments s' !!! u = commitments s !!! u \/
     exists c d,
       c <> 0 /\ (c ∉ usedCommitments s) /\ c ∈ usedCommitments s' /\
       commitments s' !!! u = CommitRevealOrder.mk c d false false) /\
  usedCommitments s ⊆ usedCommitments s' /\
  ((0 ∉ usedCommitments s) -> 0 ∉ usedCommitments s') /\
  revealedOrders s' = revealedOrders s ++ [msg_sender env] /\
  registry_grows (tokenPairPools s) (tokenPairPools s') /\
  swapRouter s' = swapRouter s.
Proof.
  intros H. apply revealAndExecute_steps in H
    as (Hlock & Hh & Hrev & Hexe & Hdl & s1 & s2 & routes & expected
        & Hpull & _ & Hexec & ->).
  cbv zeta. split; [exact Hlock|]. split; [reflexivity|].
  do 4 (split; [assumption|]).
  apply pullFunds_storage in Hpull as (H1 & _).
  apply _executeMultiPathSwap_storage in Hexec as (H2 & _).
  destruct (reentered_trans _ _ _ H1 H2) as [Hr Hq Hu Hz Hs Hp].
  cbn [swapRouter commitments usedCommitments revealedOrders tokenPairPools
       revealing] in *.
  split; [|split; [|repeat split; assumption]].
  - rewrite lookup_total_insert_eq.
    destruct (Hs (msg_sender env)) as [->|(c & d & Hnz & Hfresh & Hin & ->)].
    + left. rewrite lookup_total_insert_eq. reflexivity.
    + right. exists c, d. auto.
  - intros u Hne. rewrite lookup_total_insert_ne by congruence.
    destruct (Hs u) as [->|(c & d & Hnz & Hfresh & Hin & ->)].
    + left. apply lookup_total_insert_ne. congruence.
    + right. exists c, d. auto.
Qed.
End EntryPoints.

(** ** Batch settlement *)

Section BatchFacts.
Context {World : Type} `{!Collaborators World}.

Lemma set_executed_not_settleable o now :
  Ledger.settleable (CommitRevealOrder.set_executed true o) now = false.
Proof.
  unfold Ledger.settleable. simpl.
  destruct (CommitRevealOrder.revealed o); reflexivity.
Qed.

(** The entries a run of the loop marks: each was settleable, each is marked
    once, and the counter counts them. *)
Lemma batch_loop_spec now queue :
  forall cm e cm' e',
  batch_loop now queue cm e = (cm', e') ->
  e <= e' /\
  (e <= MAX_BATCH_SIZE -> e' <= MAX_BATCH_SIZE) /\
  exists marked : list address,
    NoDup marked /\
    N.of_nat (length marked) = e' - e /\
    (forall u, u ∈ marked ->
       u ∈ queue /\
       Ledger.settleable (cm !!! u) now = true /\
       cm' !!! u = CommitRevealOrder.set_executed true (cm !!! u)) /\
    (forall u, u ∉ marked -> cm' !!! u = cm !!! u).
Proof.
  induction queue as [|user rest IH]; intros cm e cm' e' H.
  - injection H as <- <-. split; [lia|]. split; [auto|].
    exists []. split; [constructor|]. split; [simpl; lia|].
    split; [intros u Hu; inversion Hu | reflexivity].
  - cbn [batch_loop] in H.
    destruct (N.ltb_spec e MAX_BATCH_SIZE) as [Hlt|Hge].
    2:{ injection H as <- <-. split; [lia|]. split; [auto|].
        exists []. split; [constructor|]. split; [simpl; lia|].
        split; [intros u Hu; inversion Hu | reflexivity]. }
    change (CommitRevealOrder.revealed (cm !!! user)
            && negb (CommitRevealOrder.executed (cm !!! user))
            && (now <=? CommitRevealOrder.deadline (cm !!! user)))
      with (Ledger.settleable (cm !!! user) now) in H.
    destruct (Ledger.settleable (cm !!! user) now) eqn:Hset.
    + apply IH in H as (Hle & Hcap & marked & Hnd & Hlen & Hin & Hout).
      assert (Huser : user ∉ marked).
      { intros Hu. destruct (Hin user Hu) as (_ & Hs & _).
        rewrite lookup_total_insert_eq, set_executed_not_settleable in Hs.
        discriminate. }
      split; [lia|]. split; [unfold MAX_BATCH_SIZE in *; lia|].
      exists (user :: marked).
      split; [constructor; assumption|].
      split; [cbn [length]; lia|].
      split.
      * intros u Hu. apply elem_of_cons in Hu as [->|Hu].
        -- split; [left|]. split; [exact Hset|].
           rewrite (Hout user Huser). apply lookup_total_insert_eq.
        -- destruct (Hin u Hu) as (Hq & Hs & Hcm).
           assert (user <> u) by (intros ->; contradiction).
           rewrite lookup_total_insert_ne in Hs, Hcm by assumption.
           split; [right; exact Hq|]. split; assumption.
      * intros u Hu. apply not_elem_of_cons in Hu as [Hne Hu].
        rewrite (Hout u Hu). apply lookup_total_insert_ne. congruence.
    + apply IH in H as (Hle & Hcap & marked & Hnd & Hlen & Hin & Hout).
      split; [lia|]. split; [assumption|].
      exists marked. split; [assumption|]. split; [assumption|].
      split; [|assumption].
      intros u Hu. destruct (Hin u Hu) as (Hq & Hs & Hcm).
      split; [right; exact Hq|]. split; assumption.
Qed.

(** A run of the loop changes nothing but [executed] flags. *)
Lemma batch_loop_slot now queue cm e cm' e' u :
  batch_loop now queue cm e = (cm', e') ->
  cm' !!! u = cm !!! u \/
  (Ledger.settleable (cm !!! u) now = true /\
   cm' !!! u = CommitRevealOrder.set_executed true (cm !!! u)).
Proof.
  intros H. apply batch_loop_spec in H as (_ & _ & marked & _ & _ & Hin & Hout).
  destruct (decide (u ∈ marked)) as [Hu|Hu].
  - right. destruct (Hin u Hu) as (_ & ? & ?). auto.
  - left. auto.
Qed.

Lemma batchExecuteRevealed_ok_inv env (s : State World) u s' :
  batchExecuteRevealed env s = Ok (u, s') ->
  let r := batch_loop (block_timestamp env) (revealedOrders s) (commitments s) 0 in
  locked s = false /\ locked s' = false /\
  revealedOrders s <> [] /\
  commitments s' = fst r /\
  revealedOrders s' = (if 0 <? snd r then [] else revealedOrders s) /\
  usedCommitments s' = usedCommitments s /\
  tokenPairPools s' = tokenPairPools s /\
  owner s' = owner s /\
  swapRouter s' = swapRouter s /\
  events s' = events s ++ [BatchExecuted (snd r) (snd r * 21000)].
Proof.
  unfold batchExecuteRevealed, _clearRevealedOrders. intros H.
  apply nonReentrant_ok_inv in H as (Hlock & s1 & H & ->).
  minv. cbn [revealedOrders commitments set_locked] in *.
  destruct (batch_loop _ _ _ _) as [cm n] eqn:Hloop.
  minv. cbn [fst snd].
  assert (revealedOrders s <> []) as Hne.
  { intros Hnil. rewrite Hnil in *. discriminate. }
  destruct (0 <? n); minv; simpl; repeat split; assumption.
Qed.

Lemma batchExecuteRevealed_runs env (s : State World) :
  locked s = false -> revealedOrders s <> [] ->
  exists s', batchExecuteRevealed env s = Ok (tt, s').
Proof.
  intros Hlock Hne.
  unfold batchExecuteRevealed, nonReentrant, _clearRevealedOrders, bind, get, ask,
    require, modify, emit, ret.
  rewrite Hlock. cbn [negb set_locked revealedOrders commitments].
  destruct (revealedOrders s) as [|a q] eqn:Hq; [contradiction|].
  cbn [length Nat.eqb negb].
  destruct (batch_loop _ _ _ _) as [cm n].
  destruct (0 <? n); eauto.
Qed.
End BatchFacts.

(** ** Histories *)

Section HistoryFacts.
Context {World : Type} `{!Collaborators World}.

(** One call moves every slot by one step of the slot machine. *)
Lemma transact_slot_step tx env (s : State World) u :
  Ledger.slot_step (block_timestamp env) (usedCommitments s)
    (commitments s !!! u) (commitments (transact tx env s) !!! u).
Proof.
  destruct tx as [params|c d|params nonce salt| |a b p|w]; cbn [transact].
  - unfold exec. destruct (protectedSwap params env s) as [[out s']|e] eqn:H;
      cbn [snd]; [|constructor].
    apply protectedSwap_ok_inv in H as (_ & _ & [_ _ _ _ Hs _]).
    destruct (Hs u) as [->|(c & d & Hnz & Hfresh & _ & ->)]; by constructor.
  - unfold exec. destruct (commitOrder c d env s) as [[[] s']|e] eqn:H;
      cbn [snd]; [|constructor].
    apply commitOrder_ok_inv in H as ((Hnz & Hfresh & _) & ->).
    cbn [committed commitments].
    destruct (decide (msg_sender env = u)) as [<-|Hne].
    + rewrite lookup_total_insert_eq. by constructor.
    + rewrite lookup_total_insert_ne by exact Hne. constructor.
  - unfold exec.
    destruct (revealAndExecute params nonce salt env s) as [[out s']|e] eqn:H;
      cbn [snd]; [|constructor].
    apply revealAndExecute_ok_inv in H
      as (_ & _ & _ & Hrev & Hexe & Hdl & Hown & Hothers & _).
    destruct (decide (u = msg_sender env)) as [->|Hne].
    + destruct Hown as [->|(c & d & Hnz & Hfresh & _ & ->)]; by constructor.
    + destruct (Hothers u Hne) as [->|(c & d & Hnz & Hfresh & _ & ->)];
        by constructor.
  - unfold exec. destruct (batchExecuteRevealed env s) as [[[] s']|e] eqn:H;
      cbn [snd]; [|constructor].
    apply batchExecuteRevealed_ok_inv in H as (_ & _ & _ & -> & _).
    destruct (batch_loop _ _ _ _) as [cm n] eqn:Hloop. cbn [fst].
    destruct (batch_loop_slot _ _ _ _ _ _ u Hloop) as [->|[Hs ->]];
      by constructor.
  - unfold exec. destruct (addPool a b p env s) as [[[] s']|e] eqn:H;
      cbn [snd]; [|constructor].
    apply addPool_ok_inv in H as (_ & ->). constructor.
  - constructor.
Qed.

(** A call retires nonzero hashes only, and revives none. *)
Lemma transact_used tx env (s : State World) :
  usedCommitments s ⊆ usedCommitments (transact tx env s) /\
  ((0 ∉ usedCommitments s) -> 0 ∉ usedCommitments (transact tx env s)).
Proof.
  destruct tx as [params|c d|params nonce salt| |a b p|w]; cbn [transact].
  - unfold exec. destruct (protectedSwap params env s) as [[out s']|e] eqn:H;
      cbn [snd]; [|auto].
    apply protectedSwap_ok_inv in H as (_ & _ & [_ _ Hu Hz _ _]). auto.
  - unfold exec. destruct (commitOrder c d env s) as [[[] s']|e] eqn:H;
      cbn [snd]; [|auto].
    apply commitOrder_ok_inv in H as ((Hnz & _) & ->). cbn. split.
    + apply union_subseteq_r.
    + intros H0. rewrite elem_of_union, elem_of_singleton.
      intros [?|?]; [congruence | contradiction].
  - unfold exec.
    destruct (revealAndExecute params nonce salt env s) as [[out s']|e] eqn:H;
      cbn [snd]; [|auto].
    apply revealAndExecute_ok_inv in H as (_&_&_&_&_&_&_&_& Hu & Hz & _). auto.
  - unfold exec. destruct (batchExecuteRevealed env s) as [[[] s']|e] eqn:H;
      cbn [snd]; [|auto].
    apply batchExecuteRevealed_ok_inv in H as (_&_&_&_&_& -> &_). auto.
  - unfold exec. destruct (addPool a b p env s) as [[[] s']|e] eqn:H;
      cbn [snd]; [|auto].
    apply addPool_ok_inv in H as (_ & ->). auto.
  - auto.
Qed.

Lemma transact_used_mono tx env (s : State World) h :
  h ∈ usedCommitments s -> h ∈ usedCommitments (transact tx env s).
Proof. intros Hh. by apply (proj1 (transact_used tx env s)). Qed.



End HistoryFacts.

(** ** The commit-reveal ledger *)

Section LedgerFacts.
Context {World : Type} `{!Collaborators World}.

Lemma slot_step_zero now used o o' :
  Ledger.slot_step now used o o' ->
  (CommitRevealOrder.commitment o = 0 -> CommitRevealOrder.deadline o = 0) ->
  CommitRevealOrder.commitment o' = 0 -> CommitRevealOrder.deadline o' = 0.
Proof.
  intros Hstep Ho. destruct Hstep; cbn; auto; intros; contradiction.
Qed.

Lemma run_zero_hash history : forall (s : State World),
  (0 ∉ usedCommitments s) ->
  (forall u, CommitRevealOrder.commitment (commitments s !!! u) = 0 ->
             CommitRevealOrder.deadline (commitments s !!! u) = 0) ->
  (0 ∉ usedCommitments (run history s)) /\
  forall u, CommitRevealOrder.commitment (commitments (run history s) !!! u) = 0 ->
            CommitRevealOrder.deadline (commitments (run history s) !!! u) = 0.
Proof.
  induction history as [|[env tx] rest IH]; intros s Hused Hslots; cbn [run];
    [auto|].
  apply IH.
  - apply (proj2 (transact_used tx env s)), Hused.
  - intros u. eapply slot_step_zero; [apply transact_slot_step | apply Hslots].
Qed.
End LedgerFacts.

(** C10. For every deadline, caller, time and state, [commitOrder] called with
    the all-zero hash aborts with "RouterDefense: invalid commitment" and
    stores nothing; and in every state the contract reaches from its
    construction, the zero hash is not marked used and a slot that holds it is
    a slot no commit ever wrote (its deadline is zero). *)
Theorem commitOrder_rejects_zero_hash {World : Type} `{!Collaborators World} :
  (forall (deadline : uint256) (env : Env) (s : State World),
     exec (commitOrder 0 deadline) env s
       = (Err (Revert "RouterDefense: invalid commitment"), s)) /\
  (forall (deployer router : address) (w : World) (history : list (Env * Tx)),
     let s := run history (constructor deployer router w) in
     (0 ∉ usedCommitments s) /\
     forall u, CommitRevealOrder.commitment (commitments s !!! u) = 0 ->
               CommitRevealOrder.deadline (commitments s !!! u) = 0).
Proof.
  split.
  - intros deadline env s. apply exec_err, commitOrder_zero.
  - intros deployer router w history. cbv zeta. apply run_zero_hash.
    + cbn. apply not_elem_of_empty.
    + intros u _. cbn. rewrite lookup_total_empty. reflexivity.
Qed.

(** C3 (as amended). A committer has one commitment slot, and [commitOrder]
    does not look at it: the call succeeds exactly when the hash is nonzero
    and was never used and [now + 60 < deadline <= now + 3600], whatever the
    caller's slot holds, a live commitment included; it then overwrites the
    caller's slot with the new, unrevealed and unexecuted commitment, retires
    the hash and leaves every other slot as it was. A rejected call changes
    nothing. *)
Theorem commitOrder_overwrites_slot {World : Type} `{!Collaborators World}
    (commitment : bytes32) (deadline : uint256) (env : Env) (s : State World) :
  (forall s', exec (commitOrder commitment deadline) env s = (Ok tt, s') <->
              commit_accepts commitment deadline env s /\
              s' = committed commitment deadline env s) /\
  commitments (committed commitment deadline env s) !!! msg_sender env
    = CommitRevealOrder.mk commitment deadline false false /\
  (forall u, u <> msg_sender env ->
     commitments (committed commitment deadline env s) !!! u = commitments s !!! u) /\
  usedCommitments (committed commitment deadline env s)
    = {[ commitment ]} ∪ usedCommitments s /\
  (forall e s', exec (commitOrder commitment deadline) env s = (Err e, s') -> s' = s).
Proof.
  split; [|split; [|split; [|split]]].
  - intros s'. split.
    + intros H. apply exec_ok_inv in H. eapply commitOrder_ok_inv. exact H.
    + intros [Hacc ->]. apply exec_ok, commitOrder_accepts, Hacc.
  - cbn. apply lookup_total_insert_eq.
  - intros u Hu. cbn. apply lookup_total_insert_ne. congruence.
  - reflexivity.
  - intros e s'. apply exec_failure_keeps_state.
Qed.

(** C3 as stated fails: Alice holds a live commitment (hash 5, deadline 120,
    committed at time 0, neither revealed nor executed); at time 10 a second
    [commitOrder] of Alice is accepted and replaces it. *)
Lemma live_commitment_overwritten :
  let s1 := snd (exec (commitOrder 5 120) (Sim.at_time Sim.alice 0) Sim.genesis) in
  let r := exec (commitOrder 7 200) (Sim.at_time Sim.alice 10) s1 in
  commitments s1 !!! Sim.alice = CommitRevealOrder.mk 5 120 false false /\
  Ledger.live (commitments s1 !!! Sim.alice) 10 = true /\
  fst r = Ok tt /\
  commitments (snd r) !!! Sim.alice = CommitRevealOrder.mk 7 200 false false.
Proof. cbv zeta. repeat split; vm_compute; reflexivity. Qed.

Section RevealFacts.
Context {World : Type} `{!Collaborators World}.

Lemma revealAndExecute_invalid params nonce salt env (s : State World) :
  locked s = false ->
  CommitRevealOrder.commitment (commitments s !!! msg_sender env)
    <> keccak256 (msg_sender env) params nonce salt ->
  revealAndExecute params nonce salt env s
    = Err (Revert "RouterDefense: invalid reveal").
Proof.
  intros Hl Hne. unfold revealAndExecute, nonReentrant, bind, get, ask, require, modify.
  rewrite Hl. cbn [negb set_locked commitments].
  destruct (N.eqb_spec
              (CommitRevealOrder.commitment (commitments s !!! msg_sender env))
              (keccak256 (msg_sender env) params nonce salt)); [contradiction|].
  reflexivity.
Qed.

Lemma revealAndExecute_already params nonce salt env (s : State World) :
  locked s = false ->
  CommitRevealOrder.commitment (commitments s !!! msg_sender env)
    = keccak256 (msg_sender env) params nonce salt ->
  CommitRevealOrder.revealed (commitments s !!! msg_sender env) = true ->
  revealAndExecute params nonce salt env s
    = Err (Revert "RouterDefense: already revealed").
Proof.
  intros Hl Heq Hrev.
  unfold revealAndExecute, nonReentrant, bind, get, ask, require, modify.
  rewrite Hl. cbn [negb set_locked commitments].
  rewrite Heq, N.eqb_refl, Hrev. reflexivity.
Qed.

Lemma revealAndExecute_expired params nonce salt env (s : State World) :
  locked s = false ->
  CommitRevealOrder.commitment (commitments s !!! msg_sender env)
    = keccak256 (msg_sender env) params nonce salt ->
  CommitRevealOrder.revealed (commitments s !!! msg_sender env) = false ->
  CommitRevealOrder.executed (commitments s !!! msg_sender env) = false ->
  CommitRevealOrder.deadline (commitments s !!! msg_sender env) < block_timestamp env ->
  revealAndExecute params nonce salt env s
    = Err (Revert "RouterDefense: commitment expired").
Proof.
  intros Hl Heq Hrev Hexe Hdl.
  unfold revealAndExecute, nonReentrant, bind, get, ask, require, modify.
  rewrite Hl. cbn [negb set_locked commitments].
  rewrite Heq, N.eqb_refl, Hrev, Hexe. cbn [negb].
  destruct (N.leb_spec (block_timestamp env)
              (CommitRevealOrder.deadline (commitments s !!! msg_sender env)));
    [lia | reflexivity].
Qed.

Lemma committed_retires c d env (s : State World) :
  c ∈ usedCommitments (committed c d env s).
Proof. cbn. apply elem_of_union_l, elem_of_singleton. reflexivity. Qed.


Lemma revealAndExecute_executed params nonce salt env (s : State World) :
  locked s = false ->
  CommitRevealOrder.commitment (commitments s !!! msg_sender env)
    = keccak256 (msg_sender env) params nonce salt ->
  CommitRevealOrder.revealed (commitments s !!! msg_sender env) = false ->
  CommitRevealOrder.executed (commitments s !!! msg_sender env) = true ->
  revealAndExecute params nonce salt env s
    = Err (Revert "RouterDefense: already executed").
Proof.
  intros Hl Heq Hrev Hexe.
  unfold revealAndExecute, nonReentrant, bind, get, ask, require, modify.
  rewrite Hl. cbn [negb set_locked commitments].
  rewrite Heq, N.eqb_refl, Hrev, Hexe. reflexivity.
Qed.

End RevealFacts.





Section ExpiryFacts.
Context {World : Type} `{!Collaborators World}.

(** The hash a call leaves in a slot is the one it found there or one the
    call retired. *)
Lemma transact_slot_retired tx env (s : State World) u :
  CommitRevealOrder.commitment (commitments (transact tx env s) !!! u)
    = CommitRevealOrder.commitment (commitments s !!! u) \/
  CommitRevealOrder.commitment (commitments (transact tx env s) !!! u)
    ∈ usedCommitments (transact tx env s).
Proof.
  destruct tx as [params|c d|params nonce salt| |a b p|w]; cbn [transact].
  - unfold exec. destruct (protectedSwap params env s) as [[out s']|e] eqn:H;
      cbn [snd]; [|by left].
    apply protectedSwap_ok_inv in H as (_ & _ & [_ _ _ _ Hs _]).
    destruct (Hs u) as [->|(c & d & _ & _ & Hin & ->)]; [by left | by right].
  - unfold exec. destruct (commitOrder c d env s) as [[[] s']|e] eqn:H;
      cbn [snd]; [|by left].
    apply commitOrder_ok_inv in H as (_ & ->).
    destruct (decide (msg_sender env = u)) as [<-|Hne].
    + right. cbn [committed commitments]. rewrite lookup_total_insert_eq.
      apply committed_retires.
    + left. cbn [committed commitments].
      rewrite lookup_total_insert_ne by exact Hne. reflexivity.
  - unfold exec.
    destruct (revealAndExecute params nonce salt env s) as [[out s']|e] eqn:H;
      cbn [snd]; [|by left].
    apply revealAndExecute_ok_inv in H as (_&_&_&_&_&_& Hown & Hothers & _).
    destruct (decide (u = msg_sender env)) as [->|Hne].
    + destruct Hown as [->|(c & d & _ & _ & Hin & ->)]; [by left | by right].
    + destruct (Hothers u Hne) as [->|(c & d & _ & _ & Hin & ->)];
        [by left | by right].
  - unfold exec. destruct (batchExecuteRevealed env s) as [[[] s']|e] eqn:H;
      cbn [snd]; [|by left].
    apply batchExecuteRevealed_ok_inv in H as (_ & _ & _ & -> & _). left.
    destruct (batch_loop _ _ _ _) as [cm n] eqn:Hloop. cbn [fst].
    destruct (batch_loop_slot _ _ _ _ _ _ u Hloop) as [->|[_ ->]]; reflexivity.
  - unfold exec. destruct (addPool a b p env s) as [[[] s']|e] eqn:H;
      cbn [snd]; [|by left].
    apply addPool_ok_inv in H as (_ & ->). by left.
  - by left.
Qed.

(** In every state reached from the construction, the hash in a slot is zero
    or retired. *)
Lemma run_slots_retired history : forall (s : State World),
  (forall u, CommitRevealOrder.commitment (commitments s !!! u) = 0 \/
             CommitRevealOrder.commitment (commitments s !!! u) ∈ usedCommitments s) ->
  forall u,
    CommitRevealOrder.commitment (commitments (run history s) !!! u) = 0 \/
    CommitRevealOrder.commitment (commitments (run history s) !!! u)
      ∈ usedCommitments (run history s).
Proof.
  induction history as [|[env tx] rest IH]; intros s Hs; cbn [run]; [exact Hs|].
  apply IH. intros u.
  destruct (transact_slot_retired tx env s u) as [->|Hin]; [|by right].
  destruct (Hs u) as [?|Hin]; [by left|right]. apply transact_used_mono, Hin.
Qed.

(** An entry whose deadline has passed is never touched again: its slot keeps
    it as it is until the committer overwrites it with another hash. *)
Lemma run_expired_frozen (o : CommitRevealOrder.t) (now : uint256) u history :
  forall (s : State World),
  Forall (fun et : Env * Tx => now <= block_timestamp (fst et)) history ->
  CommitRevealOrder.deadline o < now ->
  CommitRevealOrder.commitment o = 0 \/
    CommitRevealOrder.commitment o ∈ usedCommitments s ->
  (CommitRevealOrder.commitment (commitments s !!! u) = CommitRevealOrder.commitment o ->
   commitments s !!! u = o) ->
  CommitRevealOrder.commitment (commitments (run history s) !!! u)
    = CommitRevealOrder.commitment o ->
  commitments (run history s) !!! u = o.
Proof.
  induction history as [|[env tx] rest IH]; intros s Htimes Hexp Hret Hslot;
    cbn [run]; [exact Hslot|].
  inversion Htimes as [|? ? Hnow Hrest]; subst. cbn [fst] in Hnow.
  apply IH; [exact Hrest | exact Hexp | |].
  - destruct Hret as [?|Hin]; [by left|right]. apply transact_used_mono, Hin.
  - pose proof (transact_slot_step tx env s u) as Hstep.
    destruct Hstep as [|c d Hnz Hfresh|Hrev Hexe Hdl|Hset|c d Hnz Hfresh]; cbn.
    5:{ intros Hc. exfalso. destruct Hret as [H0|Hin]; [congruence|].
        rewrite <- Hc in Hin. contradiction. }
    + exact Hslot.
    + intros Hc. exfalso. destruct Hret as [H0|Hin]; [congruence|].
      rewrite <- Hc in Hin. contradiction.
    + intros Hc. specialize (Hslot Hc). rewrite Hslot in Hdl. lia.
    + intros Hc. specialize (Hslot Hc). rewrite Hslot in Hset.
      unfold Ledger.settleable in Hset.
      apply andb_true_iff in Hset as [_ Hle]. apply N.leb_le in Hle. lia.
Qed.
End ExpiryFacts.

(** C7. One call of [batchExecuteRevealed] marks at most [MAX_BATCH_SIZE]
    entries executed: the slots it changes are those of a duplicate-free list
    of at most 20 queued committers, each revealed, unexecuted and within its
    deadline before the call, and each changed in its [executed] flag only.
    It marks no entry whose deadline has passed; and in every state reached
    from the construction such an entry is never marked later either: while
    time does not go back, no history of calls changes it, until its committer
    overwrites the slot with another hash. *)
Theorem batch_marks_bounded_and_unexpired {World : Type} `{!Collaborators World} :
  (forall (env : Env) (s : State World),
     let s' := snd (exec batchExecuteRevealed env s) in
     exists marked : list address,
       NoDup marked /\
       (length marked <= N.to_nat MAX_BATCH_SIZE)%nat /\
       (forall u, u ∈ marked ->
          u ∈ revealedOrders s /\
          Ledger.settleable (commitments s !!! u) (block_timestamp env) = true /\
          commitments s' !!! u
            = CommitRevealOrder.set_executed true (commitments s !!! u)) /\
       (forall u, u ∉ marked -> commitments s' !!! u = commitments s !!! u)) /\
  (forall (env : Env) (s : State World) (u : address),
     CommitRevealOrder.deadline (commitments s !!! u) < block_timestamp env ->
     commitments (snd (exec batchExecuteRevealed env s)) !!! u
       = commitments s !!! u) /\
  (forall (deployer router : address) (w : World) (past future : list (Env * Tx))
          (now : uint256) (u : address),
     let s := run past (constructor deployer router w) in
     CommitRevealOrder.deadline (commitments s !!! u) < now ->
     Forall (fun et : Env * Tx => now <= block_timestamp (fst et)) future ->
     CommitRevealOrder.commitment (commitments (run future s) !!! u)
       = CommitRevealOrder.commitment (commitments s !!! u) ->
     commitments (run future s) !!! u = commitments s !!! u).
Proof.
  split; [|split].
  - intros env s. cbv zeta. unfold exec.
    destruct (batchExecuteRevealed env s) as [[[] s']|e] eqn:H; cbn [snd].
    2:{ exists []. split; [constructor|]. split; [simpl; lia|].
        split; [intros u Hu; inversion Hu | reflexivity]. }
    apply batchExecuteRevealed_ok_inv in H as (_ & _ & _ & -> & _).
    destruct (batch_loop _ _ _ _) as [cm n] eqn:Hloop. cbn [fst].
    apply batch_loop_spec in Hloop
      as (_ & Hcap & marked & Hnd & Hlen & Hin & Hout).
    exists marked. split; [exact Hnd|].
    split; [|split; assumption].
    assert (n <= MAX_BATCH_SIZE) by (apply Hcap; unfold MAX_BATCH_SIZE; lia). lia.
  - intros env s u Hexp. unfold exec.
    destruct (batchExecuteRevealed env s) as [[[] s']|e] eqn:H; cbn [snd];
      [|reflexivity].
    apply batchExecuteRevealed_ok_inv in H as (_ & _ & _ & -> & _).
    destruct (batch_loop _ _ _ _) as [cm n] eqn:Hloop. cbn [fst].
    destruct (batch_loop_slot _ _ _ _ _ _ u Hloop) as [->|[Hs _]]; [reflexivity|].
    unfold Ledger.settleable in Hs.
    apply andb_true_iff in Hs as [_ Hle]. apply N.leb_le in Hle. lia.
  - intros deployer router w past future now u. cbv zeta. intros Hexp Htimes.
    apply run_expired_frozen with (now := now); [exact Htimes | exact Hexp | | auto].
    apply run_slots_retired. intros v. left. cbn. rewrite lookup_total_empty.
    reflexivity.
Qed.

(** ** Execution of an allocation *)

Section ExecutionFacts.
Context {World : Type} `{!Collaborators World}.

Lemma swap_amounts_app cs1 cs2 :
  Legs.swap_amounts (cs1 ++ cs2) = Legs.swap_amounts cs1 ++ Legs.swap_amounts cs2.
Proof.
  induction cs1 as [|c cs1 IH]; [reflexivity|].
  destruct c; cbn [app Legs.swap_amounts]; rewrite IH; reflexivity.
Qed.

Lemma planned_sum amountIn percentages :
  forall remaining, sumN (Legs.planned amountIn percentages remaining) <= remaining.
Proof.
  induction percentages as [|pct rest IH]; intros remaining;
    cbn [Legs.planned sumN]; [lia|].
  destruct (remaining =? 0); [cbn [sumN]; lia|].
  destruct (N.ltb_spec 0 (N.min (amountIn * pct / 10000) remaining)).
  - cbn [sumN].
    specialize (IH (remaining - N.min (amountIn * pct / 10000) remaining)).
    lia.
  - apply IH.
Qed.

Lemma _executeSingleRoute_calls route amountIn recipient deadline env
    (s : State World) out s' :
  _executeSingleRoute route amountIn recipient deadline env s = Ok (out, s') ->
  Legs.swap_amounts (calls s') = Legs.swap_amounts (calls s) ++ [amountIn].
Proof.
  unfold _executeSingleRoute. intros H. minv.
  match goal with H : (if negb _ then _ else _) _ _ = Ok (_, ?s1) |- _ =>
    assert (Hs1 : Legs.swap_amounts (calls s1) = Legs.swap_amounts (calls s))
  end.
  { destruct (negb _).
    - match goal with H : call_safeApprove _ _ _ _ _ = Ok _ |- _ =>
        apply call_safeApprove_inv in H as [_ ->] end.
      rewrite swap_amounts_app, app_nil_r. reflexivity.
    - minv. reflexivity. }
  rewrite <- Hs1.
  destruct (_ =? _);
    apply call_exactInputSingle_inv in H as [_ ->];
    rewrite swap_amounts_app; reflexivity.
Qed.

(** The swaps a run of the loop makes are the planned legs. *)
Lemma _executeMultiPathSwap_loop_calls params routes :
  forall remaining total env (s : State World) out s',
  _executeMultiPathSwap_loop params routes remaining total env s = Ok (out, s') ->
  Legs.swap_amounts (calls s') =
    Legs.swap_amounts (calls s) ++
    Legs.planned (SwapParams.amountIn params) (map Route.percentage routes) remaining.
Proof.
  induction routes as [|route rest IH]; intros remaining total env s out s' H.
  - cbn in H. minv. cbn. rewrite app_nil_r. reflexivity.
  - cbn [_executeMultiPathSwap_loop] in H. cbn [map Legs.planned].
    destruct (remaining =? 0); [minv; rewrite app_nil_r; reflexivity|].
    minv.
    match goal with H : U256.mul _ _ = Ok _ |- _ =>
      apply U256Facts.mul_inv in H; subst end.
    match goal with H : U256.div _ _ = Ok _ |- _ =>
      apply U256Facts.div_inv in H as [-> _] end.
    set (q := SwapParams.amountIn params * Route.percentage route / 10000) in *.
    assert (Hleg : (if remaining <? q then remaining else q) = N.min q remaining).
    { destruct (N.ltb_spec remaining q); lia. }
    rewrite Hleg in *.
    destruct (0 <? N.min q remaining).
    + minv.
      match goal with H : _executeSingleRoute _ _ _ _ _ _ = Ok _ |- _ =>
        apply _executeSingleRoute_calls in H as Hone end.
      match goal with H : U256.sub _ _ = Ok _ |- _ =>
        apply U256Facts.sub_inv in H as [-> _] end.
      apply IH in H. rewrite H, Hone, <- app_assoc. reflexivity.
    + apply IH in H. exact H.
Qed.
End ExecutionFacts.

(** C9. For every allocation and every request, the swaps that
    [_executeMultiPathSwap] makes spend, leg by leg,
    [floor (amountIn * percentage / 10000)] capped by what is still unspent
    (a leg of zero is skipped), and together never more than [amountIn]. *)
Theorem _executeMultiPathSwap_spends_at_most_amountIn
    {World : Type} `{!Collaborators World}
    (params : SwapParams.t) (routes : list Route.t) (env : Env)
    (s s' : State World) (totalAmountOut : uint256) :
  _executeMultiPathSwap params routes env s = Ok (totalAmountOut, s') ->
  exists legs : list uint256,
    Legs.swap_amounts (calls s') = Legs.swap_amounts (calls s) ++ legs /\
    legs = Legs.planned (SwapParams.amountIn params)
             (map Route.percentage routes) (SwapParams.amountIn params) /\
    sumN legs <= SwapParams.amountIn params.
Proof.
  unfold _executeMultiPathSwap. intros H. minv.
  apply _executeMultiPathSwap_loop_calls in H.
  eexists. split; [exact H|]. split; [reflexivity|]. apply planned_sum.
Qed.

Lemma sim_swap_runs :
  exec (_executeMultiPathSwap Sim.request Sim.two_routes)
       (Sim.at_time Sim.alice 10) Sim.funded
    = (Ok 98, Sim.after_swap).
Proof. vm_compute. reflexivity. Qed.

Lemma _executeMultiPathSwap_spends_at_most_amountIn_witness :
  exists legs : list uint256,
    Legs.swap_amounts (calls Sim.after_swap)
      = Legs.swap_amounts (calls Sim.funded) ++ legs /\
    legs = Legs.planned (SwapParams.amountIn Sim.request)
             (map Route.percentage Sim.two_routes)
             (SwapParams.amountIn Sim.request) /\
    sumN legs <= SwapParams.amountIn Sim.request.
Proof.
  exact (_executeMultiPathSwap_spends_at_most_amountIn
           Sim.request Sim.two_routes (Sim.at_time Sim.alice 10)
           Sim.funded Sim.after_swap 98
           (exec_ok_inv _ _ _ _ _ sim_swap_runs)).
Defined.

(** ** The slippage guard *)

Section SlippageFacts.
Context {World : Type} `{!Collaborators World}.

(** The execution reads the amount, the recipient and the deadline of the
    request, and not its minimum output. *)
Lemma _executeMultiPathSwap_loop_unguarded params routes :
  forall remaining total env (s : State World),
  _executeMultiPathSwap_loop (unguarded params) routes remaining total env s
    = _executeMultiPathSwap_loop params routes remaining total env s.
Proof.
  induction routes as [|route rest IH]; intros remaining total env s;
    [reflexivity|].
  cbn [_executeMultiPathSwap_loop unguarded SwapParams.amountIn
       SwapParams.recipient SwapParams.deadline].
  destruct (remaining =? 0); [reflexivity|].
  unfold bind.
  destruct (lift _ env s) as [[x s1]|e]; [|reflexivity].
  destruct (lift _ env s1) as [[q s2]|e]; [|reflexivity].
  destruct (0 <? _); [|apply IH].
  destruct (_executeSingleRoute _ _ _ _ env s2) as [[o s3]|e]; [|reflexivity].
  destruct (lift _ env s3) as [[t s4]|e]; [|reflexivity].
  destruct (lift _ env s4) as [[r s5]|e]; [|reflexivity].
  apply IH.
Qed.

Lemma _executeMultiPathSwap_unguarded params routes env (s : State World) :
  _executeMultiPathSwap (unguarded params) routes env s
    = _executeMultiPathSwap params routes env s.
Proof.
  unfold _executeMultiPathSwap, bind.
  destruct (require _ _ env s) as [[u s1]|e]; [|reflexivity].
  apply _executeMultiPathSwap_loop_unguarded.
Qed.

Lemma protectedSwap_guard params env (s : State World) out s0 :
  protectedSwap (unguarded params) env s = Ok (out, s0) ->
  out < SwapParams.amountOutMin params ->
  protectedSwap params env s = Err (Revert "RouterDefense: insufficient output") \/
  protectedSwap params env s = Err (Revert "RouterDefense: slippage exceeded").
Proof.
  intros H Hlow. unfold protectedSwap in H.
  apply nonReentrant_ok_inv in H as (Hlock & s1 & H & _).
  minv.
  match goal with x : (list Route.t * N)%type |- _ => destruct x as [routes expected] end.
  minv.
  cbn [unguarded SwapParams.tokenIn SwapParams.tokenOut SwapParams.amountIn
       SwapParams.deadline] in *.
  match goal with H : pullFunds _ _ _ = Ok _ |- _ =>
    change (pullFunds (unguarded params)) with (pullFunds params) in H;
    rename H into Hpull end.
  match goal with H : getOptimalRoute _ _ _ _ _ = Ok _ |- _ => rename H into Hroute end.
  match goal with H : _executeMultiPathSwap _ _ _ _ = Ok _ |- _ =>
    rewrite _executeMultiPathSwap_unguarded in H; rename H into Hexec end.
  assert (Hrun : protectedSwap params env s =
            if SwapParams.amountOutMin params <=? expected
            then Err (Revert "RouterDefense: slippage exceeded")
            else Err (Revert "RouterDefense: insufficient output")).
  { unfold protectedSwap, nonReentrant.
    unfold bind at 1. cbn [get].
    unfold bind at 1. rewrite Hlock. cbn [negb require].
    unfold bind at 1. cbn [modify].
    unfold bind at 1. unfold bind at 1. cbn [ask].
    unfold bind at 1.
    match goal with H : (_ <=? _) = true |- _ => rewrite H end. cbn [require].
    unfold bind at 1.
    match goal with H : (0 <? _) = true |- _ => rewrite H end. cbn [require].
    unfold bind at 1. rewrite Hpull.
    unfold bind at 1. rewrite Hroute.
    unfold bind at 1.
    destruct (SwapParams.amountOutMin params <=? expected); cbn [require];
      [|reflexivity].
    unfold bind at 1. rewrite Hexec.
    unfold bind at 1.
    match goal with |- context [SwapParams.amountOutMin params <=? ?o] =>
      destruct (N.leb_spec (SwapParams.amountOutMin params) o); [lia|] end.
    reflexivity. }
  rewrite Hrun. destruct (SwapParams.amountOutMin params <=? expected); auto.
Qed.
End SlippageFacts.

(** C6. Whenever the swap a request describes would return less than its
    [amountOutMin] (the output [protectedSwap] realizes for the same request
    with the minimum lowered to zero), [protectedSwap] aborts, with
    "RouterDefense: insufficient output" at the check of the quote before
    execution or with "RouterDefense: slippage exceeded" at the check of the
    realized output after it, and the state is the one before the call: the
    storage, and the world of the collaborators with every token balance in
    it, so that the pull and the legs already made are undone. *)
Theorem protectedSwap_aborts_below_minimum {World : Type} `{!Collaborators World}
    (params : SwapParams.t) (env : Env) (s s0 : State World) (out : uint256) :
  exec (protectedSwap (unguarded params)) env s = (Ok out, s0) ->
  out < SwapParams.amountOutMin params ->
  (exec (protectedSwap params) env s
     = (Err (Revert "RouterDefense: insufficient output"), s) \/
   exec (protectedSwap params) env s
     = (Err (Revert "RouterDefense: slippage exceeded"), s)) /\
  world (snd (exec (protectedSwap params) env s)) = world s.
Proof.
  intros H Hlow. apply exec_ok_inv in H.
  destruct (protectedSwap_guard params env s out s0 H Hlow) as [He|He];
    unfold exec; rewrite He; cbn [snd]; auto.
Qed.

Lemma sim_unguarded_swap_runs :
  exec (protectedSwap (unguarded Sim.tight_request)) (Sim.at_time Sim.alice 10)
       Sim.genesis
    = (Ok 990, Sim.after_unguarded_swap).
Proof. vm_compute. reflexivity. Qed.

Lemma protectedSwap_aborts_below_minimum_witness :
  (exec (protectedSwap Sim.tight_request) (Sim.at_time Sim.alice 10) Sim.genesis
     = (Err (Revert "RouterDefense: insufficient output"), Sim.genesis) \/
   exec (protectedSwap Sim.tight_request) (Sim.at_time Sim.alice 10) Sim.genesis
     = (Err (Revert "RouterDefense: slippage exceeded"), Sim.genesis)) /\
  world (snd (exec (protectedSwap Sim.tight_request) (Sim.at_time Sim.alice 10)
                   Sim.genesis))
    = world Sim.genesis.
Proof.
  exact (protectedSwap_aborts_below_minimum Sim.tight_request
           (Sim.at_time Sim.alice 10) Sim.genesis Sim.after_unguarded_swap 990
           sim_unguarded_swap_runs ltac:(reflexivity)).
Defined.

(** ** Where the code departs from its own design *)

(** C1 (defect of the code). Alice commits at time 0 with deadline 120, so the
    reveal window opens at time 60. The modifier [validReveal], which the
    contract declares, rejects a reveal at time 30 with "RouterDefense:
    reveal too early"; [revealAndExecute], which does not apply it, accepts
    the same reveal and executes the swap. A reveal after the deadline is
    rejected, and leaves the state as it was. *)
Lemma reveal_before_window_accepted :
  commitments Sim.after_commit !!! Sim.alice
    = CommitRevealOrder.mk Sim.request_hash 120 false false /\
  30 < 120 - COMMIT_REVEAL_DELAY /\
  exec (validReveal Sim.request_hash (ret tt)) (Sim.at_time Sim.alice 30)
       Sim.after_commit
    = (Err (Revert "RouterDefense: reveal too early"), Sim.after_commit) /\
  fst (exec (revealAndExecute Sim.request 7 9) (Sim.at_time Sim.alice 30)
            Sim.after_commit)
    = Ok 99 /\
  exec (revealAndExecute Sim.request 7 9) (Sim.at_time Sim.alice 130)
       Sim.after_commit
    = (Err (Revert "RouterDefense: commitment expired"), Sim.after_commit).
Proof. repeat split; vm_compute; reflexivity. Qed.

(** * Further properties *)

(** ** More on the route optimizer *)

Module QuoteFacts.
Import RouteOptimizer Alloc.

Lemma rbind_ok {A B} (r : result A) (k : A -> result B) b :
  rbind r k = Ok b <-> exists a, r = Ok a /\ k a = Ok b.
Proof.
  destruct r as [a|e]; cbn; split.
  - eauto.
  - intros (a' & [= ->] & H). exact H.
  - discriminate.
  - intros (a' & [=] & _).
Qed.

Lemma rbind_err {A B} (r : result A) (k : A -> result B) e :
  rbind r k = Err e <-> r = Err e \/ exists a, r = Ok a /\ k a = Err e.
Proof.
  destruct r as [a|e0]; cbn; split.
  - eauto.
  - intros [[=]|(a' & [= ->] & H)]. exact H.
  - intros [= ->]. auto.
  - intros [[= ->]|(a' & [=] & _)]. reflexivity.
Qed.

Lemma u256_overflow_only op a b e :
  (op = U256.add \/ op = U256.sub \/ op = U256.mul) ->
  op a b = Err e -> e = Panic 17.
Proof.
  intros [->|[->| ->]]; unfold U256.add, U256.sub, U256.mul;
    destruct (_ <=? _); congruence.
Qed.

Lemma loop_ok_inv tokenIn tokenOut amountIn pools :
  forall v v',
  optimizeRoute_loop tokenIn tokenOut amountIn pools v = Ok v' ->
  inv amountIn v -> Quote.stamped tokenIn tokenOut v ->
  inv amountIn v' /\ Quote.stamped tokenIn tokenOut v'.
Proof.
  assert (HM : MAX_ROUTES = 3) by reflexivity.
  induction pools as [|p rest IH]; intros v v' H Hv Hst.
  - injection H as <-. auto.
  - cbn [optimizeRoute_loop] in H.
    destruct (N.ltb_spec (routeCount v) MAX_ROUTES) as [Hlt|Hge]; cbn [andb] in H;
      [|injection H as <-; auto].
    destruct (N.ltb_spec 0 (remainingAmount v)) as [Hrem|Hrem];
      [|injection H as <-; auto].
    destruct (_isValidPool p tokenIn tokenOut); cbn [negb] in H; [|eauto].
    apply rbind_ok in H as (cap & _ & H).
    set (routeAmount := if cap <? remainingAmount v then cap else remainingAmount v) in *.
    assert (HrA : routeAmount = N.min cap (remainingAmount v)).
    { unfold routeAmount. destruct (N.ltb_spec cap (remainingAmount v)); lia. }
    destruct (N.eqb_spec routeAmount 0) as [Hz|Hnz]; [eauto|].
    apply rbind_ok in H as (x & Hx & H). apply U256Facts.mul_inv in Hx.
    apply rbind_ok in H as (pct & Hpct & H). apply U256Facts.div_inv in Hpct as [-> _].
    apply rbind_ok in H as (eo & Heo & H).
    apply rbind_ok in H as (eo' & Heo' & H). apply U256Facts.add_inv in Heo'.
    apply rbind_ok in H as (rem' & Hrem' & H).
    apply U256Facts.sub_inv in Hrem' as [-> Hle].
    apply rbind_ok in H as (rc' & Hrc' & H). apply U256Facts.add_inv in Hrc'.
    subst x eo' rc'.
    assert (Heo_le : eo <= routeAmount).
    { unfold _calculateExpectedOutput in Heo.
      apply rbind_ok in Heo as (y & Hy & Heo). apply U256Facts.mul_inv in Hy.
      apply rbind_ok in Heo as (fa & Hfa & Heo).
      apply U256Facts.div_inv in Hfa as [-> _].
      apply rbind_ok in Heo as (af & Haf & Heo).
      apply U256Facts.sub_inv in Haf as [-> _].
      apply rbind_ok in Heo as (z & Hz' & Heo). apply U256Facts.mul_inv in Hz'.
      apply U256Facts.div_inv in Heo as [-> _]. subst.
      apply N.Div0.div_le_upper_bound.
      generalize (routeAmount * fee p / 1000000). intros q. lia. }
    destruct Hv as [Hcnt Hbnd Hcells Hpc Hsum Hout].
    destruct Hst as [Htok Hposl].
    assert (Hlen : (length (legs v) < N.to_nat MAX_ROUTES)%nat) by lia.
    assert (Htake :
      take (length (legs v ++ [routeAmount]))
           (<[N.to_nat (routeCount v) :=
                Route.mk (pool p) tokenIn tokenOut
                  (routeAmount * PERCENTAGE_BASE / amountIn)]> (routes v))
      = take (length (legs v)) (routes v) ++
        [Route.mk (pool p) tokenIn tokenOut
           (routeAmount * PERCENTAGE_BASE / amountIn)]).
    { rewrite length_app. cbn [length].
      replace (length (legs v) + 1)%nat with (S (length (legs v))) by lia.
      rewrite Hcnt, Nat2N.id.
      erewrite take_S_r; [|apply list_lookup_insert_eq; lia].
      rewrite take_insert_ge by lia. reflexivity. }
    eapply IH; [exact H| |].
    + split; cbn [routes routeCount expectedAmountOut remainingAmount legs].
      * rewrite length_app. cbn [length]. lia.
      * lia.
      * rewrite length_insert. assumption.
      * rewrite Htake. apply Forall2_app; [assumption|].
        constructor; [reflexivity|constructor].
      * rewrite sumN_app. cbn [sumN]. lia.
      * rewrite sumN_app. cbn [sumN]. lia.
    + split; cbn [routes legs].
      * rewrite Htake. apply Forall_app. split; [assumption|].
        constructor; [split; reflexivity|constructor].
      * apply Forall_app. split; [assumption|].
        constructor; [lia|constructor].
Qed.

(** The loop over [p :: rest] is one iteration on [p], then the loop over
    [rest]. *)
Lemma loop_cons tokenIn tokenOut amountIn p rest v :
  optimizeRoute_loop tokenIn tokenOut amountIn (p :: rest) v
    = rbind (optimizeRoute_loop tokenIn tokenOut amountIn [p] v)
            (optimizeRoute_loop tokenIn tokenOut amountIn rest).
Proof.
  cbn [optimizeRoute_loop].
  destruct ((routeCount v <? MAX_ROUTES) && (0 <? remainingAmount v)) eqn:Hguard.
  2:{ cbn [rbind]. destruct rest; cbn [optimizeRoute_loop]; [reflexivity|].
      rewrite Hguard. reflexivity. }
  destruct (negb (_isValidPool p tokenIn tokenOut)); [reflexivity|].
  destruct (_calculatePoolCapacity p amountIn) as [cap|e]; cbn [rbind];
    [|reflexivity].
  destruct (_ =? 0); [reflexivity|].
  destruct (U256.mul _ PERCENTAGE_BASE) as [x|e]; cbn [rbind]; [|reflexivity].
  destruct (U256.div x amountIn) as [pct|e]; cbn [rbind]; [|reflexivity].
  destruct (_calculateExpectedOutput _ _ _ _) as [eo|e]; cbn [rbind];
    [|reflexivity].
  destruct (U256.add (expectedAmountOut v) eo) as [eo'|e]; cbn [rbind];
    [|reflexivity].
  destruct (U256.sub (remainingAmount v) _) as [rem'|e]; cbn [rbind];
    [|reflexivity].
  destruct (U256.add (routeCount v) 1) as [rc'|e]; cbn [rbind]; reflexivity.
Qed.

Lemma expectedOutput_overflow_only p tokenIn tokenOut a e :
  _calculateExpectedOutput p tokenIn tokenOut a = Err e -> e = Panic 17.
Proof.
  unfold _calculateExpectedOutput, U256.mul, U256.div, U256.sub.
  destruct (_ <=? MAX_UINT256); cbn; [|congruence].
  destruct (_ <=? a); cbn; [|congruence].
  destruct (_ <=? MAX_UINT256); cbn; congruence.
Qed.

Lemma step_err tokenIn tokenOut amountIn p v e :
  optimizeRoute_loop tokenIn tokenOut amountIn [p] v = Err e ->
  inv amountIn v -> e = Panic 17.
Proof.
  intros H Hv. cbn [optimizeRoute_loop] in H.
  destruct (routeCount v <? MAX_ROUTES); cbn [andb] in H; [|discriminate].
  destruct (N.ltb_spec 0 (remainingAmount v)) as [Hrem|]; [|discriminate].
  destruct (negb _); [discriminate|].
  unfold _calculatePoolCapacity in H at 1.
  destruct (U256.mul (liquidity p) 3000) as [x|e0] eqn:Hcap; cbn [rbind] in H.
  2:{ injection H as <-. eapply u256_overflow_only; [|exact Hcap]. auto. }
  cbn in H.
  destruct (_ =? 0); [discriminate|].
  destruct (U256.mul _ PERCENTAGE_BASE) as [y|e0] eqn:Hmul; cbn [rbind] in H.
  2:{ injection H as <-. eapply u256_overflow_only; [|exact Hmul]. auto. }
  assert (amountIn <> 0) as HA by (destruct Hv; lia).
  unfold U256.div in H at 1. destruct (N.eqb_spec amountIn 0); [contradiction|].
  cbn [rbind] in H.
  destruct (_calculateExpectedOutput _ _ _ _) as [eo|e0] eqn:Heo; cbn [rbind] in H.
  2:{ injection H as <-. eapply expectedOutput_overflow_only, Heo. }
  destruct (U256.add (expectedAmountOut v) eo) as [eo'|e0] eqn:Hadd;
    cbn [rbind] in H.
  2:{ injection H as <-. eapply u256_overflow_only; [|exact Hadd]. auto. }
  destruct (U256.sub (remainingAmount v) _) as [rem'|e0] eqn:Hsub;
    cbn [rbind] in H.
  2:{ injection H as <-. eapply u256_overflow_only; [|exact Hsub]. auto. }
  destruct (U256.add (routeCount v) 1) as [rc'|e0] eqn:Hrc; cbn [rbind] in H.
  2:{ injection H as <-. eapply u256_overflow_only; [|exact Hrc]. auto. }
  discriminate.
Qed.

Lemma loop_err tokenIn tokenOut amountIn pools :
  forall v e,
  optimizeRoute_loop tokenIn tokenOut amountIn pools v = Err e ->
  inv amountIn v -> Quote.stamped tokenIn tokenOut v -> e = Panic 17.
Proof.
  induction pools as [|p rest IH]; intros v e H Hv Hst; [discriminate|].
  rewrite loop_cons in H. apply rbind_err in H as [H|(v1 & H1 & H)].
  - eapply step_err; eassumption.
  - destruct (loop_ok_inv _ _ _ _ _ _ H1 Hv Hst) as [Hv1 Hst1]. eauto.
Qed.

Lemma stamped_init tokenIn tokenOut amountIn :
  Quote.stamped tokenIn tokenOut (optimizeRoute_init amountIn).
Proof. split; constructor. Qed.
End QuoteFacts.

(** X1. Whatever [optimizeRoute] returns is within bounds: one leg per route,
    at most three routes, each for the requested pair and with a positive
    leg; the legs sum to at most [amountIn], the expected output to at most
    the legs, and the percentages to at most 10000. *)
Theorem optimizeRoute_result_bounds
    (tokenIn tokenOut : address) (amountIn : uint256)
    (pools : list RouteOptimizer.PoolInfo)
    (routes : list Route.t) (expectedAmountOut : uint256) :
  RouteOptimizer.optimizeRoute tokenIn tokenOut amountIn pools
    = Ok (routes, expectedAmountOut) ->
  exists legs : list uint256,
    RouteOptimizer.optimizeRoute_legs tokenIn tokenOut amountIn pools = Ok legs /\
    length routes = length legs /\
    (length routes <= 3)%nat /\
    Forall (fun r => Route.tokenIn r = tokenIn /\ Route.tokenOut r = tokenOut)
           routes /\
    Forall (fun a => 0 < a) legs /\
    sumN legs <= amountIn /\
    expectedAmountOut <= sumN legs /\
    sumN (map Route.percentage routes) <= 10000.
Proof.
  unfold RouteOptimizer.optimizeRoute, RouteOptimizer.optimizeRoute_legs.
  intros H. apply QuoteFacts.rbind_ok in H as (v & Hrun & [= <- <-]).
  rewrite Hrun. cbn [rbind].
  destruct (QuoteFacts.loop_ok_inv _ _ _ _ _ _ Hrun
              (RouteOptimizerFacts.inv_init amountIn)
              (QuoteFacts.stamped_init tokenIn tokenOut amountIn))
    as [[Hcnt Hbnd Hcells Hpct Hsum Hout] [Htok Hposl]].
  exists (RouteOptimizer.legs v). rewrite Hcnt, Nat2N.id in *.
  assert (Hlen : length (take (length (RouteOptimizer.legs v))
                              (RouteOptimizer.routes v))
                 = length (RouteOptimizer.legs v)).
  { eapply Forall2_length. exact Hpct. }
  split; [reflexivity|]. split; [exact Hlen|].
  split; [rewrite Hlen; change RouteOptimizer.MAX_ROUTES with 3 in Hbnd; lia|].
  split; [exact Htok|]. split; [exact Hposl|]. split; [lia|].
  split; [exact Hout|].
  rewrite (RouteOptimizerFacts.percentages_of_legs _ _ _ Hpct).
  destruct (N.eq_dec amountIn 0) as [HA|HA].
  - assert (RouteOptimizer.legs v = []) as ->.
    { destruct (RouteOptimizer.legs v) as [|a l]; [reflexivity|].
      inversion Hposl as [|? ? Ha _]. cbn [sumN] in Hsum. lia. }
    cbn. lia.
  - destruct (RouteOptimizerFacts.floor_sum_bounds amountIn
                RouteOptimizer.PERCENTAGE_BASE (RouteOptimizer.legs v)
                ltac:(lia)) as [Hlo _].
    change RouteOptimizer.PERCENTAGE_BASE with 10000 in *.
    remember (sumN (map (fun a => a * 10000 / amountIn) (RouteOptimizer.legs v)))
      as P eqn:HP. clear HP.
    remember (sumN (RouteOptimizer.legs v)) as S eqn:HS. clear HS.
    nia.
Qed.

Lemma optimizeRoute_result_bounds_witness :
  exists legs : list uint256,
    RouteOptimizer.optimizeRoute_legs 2 3 100
      [RouteOptimizer.mkPool 1 2 3 200 30; RouteOptimizer.mkPool 5 3 2 100 30]
      = Ok legs /\
    length [Route.mk 1 2 3 6000; Route.mk 5 2 3 3000] = length legs /\
    (length [Route.mk 1 2 3 6000; Route.mk 5 2 3 3000] <= 3)%nat /\
    Forall (fun r => Route.tokenIn r = 2 /\ Route.tokenOut r = 3)
           [Route.mk 1 2 3 6000; Route.mk 5 2 3 3000] /\
    Forall (fun a => 0 < a) legs /\
    sumN legs <= 100 /\
    88 <= sumN legs /\
    sumN (map Route.percentage [Route.mk 1 2 3 6000; Route.mk 5 2 3 3000]) <= 10000.
Proof.
  exact (optimizeRoute_result_bounds 2 3 100
           [RouteOptimizer.mkPool 1 2 3 200 30; RouteOptimizer.mkPool 5 3 2 100 30]
           [Route.mk 1 2 3 6000; Route.mk 5 2 3 3000] 88 eq_refl).
Defined.

(** X2. With nothing to route the allocation is empty and the expected output
    zero: for an amount of zero, whatever the candidates, and for any amount
    when no candidate matches the pair. *)
Theorem optimizeRoute_empty
    (tokenIn tokenOut : address) (pools : list RouteOptimizer.PoolInfo) :
  RouteOptimizer.optimizeRoute tokenIn tokenOut 0 pools = Ok ([], 0) /\
  forall amountIn,
    forallb (fun p => negb (RouteOptimizer._isValidPool p tokenIn tokenOut)) pools
      = true ->
    RouteOptimizer.optimizeRoute tokenIn tokenOut amountIn pools = Ok ([], 0).
Proof.
  split.
  - unfold RouteOptimizer.optimizeRoute. destruct pools; reflexivity.
  - intros amountIn Hnone. unfold RouteOptimizer.optimizeRoute.
    assert (Hloop : forall v,
      RouteOptimizer.optimizeRoute_loop tokenIn tokenOut amountIn pools v = Ok v).
    { induction pools as [|p rest IH]; intros v; [reflexivity|].
      cbn [forallb] in Hnone. apply andb_true_iff in Hnone as [Hp Hrest].
      cbn [RouteOptimizer.optimizeRoute_loop]. rewrite Hp.
      destruct (_ && _); [apply IH, Hrest | reflexivity]. }
    rewrite Hloop. reflexivity.
Qed.

(** X3. [optimizeRoute] fails in one way only: the arithmetic panic (0x11) of
    an overflowing product or sum or of a fee above 100%. It never divides by
    zero, and never reverts with a message. *)
Theorem optimizeRoute_fails_by_overflow_only
    (tokenIn tokenOut : address) (amountIn : uint256)
    (pools : list RouteOptimizer.PoolInfo) (e : error) :
  RouteOptimizer.optimizeRoute tokenIn tokenOut amountIn pools = Err e ->
  e = Panic 17.
Proof.
  unfold RouteOptimizer.optimizeRoute. intros H.
  apply QuoteFacts.rbind_err in H as [H|(v & _ & [=])].
  eapply QuoteFacts.loop_err;
    [exact H | apply RouteOptimizerFacts.inv_init | apply QuoteFacts.stamped_init].
Qed.

Lemma optimizeRoute_fails_by_overflow_only_witness :
  RouteOptimizer.optimizeRoute 2 3 100 [RouteOptimizer.mkPool 1 2 3 (2 ^ 255) 30]
    = Err (Panic 17) /\
  Panic 17 = Panic 17.
Proof.
  split; [reflexivity|].
  exact (optimizeRoute_fails_by_overflow_only 2 3 100
           [RouteOptimizer.mkPool 1 2 3 (2 ^ 255) 30] (Panic 17) eq_refl).
Defined.

Module SymmetryFacts.
Import RouteOptimizer.

Lemma _isValidPool_sym p tokenIn tokenOut :
  _isValidPool p tokenOut tokenIn = _isValidPool p tokenIn tokenOut.
Proof. unfold _isValidPool. apply orb_comm. Qed.

Lemma loop_flip tokenIn tokenOut amountIn pools :
  forall v,
  optimizeRoute_loop tokenOut tokenIn amountIn pools (Quote.flip_vars v)
    = rmap Quote.flip_vars (optimizeRoute_loop tokenIn tokenOut amountIn pools v).
Proof.
  induction pools as [|p rest IH]; intros v; [reflexivity|].
  cbn [optimizeRoute_loop Quote.flip_vars routeCount remainingAmount
       expectedAmountOut routes legs].
  destruct (_ && _); [|reflexivity].
  rewrite _isValidPool_sym.
  destruct (negb _); [apply IH|].
  destruct (_calculatePoolCapacity p amountIn) as [cap|e]; cbn [rbind];
    [|reflexivity].
  destruct (_ =? 0); [apply IH|].
  destruct (U256.mul _ PERCENTAGE_BASE) as [x|e]; cbn [rbind]; [|reflexivity].
  destruct (U256.div x amountIn) as [pct|e]; cbn [rbind]; [|reflexivity].
  change (_calculateExpectedOutput p tokenOut tokenIn)
    with (_calculateExpectedOutput p tokenIn tokenOut).
  destruct (_calculateExpectedOutput _ _ _ _) as [eo|e]; cbn [rbind];
    [|reflexivity].
  destruct (U256.add (expectedAmountOut v) eo) as [eo'|e]; cbn [rbind];
    [|reflexivity].
  destruct (U256.sub (remainingAmount v) _) as [rem'|e]; cbn [rbind];
    [|reflexivity].
  destruct (U256.add (routeCount v) 1) as [rc'|e]; cbn [rbind]; [|reflexivity].
  rewrite <- IH. unfold Quote.flip_vars.
  cbn [routeCount remainingAmount expectedAmountOut routes legs].
  rewrite list_fmap_insert. reflexivity.
Qed.
End SymmetryFacts.

(** X4. [calculateSlippage] returns the shortfall of the actual amount in
    basis points of the expected one, truncated: zero when nothing was
    expected or nothing is short, never more than 10000, and it fails only
    when the shortfall times 10000 leaves [uint256]. *)
Theorem calculateSlippage_bounded (expectedAmount actualAmount : uint256) :
  (expectedAmount - actualAmount) * 10000 <= MAX_UINT256 ->
  RouteOptimizer.calculateSlippage expectedAmount actualAmount
    = Ok ((expectedAmount - actualAmount) * 10000 / expectedAmount) /\
  (expectedAmount - actualAmount) * 10000 / expectedAmount <= 10000 /\
  (expectedAmount <= actualAmount ->
   RouteOptimizer.calculateSlippage expectedAmount actualAmount = Ok 0).
Proof.
  intros Hfit. unfold RouteOptimizer.calculateSlippage.
  destruct (N.eqb_spec expectedAmount 0) as [->|Hnz].
  - rewrite N.sub_0_l, N.mul_0_l, N.Div0.div_0_l. cbn.
    split; [reflexivity|]. split; [lia | reflexivity].
  - destruct (N.leb_spec expectedAmount actualAmount) as [Hle|Hgt].
    + replace (expectedAmount - actualAmount) with 0 by lia.
      rewrite N.mul_0_l, N.Div0.div_0_l.
      split; [reflexivity|]. split; [lia | reflexivity].
    + rewrite U256Facts.sub_ok by lia. cbn [rbind].
      change RouteOptimizer.PERCENTAGE_BASE with 10000.
      rewrite (U256Facts.mul_ok _ _ Hfit). cbn [rbind].
      rewrite U256Facts.div_ok by lia.
      split; [reflexivity|]. split; [|lia].
      apply N.Div0.div_le_upper_bound. lia.
Qed.

Lemma calculateSlippage_bounded_witness :
  RouteOptimizer.calculateSlippage 200 150 = Ok ((200 - 150) * 10000 / 200) /\
  (200 - 150) * 10000 / 200 <= 10000 /\
  (200 <= 150 -> RouteOptimizer.calculateSlippage 200 150 = Ok 0).
Proof. exact (calculateSlippage_bounded 200 150 ltac:(le_compute)). Defined.

(** X5. The quote does not depend on the direction of the swap: for the same
    candidates, [optimizeRoute] from [tokenOut] to [tokenIn] returns the
    allocation it returns from [tokenIn] to [tokenOut] with the two tokens of
    every route exchanged, and the same expected output (or fails alike). *)
Theorem optimizeRoute_direction_blind
    (tokenIn tokenOut : address) (amountIn : uint256)
    (pools : list RouteOptimizer.PoolInfo) :
  RouteOptimizer.optimizeRoute tokenOut tokenIn amountIn pools
    = rmap (fun q => (map Quote.flip (fst q), snd q))
           (RouteOptimizer.optimizeRoute tokenIn tokenOut amountIn pools).
Proof.
  unfold RouteOptimizer.optimizeRoute.
  change (RouteOptimizer.optimizeRoute_init amountIn)
    with (Quote.flip_vars (RouteOptimizer.optimizeRoute_init amountIn)) at 1.
  rewrite SymmetryFacts.loop_flip.
  destruct (RouteOptimizer.optimizeRoute_loop tokenIn tokenOut amountIn pools _)
    as [v|e]; [|reflexivity].
  cbn [rmap rbind fst snd Quote.flip_vars RouteOptimizer.routes
       RouteOptimizer.routeCount RouteOptimizer.expectedAmountOut].
  rewrite fmap_take. reflexivity.
Qed.

(** ** Quotes of the contract *)

Section QuoteOfContract.
Context {World : Type} `{!Collaborators World}.

Lemma getOptimalRoute_unfold tokenIn tokenOut amountIn env (s : State World) :
  getOptimalRoute tokenIn tokenOut amountIn env s
    = match RouteOptimizer.optimizeRoute tokenIn tokenOut amountIn
              (map (pool_info tokenIn tokenOut) (registered s tokenIn tokenOut)) with
      | Ok q => Ok (q, s)
      | Err e => Err e
      end.
Proof. reflexivity. Qed.

Lemma pool_info_valid tokenIn tokenOut pool :
  RouteOptimizer._isValidPool (pool_info tokenIn tokenOut pool) tokenIn tokenOut = true.
Proof.
  unfold RouteOptimizer._isValidPool, pool_info. cbn.
  destruct (tokenIn <? tokenOut); rewrite !N.eqb_refl; cbn;
    [reflexivity | apply orb_true_r].
Qed.

Lemma pool_info_sym tokenIn tokenOut pool :
  pool_info tokenOut tokenIn pool = pool_info tokenIn tokenOut pool.
Proof.
  unfold pool_info.
  destruct (N.ltb_spec tokenIn tokenOut), (N.ltb_spec tokenOut tokenIn);
    try reflexivity; try lia.
  assert (tokenIn = tokenOut) as -> by lia. reflexivity.
Qed.

Lemma pool_capacity tokenIn tokenOut pool amountIn :
  RouteOptimizer._calculatePoolCapacity (pool_info tokenIn tokenOut pool) amountIn
    = Ok (300000 * 10 ^ 18).
Proof. reflexivity. Qed.
End QuoteOfContract.

(** X6. For a pair with a registered pool, the quote of an amount of at most
    300000e18 (30% of the liquidity the contract assumes for every pool) is
    one route through the first pool registered, for the whole amount: 10000
    bps, expected output [floor ((a - floor (a * 3000 / 1000000)) * 997 /
    1000)]. The other pools of the pair are not used, and the quote changes
    no state. *)
Theorem getOptimalRoute_first_pool_takes_all {World : Type} `{!Collaborators World}
    (tokenIn tokenOut : address) (amountIn : uint256) (env : Env)
    (s : State World) (pool : address) (others : list address) :
  registered s tokenIn tokenOut = pool :: others ->
  0 < amountIn ->
  amountIn <= 300000 * 10 ^ 18 ->
  getOptimalRoute tokenIn tokenOut amountIn env s
    = Ok (([Route.mk pool tokenIn tokenOut 10000],
           (amountIn - amountIn * 3000 / 1000000) * 997 / 1000), s).
Proof.
  intros Hreg Hpos Hcap.
  rewrite getOptimalRoute_unfold, Hreg. cbn [map].
  unfold RouteOptimizer.optimizeRoute.
  cbn [RouteOptimizer.optimizeRoute_loop RouteOptimizer.optimizeRoute_init
       RouteOptimizer.routeCount RouteOptimizer.remainingAmount
       RouteOptimizer.expectedAmountOut RouteOptimizer.routes RouteOptimizer.legs].
  change (0 <? RouteOptimizer.MAX_ROUTES) with true.
  destruct (N.ltb_spec 0 amountIn) as [_|]; [|lia]. cbn [andb].
  rewrite pool_info_valid. cbn [negb].
  rewrite pool_capacity. cbn [rbind].
  assert (H1e : 300000 * 10 ^ 18 = 300000000000000000000000) by reflexivity.
  rewrite H1e in *.
  destruct (N.ltb_spec 300000000000000000000000 amountIn) as [|_]; [lia|].
  destruct (N.eqb_spec amountIn 0) as [|_]; [lia|].
  pose proof U256Facts.max_uint256_pos as Hmax.
  assert (Hbig : 300000000000000000000000 * 10000 <= MAX_UINT256) by le_compute.
  rewrite U256Facts.mul_ok
    by (change RouteOptimizer.PERCENTAGE_BASE with 10000; lia).
  cbn [rbind]. rewrite U256Facts.div_ok by lia. cbn [rbind].
  change RouteOptimizer.PERCENTAGE_BASE with 10000.
  replace (amountIn * 10000 / amountIn) with 10000
    by (rewrite N.mul_comm, N.div_mul; lia).
  rewrite RouteOptimizerFacts.expectedOutput_run
    by (cbn [RouteOptimizer.fee pool_info]; lia).
  cbn [rbind RouteOptimizer.fee pool_info]. unfold Alloc.expectedOutput_ppm.
  assert (Hout : (amountIn - amountIn * 3000 / 1000000) * 997 / 1000 <= amountIn).
  { apply (RouteOptimizerFacts.expectedOutput_le amountIn 3000). }
  rewrite U256Facts.add_ok by lia. cbn [rbind]. rewrite N.add_0_l.
  rewrite U256Facts.sub_ok by lia. cbn [rbind].
  rewrite U256Facts.add_ok by lia. cbn [rbind].
  rewrite N.sub_diag.
  destruct (map _ others);
    cbn [RouteOptimizer.optimizeRoute_loop RouteOptimizer.routeCount
         RouteOptimizer.remainingAmount RouteOptimizer.expectedAmountOut
         RouteOptimizer.routes andb];
    rewrite ?andb_false_r; reflexivity.
Qed.

(** ** The pool registry *)

Section RegistryFacts.
Context {World : Type} `{!Collaborators World}.

Lemma register_pool_lookup tokenA tokenB pool t x y :
  default [] (register_pool tokenA tokenB pool t !! (x, y)) =
    default [] (t !! (x, y))
    ++ (if decide ((x, y) = (tokenA, tokenB)) then [pool] else [])
    ++ (if decide ((x, y) = (tokenB, tokenA)) then [pool] else []).
Proof.
  unfold register_pool. cbv zeta.
  rewrite !lookup_insert.
  repeat case_decide; simplify_eq; cbn [default from_option id];
    rewrite ?app_nil_r, <- ?app_assoc; reflexivity.
Qed.

Lemma register_pool_symmetric tokenA tokenB pool t :
  symmetric_registry t -> symmetric_registry (register_pool tokenA tokenB pool t).
Proof.
  intros Hsym x y. rewrite !register_pool_lookup, (Hsym x y).
  destruct (decide ((x, y) = (tokenA, tokenB))) as [Hab|Hab];
    destruct (decide ((y, x) = (tokenB, tokenA))) as [Hab'|Hab']; try congruence;
    destruct (decide ((x, y) = (tokenB, tokenA))) as [Hba|Hba];
    destruct (decide ((y, x) = (tokenA, tokenB))) as [Hba'|Hba']; try congruence;
    reflexivity.
Qed.

Lemma insert_pair_symmetric (a b : address) (v : list address) t :
  symmetric_registry t ->
  symmetric_registry (<[ (b, a) := v ]> (<[ (a, b) := v ]> t)).
Proof.
  intros Hsym x y. rewrite !lookup_insert.
  repeat case_decide; simplify_eq; try reflexivity. apply Hsym.
Qed.

Lemma _initializePools_symmetric : symmetric_registry _initializePools.
Proof.
  unfold _initializePools. cbv zeta.
  do 3 apply insert_pair_symmetric.
  intros x y. rewrite !lookup_empty. reflexivity.
Qed.

Lemma addPool_owner tokenA tokenB pool env (s : State World) :
  owner s = msg_sender env ->
  addPool tokenA tokenB pool env s
    = Ok (tt, set_tokenPairPools (register_pool tokenA tokenB pool) s).
Proof.
  intros Ho. unfold addPool, onlyOwner, bind, ask, get, require, modify.
  rewrite Ho, N.eqb_refl. reflexivity.
Qed.

Lemma addPool_stranger tokenA tokenB pool env (s : State World) :
  owner s <> msg_sender env ->
  addPool tokenA tokenB pool env s
    = Err (Revert "Ownable: caller is not the owner").
Proof.
  intros Ho. unfold addPool, onlyOwner, bind, ask, get, require.
  destruct (N.eqb_spec (owner s) (msg_sender env)); [contradiction|reflexivity].
Qed.

Lemma registry_grows_symmetric t t' :
  registry_grows t t' -> symmetric_registry t -> symmetric_registry t'.
Proof.
  intros Hg Hsym. induction Hg; [exact Hsym | by apply register_pool_symmetric].
Qed.

(** Registrations only append. *)
Lemma registry_grows_prefix t t' x y :
  registry_grows t t' ->
  default [] (t !! (x, y)) `prefix_of` default [] (t' !! (x, y)).
Proof.
  intros Hg. induction Hg as [|t' a b p Hg IH]; [reflexivity|].
  etransitivity; [exact IH|]. rewrite register_pool_lookup. by eexists.
Qed.

Lemma registered_grows (s s' : State World) tokenIn tokenOut :
  registry_grows (tokenPairPools s) (tokenPairPools s') ->
  registered s tokenIn tokenOut <> [] -> registered s' tokenIn tokenOut <> [].
Proof.
  intros Hg Hne Hnil.
  destruct (registry_grows_prefix _ _ tokenIn tokenOut Hg) as [l Hl].
  unfold registered in *. rewrite Hl in Hnil.
  apply app_eq_nil in Hnil as [? _]. contradiction.
Qed.

(** A call only registers pools. *)
Lemma transact_registry tx env (s : State World) :
  registry_grows (tokenPairPools s) (tokenPairPools (transact tx env s)).
Proof.
  destruct tx as [params|c d|params nonce salt| |a b p|w]; cbn [transact].
  - unfold exec. destruct (protectedSwap params env s) as [[out s']|e] eqn:H;
      cbn [snd]; [|constructor].
    apply protectedSwap_ok_inv in H as (_ & _ & [_ _ _ _ _ Hp]). exact Hp.
  - unfold exec. destruct (commitOrder c d env s) as [[[] s']|e] eqn:H;
      cbn [snd]; [|constructor].
    apply commitOrder_ok_inv in H as (_ & ->). constructor.
  - unfold exec.
    destruct (revealAndExecute params nonce salt env s) as [[out s']|e] eqn:H;
      cbn [snd]; [|constructor].
    apply revealAndExecute_ok_inv in H as (_&_&_&_&_&_&_&_&_&_&_& Hp &_).
    exact Hp.
  - unfold exec. destruct (batchExecuteRevealed env s) as [[[] s']|e] eqn:H;
      cbn [snd]; [|constructor].
    apply batchExecuteRevealed_ok_inv in H as (_&_&_&_&_&_& -> &_). constructor.
  - unfold exec. destruct (addPool a b p env s) as [[[] s']|e] eqn:H;
      cbn [snd]; [|constructor].
    apply addPool_ok_inv in H as (_ & ->). cbn. do 2 constructor.
  - constructor.
Qed.

Lemma run_registry_symmetric history : forall (s : State World),
  symmetric_registry (tokenPairPools s) ->
  symmetric_registry (tokenPairPools (run history s)).
Proof.
  induction history as [|[env tx] rest IH]; intros s Hs; cbn [run]; [exact Hs|].
  eapply IH, registry_grows_symmetric; [apply transact_registry | exact Hs].
Qed.
End RegistryFacts.

(** X10. [addPool] is the owner's: from any other caller it aborts with
    "Ownable: caller is not the owner" and changes nothing. From the owner it
    appends the pool to the list of the pair in both directions (twice to the
    one list when the two tokens are the same, and again when the pool is
    already listed), leaves every other pair, the commitments, the retired
    hashes and the queue as they were, and emits no event. *)
Theorem addPool_registers_both_directions {World : Type} `{!Collaborators World}
    (tokenA tokenB pool : address) (env : Env) (s : State World) :
  (owner s <> msg_sender env ->
   exec (addPool tokenA tokenB pool) env s
     = (Err (Revert "Ownable: caller is not the owner"), s)) /\
  (owner s = msg_sender env ->
   exists s',
     exec (addPool tokenA tokenB pool) env s = (Ok tt, s') /\
     (tokenA <> tokenB ->
      registered s' tokenA tokenB = registered s tokenA tokenB ++ [pool] /\
      registered s' tokenB tokenA = registered s tokenB tokenA ++ [pool]) /\
     (tokenA = tokenB ->
      registered s' tokenA tokenA = registered s tokenA tokenA ++ [pool; pool]) /\
     (forall x y, (x, y) <> (tokenA, tokenB) -> (x, y) <> (tokenB, tokenA) ->
        registered s' x y = registered s x y) /\
     commitments s' = commitments s /\
     usedCommitments s' = usedCommitments s /\
     revealedOrders s' = revealedOrders s /\
     events s' = events s).
Proof.
  split.
  - intros Ho. apply exec_err, addPool_stranger, Ho.
  - intros Ho. eexists. split; [apply exec_ok, addPool_owner, Ho|].
    unfold registered. cbn [tokenPairPools set_tokenPairPools].
    split; [|split; [|split]].
    + intros Hne. rewrite !register_pool_lookup.
      repeat (destruct (decide _) as [?|?]; try congruence);
        rewrite ?app_nil_r; auto.
    + intros <-. rewrite register_pool_lookup.
      repeat (destruct (decide _) as [?|?]; try congruence). reflexivity.
    + intros x y Hab Hba. rewrite register_pool_lookup.
      repeat (destruct (decide _) as [?|?]; try congruence).
      rewrite !app_nil_r. reflexivity.
    + repeat split.
Qed.


(** ** Swaps *)

Section SwapFacts.
Context {World : Type} `{!Collaborators World}.

Lemma _executeMultiPathSwap_ok_inv params routes env (s : State World) out s' :
  _executeMultiPathSwap params routes env s = Ok (out, s') ->
  routes <> [] /\ called_back s s'.
Proof.
  intros H. pose proof (_executeMultiPathSwap_storage _ _ _ _ _ _ H) as Hst.
  unfold _executeMultiPathSwap in H. minv.
  split; [|exact Hst]. intros ->. discriminate.
Qed.

(** Without a registered pool the quote is empty. *)
Lemma getOptimalRoute_unregistered tokenIn tokenOut amountIn env (s : State World) :
  registered s tokenIn tokenOut = [] ->
  getOptimalRoute tokenIn tokenOut amountIn env s = Ok (([], 0), s).
Proof.
  intros Hreg. rewrite getOptimalRoute_unfold, Hreg. cbn [map].
  unfold RouteOptimizer.optimizeRoute. reflexivity.
Qed.

(** The pull of the native asset calls nobody. *)
Lemma pullFunds_native params env (s : State World) u s' :
  SwapParams.tokenIn params = 0 ->
  pullFunds params env s = Ok (u, s') -> s' = s.
Proof.
  intros Hin. unfold pullFunds. intros H. minv. rewrite Hin in H.
  cbn [N.eqb negb] in H. minv. reflexivity.
Qed.

(** From the pull to the last leg: the pair has a pool when the quote is
    read, and keeps it. *)
Lemma swap_steps params env (s0 s1 s2 : State World) routes expected out :
  pullFunds params env s0 = Ok (tt, s1) ->
  getOptimalRoute (SwapParams.tokenIn params) (SwapParams.tokenOut params)
    (SwapParams.amountIn params) env s1 = Ok ((routes, expected), s1) ->
  _executeMultiPathSwap params routes env s1 = Ok (out, s2) ->
  routes <> [] /\
  registered s2 (SwapParams.tokenIn params) (SwapParams.tokenOut params) <> [] /\
  (SwapParams.tokenIn params = 0 ->
   registered s0 (SwapParams.tokenIn params) (SwapParams.tokenOut params) <> []) /\
  called_back s0 s2.
Proof.
  intros Hpull Hroute Hexec.
  apply _executeMultiPathSwap_ok_inv in Hexec as (Hne & Hcb2).
  assert (Hreg1 : registered s1 (SwapParams.tokenIn params)
                    (SwapParams.tokenOut params) <> []).
  { intros Hreg. rewrite getOptimalRoute_unregistered in Hroute by exact Hreg.
    injection Hroute as <- _. contradiction. }
  split; [exact Hne|]. split; [|split].
  - destruct Hcb2 as ([_ _ _ _ _ Hp] & _). eapply registered_grows; eassumption.
  - intros Hin. rewrite <- (pullFunds_native _ _ _ _ _ Hin Hpull). exact Hreg1.
  - eapply called_back_trans; [eapply pullFunds_storage|]; eassumption.
Qed.

(** What a successful [protectedSwap] did. *)
Lemma protectedSwap_success params env (s : State World) out s' :
  protectedSwap params env s = Ok (out, s') ->
  block_timestamp env <= SwapParams.deadline params /\
  0 < SwapParams.amountIn params /\
  SwapParams.amountOutMin params <= out /\
  registered s' (SwapParams.tokenIn params) (SwapParams.tokenOut params) <> [] /\
  (SwapParams.tokenIn params = 0 ->
   registered s (SwapParams.tokenIn params) (SwapParams.tokenOut params) <> []) /\
  exists routes es,
    routes <> [] /\
    events s' =
      events s ++ es ++
      [SwapExecuted (msg_sender env) (SwapParams.tokenIn params)
         (SwapParams.tokenOut params) (SwapParams.amountIn params) out routes].
Proof.
  intros H. apply protectedSwap_steps in H
    as (_ & Hdl & Hamt & Hmin & s1 & s2 & routes & expected
        & Hpull & Hroute & _ & Hexec & ->).
  destruct (swap_steps _ _ _ _ _ _ _ _ Hpull Hroute Hexec)
    as (Hne & Hreg & Hnat & _ & _ & es & Hev).
  do 3 (split; [assumption|]). split; [exact Hreg|]. split; [exact Hnat|].
  exists routes, es. split; [exact Hne|].
  cbn [events set_locked] in *. rewrite Hev, <- app_assoc. reflexivity.
Qed.
End SwapFacts.

(** X8. A [protectedSwap] that returns has delivered: the amount it returns
    is at least [amountOutMin], the request was not past its deadline and for
    a positive amount, and the pair has a registered pool when the call ends.
    The lock is free again, the router and the queue are as before, and what
    else changed in storage is what the callbacks of the token and of the
    router did through [commitOrder] and [addPool]: hashes retired, slots
    overwritten with fresh commitments, pools registered. The events emitted
    before the call are kept, and the last event is [SwapExecuted] with the
    amount returned and a non-empty allocation; what lies between is emitted
    by the callbacks. *)
Theorem protectedSwap_postcondition {World : Type} `{!Collaborators World}
    (params : SwapParams.t) (env : Env) (s s' : State World) (amountOut : uint256) :
  exec (protectedSwap params) env s = (Ok amountOut, s') ->
  SwapParams.amountOutMin params <= amountOut /\
  block_timestamp env <= SwapParams.deadline params /\
  0 < SwapParams.amountIn params /\
  registered s' (SwapParams.tokenIn params) (SwapParams.tokenOut params) <> [] /\
  locked s = false /\ locked s' = false /\
  reentered s s' /\
  exists routes es,
    routes <> [] /\
    events s' =
      events s ++ es ++
      [SwapExecuted (msg_sender env) (SwapParams.tokenIn params)
         (SwapParams.tokenOut params) (SwapParams.amountIn params)
         amountOut routes].
Proof.
  intros H. apply exec_ok_inv in H.
  destruct (protectedSwap_success _ _ _ _ _ H)
    as (Hdl & Hamt & Hmin & Hreg & _ & Hev).
  destruct (protectedSwap_ok_inv _ _ _ _ _ H) as (Hl & Hl' & Hre).
  repeat (split; [assumption|]). exact Hev.
Qed.

(** X7. For a pair with no registered pool, a [protectedSwap] of the native
    asset never goes through: whatever the request, the caller and the
    collaborators do, the call aborts and leaves the state as it was. A swap
    of a token for such a pair goes through only when a pool was registered
    for the pair while the call was running, by an [addPool] of the owner
    called back from the token's transfer: the pair has a pool when the call
    returns. *)
Theorem protectedSwap_needs_a_pool {World : Type} `{!Collaborators World}
    (params : SwapParams.t) (env : Env) (s : State World) :
  registered s (SwapParams.tokenIn params) (SwapParams.tokenOut params) = [] ->
  (SwapParams.tokenIn params = 0 ->
   exists e, exec (protectedSwap params) env s = (Err e, s)) /\
  (forall out s',
     exec (protectedSwap params) env s = (Ok out, s') ->
     registered s' (SwapParams.tokenIn params) (SwapParams.tokenOut params) <> []).
Proof.
  intros Hreg. split.
  - intros Hin. unfold exec.
    destruct (protectedSwap params env s) as [[out s']|e] eqn:H; [|eauto].
    apply protectedSwap_success in H as (_ & _ & _ & _ & Hne & _).
    destruct (Hne Hin Hreg).
  - intros out s' H. apply exec_ok_inv in H.
    apply protectedSwap_success in H as (_ & _ & _ & Hne & _). exact Hne.
Qed.

Section SwapErrors.
Context {World : Type} `{!Collaborators World}.

(** What a successful [revealAndExecute] emitted. *)
Lemma revealAndExecute_events params nonce salt env (s : State World) out s' :
  revealAndExecute params nonce salt env s = Ok (out, s') ->
  exists routes es,
    routes <> [] /\
    events s' =
      events s ++
      [OrderRevealed (msg_sender env) (keccak256 (msg_sender env) params nonce salt)]
      ++ es ++
      [SwapExecuted (msg_sender env) (SwapParams.tokenIn params)
         (SwapParams.tokenOut params) (SwapParams.amountIn params) out routes].
Proof.
  intros H. apply revealAndExecute_steps in H
    as (_ & _ & _ & _ & _ & s1 & s2 & routes & expected
        & Hpull & Hroute & Hexec & ->).
  destruct (swap_steps _ _ _ _ _ _ _ _ Hpull Hroute Hexec)
    as (Hne & _ & _ & _ & _ & es & Hev).
  exists routes, es. split; [exact Hne|].
  cbn [events revealing] in *. rewrite Hev, <- !app_assoc. reflexivity.
Qed.
End SwapErrors.

(** X9. [protectedSwap] checks a request in this order, each failure leaving
    the state as it was: a deadline already past is "RouterDefense: expired
    deadline"; then an amount of zero is "RouterDefense: invalid amount"; then
    for the native asset ([tokenIn] zero) a [msg.value] other than [amountIn]
    is "RouterDefense: incorrect ETH amount", and for a token a transfer from
    the caller that fails (the call of the token reverts, in the state where
    the lock is taken) aborts the call. *)
Theorem protectedSwap_validation {World : Type} `{!Collaborators World}
    (params : SwapParams.t) (env : Env) (s : State World) :
  locked s = false ->
  (SwapParams.deadline params < block_timestamp env ->
   exec (protectedSwap params) env s
     = (Err (Revert "RouterDefense: expired deadline"), s)) /\
  (block_timestamp env <= SwapParams.deadline params ->
   SwapParams.amountIn params = 0 ->
   exec (protectedSwap params) env s
     = (Err (Revert "RouterDefense: invalid amount"), s)) /\
  (block_timestamp env <= SwapParams.deadline params ->
   0 < SwapParams.amountIn params ->
   SwapParams.tokenIn params = 0 ->
   msg_value env <> SwapParams.amountIn params ->
   exec (protectedSwap params) env s
     = (Err (Revert "RouterDefense: incorrect ETH amount"), s)) /\
  (block_timestamp env <= SwapParams.deadline params ->
   0 < SwapParams.amountIn params ->
   SwapParams.tokenIn params <> 0 ->
   call_safeTransferFrom (SwapParams.tokenIn params) (msg_sender env)
     (this env) (SwapParams.amountIn params) env (set_locked true s)
     = Err CallFailed ->
   exec (protectedSwap params) env s = (Err CallFailed, s)).
Proof.
  intros Hl.
  assert (Hhead : forall e,
    (do env0 <- ask;
     require (block_timestamp env0 <=? SwapParams.deadline params)
       "RouterDefense: expired deadline" ;;
     require (0 <? SwapParams.amountIn params) "RouterDefense: invalid amount" ;;
     pullFunds params ;;
     ret tt) env (set_locked true s) = Err e ->
    exec (protectedSwap params) env s = (Err e, s)).
  { intros e He. apply exec_err.
    unfold protectedSwap, nonReentrant, bind, get, ask, require, modify in *.
    rewrite Hl. cbn [negb].
    destruct (block_timestamp env <=? SwapParams.deadline params);
      [|congruence].
    destruct (0 <? SwapParams.amountIn params); [|congruence].
    destruct (pullFunds params env (set_locked true s)) as [[u s1]|e1];
      [discriminate | congruence]. }
  repeat split.
  - intros Hexp. apply Hhead. unfold bind, ask, require.
    destruct (N.leb_spec (block_timestamp env) (SwapParams.deadline params));
      [lia | reflexivity].
  - intros Hdl Hzero. apply Hhead. unfold bind, ask, require.
    destruct (N.leb_spec (block_timestamp env) (SwapParams.deadline params));
      [|lia].
    rewrite Hzero. reflexivity.
  - intros Hdl Hpos Heth Hval. apply Hhead. unfold bind, ask, require.
    destruct (N.leb_spec (block_timestamp env) (SwapParams.deadline params));
      [|lia].
    destruct (N.ltb_spec 0 (SwapParams.amountIn params)); [|lia].
    unfold pullFunds, bind, ask, require. rewrite Heth. cbn [N.eqb negb].
    destruct (N.eqb_spec (msg_value env) (SwapParams.amountIn params));
      [contradiction | reflexivity].
  - intros Hdl Hpos Htok Hfail. apply Hhead. unfold bind, ask, require.
    destruct (N.leb_spec (block_timestamp env) (SwapParams.deadline params));
      [|lia].
    destruct (N.ltb_spec 0 (SwapParams.amountIn params)); [|lia].
    assert (Hp : pullFunds params env (set_locked true s) = Err CallFailed).
    { unfold pullFunds, bind, ask.
      destruct (N.eqb_spec (SwapParams.tokenIn params) 0); [contradiction|].
      exact Hfail. }
    rewrite Hp. reflexivity.
Qed.

(** X17. [revealAndExecute] checks a reveal in this order, each failure
    leaving the state as it was: parameters, nonce or salt whose hash is not
    the caller's stored commitment are "RouterDefense: invalid reveal"; a
    commitment already revealed is "RouterDefense: already revealed"; one
    already executed is "RouterDefense: already executed"; and one whose
    deadline has passed is "RouterDefense: commitment expired". *)
Theorem revealAndExecute_validation {World : Type} `{!Collaborators World}
    (params : SwapParams.t) (nonce : uint256) (salt : bytes32) (env : Env)
    (s : State World) :
  locked s = false ->
  let order := commitments s !!! msg_sender env in
  let h := keccak256 (msg_sender env) params nonce salt in
  (CommitRevealOrder.commitment order <> h ->
   exec (revealAndExecute params nonce salt) env s
     = (Err (Revert "RouterDefense: invalid reveal"), s)) /\
  (CommitRevealOrder.commitment order = h ->
   CommitRevealOrder.revealed order = true ->
   exec (revealAndExecute params nonce salt) env s
     = (Err (Revert "RouterDefense: already revealed"), s)) /\
  (CommitRevealOrder.commitment order = h ->
   CommitRevealOrder.revealed order = false ->
   CommitRevealOrder.executed order = true ->
   exec (revealAndExecute params nonce salt) env s
     = (Err (Revert "RouterDefense: already executed"), s)) /\
  (CommitRevealOrder.commitment order = h ->
   CommitRevealOrder.revealed order = false ->
   CommitRevealOrder.executed order = false ->
   CommitRevealOrder.deadline order < block_timestamp env ->
   exec (revealAndExecute params nonce salt) env s
     = (Err (Revert "RouterDefense: commitment expired"), s)).
Proof.
  intros Hl. cbv zeta. repeat split; intros; apply exec_err.
  - by apply revealAndExecute_invalid.
  - by apply revealAndExecute_already.
  - by apply revealAndExecute_executed.
  - by apply revealAndExecute_expired.
Qed.

(** X16. A [revealAndExecute] that returns found the caller's commitment
    matching, unrevealed, unexecuted and within its deadline, and leaves the
    caller's slot executed, so that no batch has anything to settle for it:
    the slot holds the commitment revealed and executed, or, when the caller
    committed again from a callback while the reveal was running, the fresh
    commitment of that callback, unrevealed and marked executed. It appended
    the caller to the queue; the other slots are as they were or overwritten
    by callbacks with fresh commitments, and no retired hash is revived. It
    emitted [OrderRevealed] first and [SwapExecuted] with the amount
    returned last; what lies between is emitted by the callbacks. *)
Theorem revealAndExecute_postcondition {World : Type} `{!Collaborators World}
    (params : SwapParams.t) (nonce : uint256) (salt : bytes32) (env : Env)
    (s s' : State World) (amountOut : uint256) :
  exec (revealAndExecute params nonce salt) env s = (Ok amountOut, s') ->
  let order := commitments s !!! msg_sender env in
  let h := keccak256 (msg_sender env) params nonce salt in
  CommitRevealOrder.commitment order = h /\
  CommitRevealOrder.revealed order = false /\
  CommitRevealOrder.executed order = false /\
  block_timestamp env <= CommitRevealOrder.deadline order /\
  (commitments s' !!! msg_sender env
     = CommitRevealOrder.mk h (CommitRevealOrder.deadline order) true true \/
   exists c d,
     c <> 0 /\ (c ∉ usedCommitments s) /\ c ∈ usedCommitments s' /\
     commitments s' !!! msg_sender env = CommitRevealOrder.mk c d false true) /\
  CommitRevealOrder.executed (commitments s' !!! msg_sender env) = true /\
  (forall now, Ledger.settleable (commitments s' !!! msg_sender env) now = false) /\
  (forall u, u <> msg_sender env ->
     commitments s' !!! u = commitments s !!! u \/
     exists c d,
       c <> 0 /\ (c ∉ usedCommitments s) /\ c ∈ usedCommitments s' /\
       commitments s' !!! u = CommitRevealOrder.mk c d false false) /\
  revealedOrders s' = revealedOrders s ++ [msg_sender env] /\
  usedCommitments s ⊆ usedCommitments s' /\
  exists routes es,
    routes <> [] /\
    events s' =
      events s ++ [OrderRevealed (msg_sender env) h] ++ es ++
      [SwapExecuted (msg_sender env) (SwapParams.tokenIn params)
         (SwapParams.tokenOut params) (SwapParams.amountIn params)
         amountOut routes].
Proof.
  intros H. apply exec_ok_inv in H. cbv zeta.
  pose proof (revealAndExecute_events _ _ _ _ _ _ _ H) as Hev.
  apply revealAndExecute_ok_inv in H
    as (_ & _ & Hh & Hrev & Hexe & Hdl & Hown & Hothers & Hsub & _ & Hq & _).
  split; [exact Hh|]. split; [exact Hrev|]. split; [exact Hexe|].
  split; [exact Hdl|]. rewrite <- Hh.
  split; [exact Hown|].
  assert (Hdone : CommitRevealOrder.executed (commitments s' !!! msg_sender env)
                  = true).
  { destruct Hown as [->|(c & d & _ & _ & _ & ->)]; reflexivity. }
  split; [exact Hdone|]. split.
  { intros now. unfold Ledger.settleable. rewrite Hdone. cbn [negb].
    rewrite andb_false_r. reflexivity. }
  split; [exact Hothers|]. split; [exact Hq|]. split; [exact Hsub|].
  rewrite Hh. exact Hev.
Qed.

(** ** What holds in every state the contract reaches *)

Section ReachableFacts.
Context {World : Type} `{!Collaborators World}.

Lemma run_app h1 h2 (s : State World) : run (h1 ++ h2) s = run h2 (run h1 s).
Proof.
  revert s. induction h1 as [|[env tx] rest IH]; intros s; [reflexivity|].
  cbn [app run]. apply IH.
Qed.

Lemma slot_step_settled now used o o' :
  Ledger.slot_step now used o o' ->
  (CommitRevealOrder.revealed o = true -> CommitRevealOrder.executed o = true) ->
  CommitRevealOrder.revealed o' = true -> CommitRevealOrder.executed o' = true.
Proof. intros Hstep Ho. destruct Hstep; cbn; auto; discriminate. Qed.

Lemma run_settled history : forall (s : State World),
  (forall u, CommitRevealOrder.revealed (commitments s !!! u) = true ->
             CommitRevealOrder.executed (commitments s !!! u) = true) ->
  forall u, CommitRevealOrder.revealed (commitments (run history s) !!! u) = true ->
            CommitRevealOrder.executed (commitments (run history s) !!! u) = true.
Proof.
  induction history as [|[env tx] rest IH]; intros s Hs; cbn [run]; [exact Hs|].
  apply IH. intros u.
  eapply slot_step_settled; [apply transact_slot_step | apply Hs].
Qed.

Lemma constructor_settled deployer router (w : World) u :
  CommitRevealOrder.revealed (commitments (constructor deployer router w) !!! u) = true ->
  CommitRevealOrder.executed (commitments (constructor deployer router w) !!! u) = true.
Proof. cbn. rewrite lookup_total_empty. discriminate. Qed.

(** With nothing to settle the loop changes nothing. *)
Lemma batch_loop_idle now cm :
  (forall u, Ledger.settleable (cm !!! u) now = false) ->
  forall queue e, batch_loop now queue cm e = (cm, e).
Proof.
  intros Hnone. induction queue as [|user rest IH]; intros e; [reflexivity|].
  cbn [batch_loop]. destruct (e <? MAX_BATCH_SIZE); [|reflexivity].
  change (CommitRevealOrder.revealed (cm !!! user)
          && negb (CommitRevealOrder.executed (cm !!! user))
          && (now <=? CommitRevealOrder.deadline (cm !!! user)))
    with (Ledger.settleable (cm !!! user) now).
  rewrite Hnone. apply IH.
Qed.

Lemma settled_not_settleable (o : CommitRevealOrder.t) now :
  (CommitRevealOrder.revealed o = true -> CommitRevealOrder.executed o = true) ->
  Ledger.settleable o now = false.
Proof.
  intros Ho. unfold Ledger.settleable.
  destruct (CommitRevealOrder.revealed o); [|reflexivity].
  rewrite Ho by reflexivity. reflexivity.
Qed.

Lemma batch_idle env (s : State World) :
  (forall u, CommitRevealOrder.revealed (commitments s !!! u) = true ->
             CommitRevealOrder.executed (commitments s !!! u) = true) ->
  commitments (snd (exec batchExecuteRevealed env s)) = commitments s /\
  revealedOrders (snd (exec batchExecuteRevealed env s)) = revealedOrders s /\
  (events (snd (exec batchExecuteRevealed env s)) = events s \/
   events (snd (exec batchExecuteRevealed env s)) = events s ++ [BatchExecuted 0 0]).
Proof.
  intros Hs. unfold exec.
  destruct (batchExecuteRevealed env s) as [[[] s']|e] eqn:H; cbn [snd]; [|auto].
  apply batchExecuteRevealed_ok_inv in H
    as (_ & _ & _ & Hcm & Hq & _ & _ & _ & _ & Hev).
  rewrite batch_loop_idle in Hcm, Hq, Hev
    by (intros u; apply settled_not_settleable, Hs).
  cbn [fst snd] in *. auto.
Qed.

(** On a state where every revealed slot is executed, a call only appends to
    the queue. *)
Lemma transact_queue tx env (s : State World) :
  (forall u, CommitRevealOrder.revealed (commitments s !!! u) = true ->
             CommitRevealOrder.executed (commitments s !!! u) = true) ->
  revealedOrders s `prefix_of` revealedOrders (transact tx env s).
Proof.
  intros Hs.
  destruct tx as [params|c d|params nonce salt| |a b p|w]; cbn [transact].
  - unfold exec. destruct (protectedSwap params env s) as [[out s']|e] eqn:H;
      cbn [snd]; [|reflexivity].
    apply protectedSwap_ok_inv in H as (_ & _ & [_ -> _ _ _ _]). reflexivity.
  - unfold exec. destruct (commitOrder c d env s) as [[[] s']|e] eqn:H;
      cbn [snd]; [|reflexivity].
    apply commitOrder_ok_inv in H as (_ & ->). reflexivity.
  - unfold exec.
    destruct (revealAndExecute params nonce salt env s) as [[out s']|e] eqn:H;
      cbn [snd]; [|reflexivity].
    apply revealAndExecute_ok_inv in H as (_&_&_&_&_&_&_&_&_&_& -> &_).
    apply prefix_app_r. reflexivity.
  - destruct (batch_idle env s Hs) as (_ & -> & _). reflexivity.
  - unfold exec. destruct (addPool a b p env s) as [[[] s']|e] eqn:H;
      cbn [snd]; [|reflexivity].
    apply addPool_ok_inv in H as (_ & ->). reflexivity.
  - reflexivity.
Qed.

Lemma run_queue history : forall (s : State World),
  (forall u, CommitRevealOrder.revealed (commitments s !!! u) = true ->
             CommitRevealOrder.executed (commitments s !!! u) = true) ->
  revealedOrders s `prefix_of` revealedOrders (run history s).
Proof.
  induction history as [|[env tx] rest IH]; intros s Hs; cbn [run]; [reflexivity|].
  etransitivity; [apply transact_queue, Hs|].
  apply IH. intros u.
  eapply slot_step_settled; [apply transact_slot_step | apply Hs].
Qed.
End ReachableFacts.

(** X11. In every state the contract reaches from its construction, a slot
    that is revealed is executed: [revealAndExecute] does both in one call.
    So [batchExecuteRevealed] finds nothing to settle there: whenever and by
    whomever it is called, it changes no commitment and leaves the queue as
    it is, and the only event it can emit is [BatchExecuted(0, 0)]. *)
Theorem batch_settles_nothing_reachable {World : Type} `{!Collaborators World}
    (deployer router : address) (w : World) (history : list (Env * Tx))
    (env : Env) :
  let s := run history (constructor deployer router w) in
  let s' := snd (exec batchExecuteRevealed env s) in
  (forall u, CommitRevealOrder.revealed (commitments s !!! u) = true ->
             CommitRevealOrder.executed (commitments s !!! u) = true) /\
  commitments s' = commitments s /\
  revealedOrders s' = revealedOrders s /\
  (events s' = events s \/ events s' = events s ++ [BatchExecuted 0 0]).
Proof.
  cbv zeta.
  assert (Hs : forall u,
    CommitRevealOrder.revealed
      (commitments (run history (constructor deployer router w)) !!! u) = true ->
    CommitRevealOrder.executed
      (commitments (run history (constructor deployer router w)) !!! u) = true).
  { apply run_settled. intros u. apply constructor_settled. }
  split; [exact Hs|]. apply batch_idle, Hs.
Qed.

(** X12. In the states the contract reaches, the revealed queue is
    append-only: whatever calls follow, the queue of before is a prefix of
    the queue of after, so no entry is ever removed or reordered and
    [getRevealedOrdersCount] never decreases. *)
Theorem revealedOrders_append_only {World : Type} `{!Collaborators World}
    (deployer router : address) (w : World) (past future : list (Env * Tx)) :
  let s := run past (constructor deployer router w) in
  revealedOrders s `prefix_of` revealedOrders (run future s) /\
  forall env env' n n',
    fst (exec getRevealedOrdersCount env s) = Ok n ->
    fst (exec getRevealedOrdersCount env' (run future s)) = Ok n' ->
    n <= n'.
Proof.
  cbv zeta.
  assert (Hpre : revealedOrders (run past (constructor deployer router w))
                 `prefix_of`
                 revealedOrders (run future (run past (constructor deployer router w)))).
  { apply run_queue, run_settled. intros u. apply constructor_settled. }
  split; [exact Hpre|]. intros env env' n n'. cbn. intros [= <-] [= <-].
  apply prefix_length in Hpre. lia.
Qed.

(** X13. In every state the contract reaches, the hash stored in a slot is
    zero (the slot was never written) or retired in [usedCommitments]: no
    commitment in storage can be committed again, by anyone. *)
Theorem stored_hashes_are_retired {World : Type} `{!Collaborators World}
    (deployer router : address) (w : World) (history : list (Env * Tx))
    (u : address) :
  let s := run history (constructor deployer router w) in
  let h := CommitRevealOrder.commitment (commitments s !!! u) in
  (h = 0 \/ h ∈ usedCommitments s) /\
  forall env d, exists e, exec (commitOrder h d) env s = (Err e, s).
Proof.
  cbv zeta.
  assert (Hret :
    CommitRevealOrder.commitment
      (commitments (run history (constructor deployer router w)) !!! u) = 0 \/
    CommitRevealOrder.commitment
      (commitments (run history (constructor deployer router w)) !!! u)
      ∈ usedCommitments (run history (constructor deployer router w))).
  { apply run_slots_retired. intros v. left. cbn. rewrite lookup_total_empty.
    reflexivity. }
  split; [exact Hret|]. intros env d.
  destruct Hret as [->|Hin].
  - eexists. apply exec_err, commitOrder_zero.
  - destruct (decide (CommitRevealOrder.commitment
                        (commitments (run history (constructor deployer router w))
                           !!! u) = 0)) as [->|Hnz].
    + eexists. apply exec_err, commitOrder_zero.
    + eexists. apply exec_err, commitOrder_used; assumption.
Qed.

(** X14. In every state the contract reaches, a pair has the same pools
    registered in both directions, and the quote is the same both ways:
    [getOptimalRoute] from [tokenOut] to [tokenIn] returns the routes it
    returns from [tokenIn] to [tokenOut] with the two tokens exchanged, and
    the same expected output. *)
Theorem getOptimalRoute_direction_blind {World : Type} `{!Collaborators World}
    (deployer router : address) (w : World) (history : list (Env * Tx))
    (tokenIn tokenOut : address) (amountIn : uint256) (env : Env) :
  let s := run history (constructor deployer router w) in
  registered s tokenOut tokenIn = registered s tokenIn tokenOut /\
  getOptimalRoute tokenOut tokenIn amountIn env s
    = match getOptimalRoute tokenIn tokenOut amountIn env s with
      | Ok (q, s0) => Ok ((map Quote.flip (fst q), snd q), s0)
      | Err e => Err e
      end.
Proof.
  cbv zeta.
  assert (Hsym : registered (run history (constructor deployer router w))
                   tokenOut tokenIn
                 = registered (run history (constructor deployer router w))
                     tokenIn tokenOut).
  { exact (run_registry_symmetric history (constructor deployer router w)
             _initializePools_symmetric tokenOut tokenIn). }
  split; [exact Hsym|].
  rewrite !getOptimalRoute_unfold, Hsym.
  rewrite (map_ext _ _ (pool_info_sym tokenIn tokenOut)).
  unfold RouteOptimizer.optimizeRoute.
  change (RouteOptimizer.optimizeRoute_init amountIn)
    with (Quote.flip_vars (RouteOptimizer.optimizeRoute_init amountIn)) at 1.
  rewrite SymmetryFacts.loop_flip.
  destruct (RouteOptimizer.optimizeRoute_loop tokenIn tokenOut amountIn _ _)
    as [v|e]; [|reflexivity].
  cbn [rmap rbind fst snd Quote.flip_vars RouteOptimizer.routes
       RouteOptimizer.routeCount RouteOptimizer.expectedAmountOut].
  rewrite fmap_take. reflexivity.
Qed.

Section AllocationFacts.
Context {World : Type} `{!Collaborators World}.

(** A leg executed from a percentage is at most the leg allocated. *)
Lemma planned_within_legs amountIn (ls : list uint256) :
  forall remaining,
  sumN (Legs.planned amountIn (map (fun a => a * 10000 / amountIn) ls) remaining)
    <= sumN ls.
Proof.
  induction ls as [|a ls IH]; intros remaining; cbn [map Legs.planned sumN];
    [lia|].
  destruct (remaining =? 0); [cbn [sumN]; lia|].
  assert (Hleg : amountIn * (a * 10000 / amountIn) / 10000 <= a).
  { apply N.Div0.div_le_upper_bound.
    pose proof (N.Div0.mul_div_le (a * 10000) amountIn). lia. }
  destruct (0 <? _).
  - cbn [sumN].
    specialize (IH (remaining
                    - N.min (amountIn * (a * 10000 / amountIn) / 10000) remaining)).
    lia.
  - specialize (IH remaining). lia.
Qed.
End AllocationFacts.

(** X15. Executing the allocation that [optimizeRoute] returned never spends
    more than was allocated: the swaps [_executeMultiPathSwap] makes for the
    routes sum to at most the sum of the legs of the allocation, itself at
    most [amountIn]; what truncation of the percentages leaves over stays
    unspent. *)
Theorem execution_within_allocation {World : Type} `{!Collaborators World}
    (params : SwapParams.t) (pools : list RouteOptimizer.PoolInfo)
    (routes : list Route.t) (expectedAmountOut : uint256) (env : Env)
    (s s' : State World) (totalAmountOut : uint256) :
  RouteOptimizer.optimizeRoute (SwapParams.tokenIn params)
    (SwapParams.tokenOut params) (SwapParams.amountIn params) pools
    = Ok (routes, expectedAmountOut) ->
  _executeMultiPathSwap params routes env s = Ok (totalAmountOut, s') ->
  exists legs spent : list uint256,
    RouteOptimizer.optimizeRoute_legs (SwapParams.tokenIn params)
      (SwapParams.tokenOut params) (SwapParams.amountIn params) pools = Ok legs /\
    Legs.swap_amounts (calls s') = Legs.swap_amounts (calls s) ++ spent /\
    sumN spent <= sumN legs /\
    sumN legs <= SwapParams.amountIn params.
Proof.
  intros Hopt Hexec.
  unfold RouteOptimizer.optimizeRoute, RouteOptimizer.optimizeRoute_legs in *.
  apply QuoteFacts.rbind_ok in Hopt as (v & Hrun & [= <- <-]).
  rewrite Hrun. cbn [rbind].
  destruct (QuoteFacts.loop_ok_inv _ _ _ _ _ _ Hrun
              (RouteOptimizerFacts.inv_init _)
              (QuoteFacts.stamped_init _ _ _))
    as [[Hcnt Hbnd Hcells Hpct Hsum Hout] _].
  rewrite Hcnt, Nat2N.id in *.
  unfold _executeMultiPathSwap in Hexec. minv.
  apply _executeMultiPathSwap_loop_calls in Hexec.
  rewrite (RouteOptimizerFacts.percentages_of_legs _ _ _ Hpct) in Hexec.
  exists (RouteOptimizer.legs v). eexists.
  split; [reflexivity|]. split; [exact Hexec|].
  split; [apply planned_within_legs | lia].
Qed.

Section CallFacts.
Context {World : Type} `{!Collaborators World}.

Lemma pullFunds_calls params env (s : State World) u s' :
  pullFunds params env s = Ok (u, s') ->
  calls s' = calls s ++ pull_calls params env.
Proof.
  unfold pullFunds, pull_calls. intros H. minv.
  destruct (SwapParams.tokenIn params =? 0); cbn [negb] in H.
  - minv. rewrite app_nil_r. reflexivity.
  - apply call_safeTransferFrom_inv in H as [_ ->]. reflexivity.
Qed.

Lemma _executeSingleRoute_leg_calls route amountIn recipient deadline env
    (s : State World) out s' :
  _executeSingleRoute route amountIn recipient deadline env s = Ok (out, s') ->
  exists new,
    calls s' = calls s ++ new /\
    Forall (leg_call (swapRouter s) recipient deadline) new /\
    swapRouter s' = swapRouter s.
Proof.
  intros H.
  pose proof (_executeSingleRoute_storage _ _ _ _ _ _ _ _ H) as ([Hr _ _ _ _ _] & _).
  unfold _executeSingleRoute in H. minv.
  assert (Hweth : _getWETH <> 0) by discriminate.
  assert (Hout : (if Route.tokenOut route =? 0 then _getWETH
                  else Route.tokenOut route) <> 0).
  { destruct (N.eqb_spec (Route.tokenOut route) 0); assumption. }
  destruct (N.eqb_spec (Route.tokenIn route) 0) as [Hin|Hin]; cbn [negb] in *.
  - minv. apply call_exactInputSingle_inv in H as [_ Hc].
    eexists. split; [exact Hc|]. split; [|exact Hr].
    constructor; [|constructor]. cbn. repeat split; auto.
  - match goal with H : call_safeApprove _ _ _ _ _ = Ok _ |- _ =>
      apply call_safeApprove_inv in H as [_ Hc1] end.
    apply call_exactInputSingle_inv in H as [_ Hc2].
    eexists. split; [rewrite Hc2, Hc1, <- app_assoc; reflexivity|].
    split; [|exact Hr].
    constructor; [cbn; auto|]. constructor; [|constructor].
    cbn. repeat split; auto.
Qed.

Lemma _executeMultiPathSwap_loop_leg_calls params routes :
  forall remaining total env (s : State World) out s',
  _executeMultiPathSwap_loop params routes remaining total env s = Ok (out, s') ->
  exists new,
    calls s' = calls s ++ new /\
    Forall (leg_call (swapRouter s) (SwapParams.recipient params)
              (SwapParams.deadline params)) new.
Proof.
  induction routes as [|route rest IH]; intros remaining total env s out s' H.
  - cbn in H. minv. exists []. rewrite app_nil_r. auto.
  - cbn [_executeMultiPathSwap_loop] in H.
    destruct (remaining =? 0).
    { minv. exists []. rewrite app_nil_r. auto. }
    minv. destruct (0 <? _); [|eauto].
    minv.
    match goal with H : _executeSingleRoute _ _ _ _ _ _ = Ok _ |- _ =>
      apply _executeSingleRoute_leg_calls in H as (new1 & Hc1 & Hf1 & Hr) end.
    apply IH in H as (new2 & Hc2 & Hf2). rewrite Hr in Hf2.
    exists (new1 ++ new2). split.
    + rewrite Hc2, Hc1, <- app_assoc. reflexivity.
    + apply Forall_app. auto.
Qed.
End CallFacts.

(** X18. The external calls of a [protectedSwap] that returns are, in order:
    the pull, one [transferFrom] of exactly [amountIn] from the caller to the
    contract for a token and none for the native asset; then, for the legs,
    only approvals of the swap router and swaps that pay the recipient of the
    request with no minimum output of their own. The contract never moves
    tokens of anyone but the caller, and never more than once. *)
Theorem protectedSwap_external_calls {World : Type} `{!Collaborators World}
    (params : SwapParams.t) (env : Env) (s s' : State World) (amountOut : uint256) :
  exec (protectedSwap params) env s = (Ok amountOut, s') ->
  exists legs : list ExtCall,
    calls s' = calls s ++ pull_calls params env ++ legs /\
    Forall (leg_call (swapRouter s) (SwapParams.recipient params)
              (SwapParams.deadline params)) legs.
Proof.
  intros H. apply exec_ok_inv in H. unfold protectedSwap in H.
  apply nonReentrant_ok_inv in H as (Hlock & s1 & H & ->).
  minv.
  match goal with x : (list Route.t * N)%type |- _ => destruct x as [routes expected] end.
  minv.
  match goal with H : pullFunds _ _ _ = Ok _ |- _ =>
    pose proof (pullFunds_calls _ _ _ _ _ H) as Hc1;
    apply pullFunds_storage in H as ([Hr _ _ _ _ _] & _) end.
  match goal with H : getOptimalRoute _ _ _ _ _ = Ok _ |- _ =>
    pose proof (getOptimalRoute_view _ _ _ _ _ _ _ H); subst end.
  match goal with H : _executeMultiPathSwap _ _ _ _ = Ok _ |- _ =>
    unfold _executeMultiPathSwap in H; minv;
    apply _executeMultiPathSwap_loop_leg_calls in H as (legs & Hc2 & Hf) end.
  exists legs. cbn [calls set_locked swapRouter] in *.
  split; [rewrite Hc2, Hc1, <- app_assoc; reflexivity|].
  rewrite Hr in Hf. exact Hf.
Qed.

(** ** The queue and the batch *)

Section QueueFacts.
Context {World : Type} `{!Collaborators World}.

(** Marking changes a slot that can be settled. *)
Lemma settleable_marked (o : CommitRevealOrder.t) now :
  Ledger.settleable o now = true -> CommitRevealOrder.set_executed true o <> o.
Proof.
  unfold Ledger.settleable. intros Hs Heq.
  assert (He : CommitRevealOrder.executed (CommitRevealOrder.set_executed true o)
               = CommitRevealOrder.executed o) by (rewrite Heq; reflexivity).
  cbn in He. rewrite <- He in Hs.
  destruct (CommitRevealOrder.revealed o); discriminate.
Qed.

(** The loop marks in queue order: an entry is marked only when every entry
    before its first occurrence that can be settled is marked too. *)
Lemma batch_loop_fifo now queue :
  forall cm e cm' e',
  batch_loop now queue cm e = (cm', e') ->
  forall l1 u l2,
  queue = l1 ++ u :: l2 -> u ∉ l1 ->
  cm' !!! u <> cm !!! u ->
  forall v, v ∈ l1 -> Ledger.settleable (cm !!! v) now = true ->
  cm' !!! v = CommitRevealOrder.set_executed true (cm !!! v).
Proof.
  induction queue as [|x rest IH]; intros cm e cm' e' H l1 u l2 Hq Hu Hch v Hv Hsv.
  - destruct l1; discriminate.
  - destruct l1 as [|y l1']; [inversion Hv|].
    injection Hq as <- Hrest.
    apply not_elem_of_cons in Hu as [Hux Hu].
    cbn [batch_loop] in H.
    destruct (e <? MAX_BATCH_SIZE); [|injection H as <- <-; contradiction].
    change (CommitRevealOrder.revealed (cm !!! x)
            && negb (CommitRevealOrder.executed (cm !!! x))
            && (now <=? CommitRevealOrder.deadline (cm !!! x)))
      with (Ledger.settleable (cm !!! x) now) in H.
    destruct (Ledger.settleable (cm !!! x) now) eqn:Hsx.
    + pose proof (batch_loop_slot _ _ _ _ _ _ x H) as Hx.
      rewrite lookup_total_insert_eq, set_executed_not_settleable in Hx.
      destruct Hx as [Hx|[? _]]; [|discriminate].
      apply elem_of_cons in Hv as [->|Hv]; [exact Hx|].
      destruct (decide (v = x)) as [->|Hvx]; [exact Hx|].
      rewrite <- (lookup_total_insert_ne cm x v
                    (CommitRevealOrder.set_executed true (cm !!! x)))
        by congruence.
      eapply (IH _ _ _ _ H l1' u l2 Hrest Hu); [|exact Hv|].
      * rewrite lookup_total_insert_ne by congruence. exact Hch.
      * rewrite lookup_total_insert_ne by congruence. exact Hsv.
    + apply elem_of_cons in Hv as [->|Hv]; [congruence|].
      eapply (IH _ _ _ _ H l1' u l2 Hrest Hu); eassumption.
Qed.

(** Batch calls on a state with nothing to settle. *)
Lemma run_batches_idle (callers : list Env) : forall (s : State World),
  (forall u, CommitRevealOrder.revealed (commitments s !!! u) = true ->
             CommitRevealOrder.executed (commitments s !!! u) = true) ->
  commitments (run (map (fun env => (env, TxBatchExecuteRevealed)) callers) s)
    = commitments s /\
  revealedOrders (run (map (fun env => (env, TxBatchExecuteRevealed)) callers) s)
    = revealedOrders s.
Proof.
  induction callers as [|env rest IH]; intros s Hs; cbn [map run]; [auto|].
  destruct (batch_idle env s Hs) as (Hcm & Hq & _). cbn [transact].
  destruct (IH (snd (exec batchExecuteRevealed env s))) as [-> ->]; [|auto].
  rewrite Hcm. exact Hs.
Qed.
End QueueFacts.

(** X19. [batchExecuteRevealed] visits the revealed queue in insertion order
    and marks at most [MAX_BATCH_SIZE] entries per call: the entries it marks
    are revealed, unexecuted and within their deadline, and an entry is
    marked only when every such entry queued before it is marked as well.
    In the states the contract reaches from its construction no queued entry
    is left to settle, because [revealAndExecute] executes an order in the
    call that queues it: whoever calls [batchExecuteRevealed] there, and
    however often, the commitments and the queue stay as they are, whatever
    the length of the queue. *)
Theorem batch_in_order_and_idle {World : Type} `{!Collaborators World} :
  (forall (env : Env) (s : State World),
     let s' := snd (exec batchExecuteRevealed env s) in
     exists marked : list address,
       NoDup marked /\
       (length marked <= N.to_nat MAX_BATCH_SIZE)%nat /\
       (forall u, u ∈ marked ->
          u ∈ revealedOrders s /\
          Ledger.settleable (commitments s !!! u) (block_timestamp env) = true /\
          commitments s' !!! u
            = CommitRevealOrder.set_executed true (commitments s !!! u)) /\
       (forall u, u ∉ marked -> commitments s' !!! u = commitments s !!! u) /\
       (forall l1 u l2,
          revealedOrders s = l1 ++ u :: l2 -> u ∉ l1 -> u ∈ marked ->
          forall v, v ∈ l1 ->
            Ledger.settleable (commitments s !!! v) (block_timestamp env) = true ->
            v ∈ marked)) /\
  (forall (deployer router : address) (w : World) (history : list (Env * Tx))
          (callers : list Env),
     let s := run history (constructor deployer router w) in
     let s' := run (map (fun env => (env, TxBatchExecuteRevealed)) callers) s in
     (forall u now, Ledger.settleable (commitments s !!! u) now = false) /\
     commitments s' = commitments s /\
     revealedOrders s' = revealedOrders s).
Proof.
  split.
  - intros env s. cbv zeta. unfold exec.
    destruct (batchExecuteRevealed env s) as [[[] s']|e] eqn:H; cbn [snd].
    2:{ exists []. split; [constructor|]. split; [simpl; lia|].
        split; [intros u Hu; inversion Hu|]. split; [intros; reflexivity|].
        intros l1 u l2 _ _ Hu. inversion Hu. }
    apply batchExecuteRevealed_ok_inv in H as (_ & _ & _ & -> & _).
    destruct (batch_loop _ _ _ _) as [cm n] eqn:Hloop. cbn [fst].
    pose proof (batch_loop_fifo _ _ _ _ _ _ Hloop) as Hfifo.
    apply batch_loop_spec in Hloop
      as (_ & Hcap & marked & Hnd & Hlen & Hin & Hout).
    exists marked. split; [exact Hnd|].
    split.
    { assert (n <= MAX_BATCH_SIZE) by (apply Hcap; unfold MAX_BATCH_SIZE; lia).
      lia. }
    split; [exact Hin|]. split; [exact Hout|].
    intros l1 u l2 Hq Hu Hmark v Hv Hsv.
    destruct (decide (v ∈ marked)) as [|Hnot]; [assumption|exfalso].
    destruct (Hin u Hmark) as (_ & Hsu & Hcu).
    assert (Hv' : cm !!! v = CommitRevealOrder.set_executed true (commitments s !!! v)).
    { eapply Hfifo; [exact Hq | exact Hu | | exact Hv | exact Hsv].
      rewrite Hcu. exact (settleable_marked _ _ Hsu). }
    rewrite (Hout v Hnot) in Hv'. symmetry in Hv'.
    exact (settleable_marked _ _ Hsv Hv').
  - intros deployer router w history callers. cbv zeta.
    assert (Hs : forall u,
      CommitRevealOrder.revealed
        (commitments (run history (constructor deployer router w)) !!! u) = true ->
      CommitRevealOrder.executed
        (commitments (run history (constructor deployer router w)) !!! u) = true).
    { apply run_settled. intros u. apply constructor_settled. }
    split; [|apply run_batches_idle, Hs].
    intros u now. apply settled_not_settleable, Hs.
Qed.



(** ** Runs of the test doubles for the properties above *)

Lemma sim_registered :
  registered Sim.genesis Sim.tokenA Sim.tokenB = 101 :: [102; 103].
Proof. vm_compute. reflexivity. Qed.

Lemma sim_native_unlisted :
  registered Sim.genesis (SwapParams.tokenIn Scenario.native_request)
    (SwapParams.tokenOut Scenario.native_request) = [].
Proof. vm_compute. reflexivity. Qed.

Lemma hook_unlisted :
  registered Hook.genesis (SwapParams.tokenIn Scenario.unlisted_request)
    (SwapParams.tokenOut Scenario.unlisted_request) = [].
Proof. vm_compute. reflexivity. Qed.

Lemma hook_swap_runs :
  exec (protectedSwap Scenario.unlisted_request) (Sim.at_time Sim.alice 10)
       Hook.genesis
    = (Ok 99, Hook.after_swap).
Proof. vm_compute. reflexivity. Qed.

Lemma hook_reveal_runs :
  exec (revealAndExecute Sim.request 7 9) (Sim.at_time Sim.alice 90)
       Hook.after_commit
    = (Ok 99, Hook.after_reveal).
Proof. vm_compute. reflexivity. Qed.

Lemma sim_bob_has_no_funds :
  call_safeTransferFrom (SwapParams.tokenIn Sim.request)
    (msg_sender (Sim.at_time Sim.bob 10)) (this (Sim.at_time Sim.bob 10))
    (SwapParams.amountIn Sim.request) (Sim.at_time Sim.bob 10)
    (set_locked true Sim.genesis)
  = Err CallFailed.
Proof. vm_compute. reflexivity. Qed.

Lemma sim_after_commit_unlocked : locked Sim.after_commit = false.
Proof. vm_compute. reflexivity. Qed.

Lemma sim_wrong_nonce :
  CommitRevealOrder.commitment
    (commitments Sim.after_commit !!! msg_sender (Sim.at_time Sim.alice 90))
  <> keccak256 (msg_sender (Sim.at_time Sim.alice 90)) Sim.request 8 9.
Proof. vm_compute. discriminate. Qed.

Lemma sim_right_nonce :
  CommitRevealOrder.commitment
    (commitments Sim.after_commit !!! msg_sender (Sim.at_time Sim.alice 121))
  = keccak256 (msg_sender (Sim.at_time Sim.alice 121)) Sim.request 7 9.
Proof. vm_compute. reflexivity. Qed.

Lemma sim_not_revealed :
  CommitRevealOrder.revealed
    (commitments Sim.after_commit !!! msg_sender (Sim.at_time Sim.alice 121))
  = false.
Proof. vm_compute. reflexivity. Qed.

Lemma sim_not_executed :
  CommitRevealOrder.executed
    (commitments Sim.after_commit !!! msg_sender (Sim.at_time Sim.alice 121))
  = false.
Proof. vm_compute. reflexivity. Qed.

Lemma sim_past_deadline :
  CommitRevealOrder.deadline
    (commitments Sim.after_commit !!! msg_sender (Sim.at_time Sim.alice 121))
  < block_timestamp (Sim.at_time Sim.alice 121).
Proof. vm_compute. reflexivity. Qed.

Lemma sim_shallow_quote :
  RouteOptimizer.optimizeRoute (SwapParams.tokenIn Sim.request)
    (SwapParams.tokenOut Sim.request) (SwapParams.amountIn Sim.request)
    Scenario.shallow_pools
  = Ok (Sim.two_routes, 98).
Proof. vm_compute. reflexivity. Qed.

Lemma getOptimalRoute_first_pool_takes_all_witness :
  getOptimalRoute Sim.tokenA Sim.tokenB 100 (Sim.at_time Sim.alice 10) Sim.genesis
    = Ok (([Route.mk 101 Sim.tokenA Sim.tokenB 10000],
           (100 - 100 * 3000 / 1000000) * 997 / 1000), Sim.genesis).
Proof.
  exact (getOptimalRoute_first_pool_takes_all Sim.tokenA Sim.tokenB 100
           (Sim.at_time Sim.alice 10) Sim.genesis 101 [102; 103]
           sim_registered eq_refl ltac:(le_compute)).
Defined.

(** The native asset for an unlisted pair: the call aborts. A token for an
    unlisted pair, with the token of [Hook]: the pool is registered during
    the pull, and the swap goes through. *)
Lemma protectedSwap_needs_a_pool_witness :
  (exists e,
     exec (protectedSwap Scenario.native_request) (Sim.at_time Sim.alice 10)
          Sim.genesis
       = (Err e, Sim.genesis)) /\
  registered Hook.after_swap (SwapParams.tokenIn Scenario.unlisted_request)
    (SwapParams.tokenOut Scenario.unlisted_request) <> [].
Proof.
  split.
  - exact (proj1 (protectedSwap_needs_a_pool Scenario.native_request
                    (Sim.at_time Sim.alice 10) Sim.genesis sim_native_unlisted)
             eq_refl).
  - exact (proj2 (protectedSwap_needs_a_pool Scenario.unlisted_request
                    (Sim.at_time Sim.alice 10) Hook.genesis hook_unlisted)
             99 Hook.after_swap hook_swap_runs).
Defined.

Lemma protectedSwap_postcondition_witness :
  SwapParams.amountOutMin Scenario.unlisted_request <= 99 /\
  block_timestamp (Sim.at_time Sim.alice 10)
    <= SwapParams.deadline Scenario.unlisted_request /\
  0 < SwapParams.amountIn Scenario.unlisted_request /\
  registered Hook.after_swap (SwapParams.tokenIn Scenario.unlisted_request)
    (SwapParams.tokenOut Scenario.unlisted_request) <> [] /\
  locked Hook.genesis = false /\ locked Hook.after_swap = false /\
  reentered Hook.genesis Hook.after_swap /\
  exists routes es,
    routes <> [] /\
    events Hook.after_swap =
      events Hook.genesis ++ es ++
      [SwapExecuted (msg_sender (Sim.at_time Sim.alice 10))
         (SwapParams.tokenIn Scenario.unlisted_request)
         (SwapParams.tokenOut Scenario.unlisted_request)
         (SwapParams.amountIn Scenario.unlisted_request) 99 routes].
Proof.
  exact (protectedSwap_postcondition Scenario.unlisted_request
           (Sim.at_time Sim.alice 10) Hook.genesis Hook.after_swap 99
           hook_swap_runs).
Defined.

Lemma protectedSwap_validation_witness :
  exec (protectedSwap Scenario.late_request) (Sim.at_time Sim.alice 10) Sim.genesis
    = (Err (Revert "RouterDefense: expired deadline"), Sim.genesis) /\
  exec (protectedSwap Sim.request) (Sim.at_time Sim.bob 10) Sim.genesis
    = (Err CallFailed, Sim.genesis).
Proof.
  split.
  - exact (proj1 (protectedSwap_validation Scenario.late_request
                    (Sim.at_time Sim.alice 10) Sim.genesis eq_refl) eq_refl).
  - exact (proj2 (proj2 (proj2 (protectedSwap_validation Sim.request
                    (Sim.at_time Sim.bob 10) Sim.genesis eq_refl)))
             ltac:(le_compute) eq_refl ltac:(discriminate) sim_bob_has_no_funds).
Defined.

Lemma revealAndExecute_validation_witness :
  exec (revealAndExecute Sim.request 8 9) (Sim.at_time Sim.alice 90) Sim.after_commit
    = (Err (Revert "RouterDefense: invalid reveal"), Sim.after_commit) /\
  exec (revealAndExecute Sim.request 7 9) (Sim.at_time Sim.alice 121) Sim.after_commit
    = (Err (Revert "RouterDefense: commitment expired"), Sim.after_commit).
Proof.
  split.
  - exact (proj1 (revealAndExecute_validation Sim.request 8 9
                    (Sim.at_time Sim.alice 90) Sim.after_commit
                    sim_after_commit_unlocked) sim_wrong_nonce).
  - exact (proj2 (proj2 (proj2 (revealAndExecute_validation Sim.request 7 9
                    (Sim.at_time Sim.alice 121) Sim.after_commit
                    sim_after_commit_unlocked)))
             sim_right_nonce sim_not_revealed sim_not_executed sim_past_deadline).
Defined.

(** Alice's reveal with the token of [Hook]: the callback of the token
    commits 777 in Alice's name, and Alice's slot is left with that hash,
    unrevealed and executed. *)
Lemma revealAndExecute_postcondition_witness :
  let order := commitments Hook.after_commit !!! msg_sender (Sim.at_time Sim.alice 90) in
  let h := keccak256 (msg_sender (Sim.at_time Sim.alice 90)) Sim.request 7 9 in
  CommitRevealOrder.commitment order = h /\
  CommitRevealOrder.revealed order = false /\
  CommitRevealOrder.executed order = false /\
  block_timestamp (Sim.at_time Sim.alice 90) <= CommitRevealOrder.deadline order /\
  (commitments Hook.after_reveal !!! msg_sender (Sim.at_time Sim.alice 90)
     = CommitRevealOrder.mk h (CommitRevealOrder.deadline order) true true \/
   exists c d,
     c <> 0 /\ (c ∉ usedCommitments Hook.after_commit) /\
     c ∈ usedCommitments Hook.after_reveal /\
     commitments Hook.after_reveal !!! msg_sender (Sim.at_time Sim.alice 90)
       = CommitRevealOrder.mk c d false true) /\
  CommitRevealOrder.executed
    (commitments Hook.after_reveal !!! msg_sender (Sim.at_time Sim.alice 90)) = true /\
  (forall now,
     Ledger.settleable
       (commitments Hook.after_reveal !!! msg_sender (Sim.at_time Sim.alice 90)) now
     = false) /\
  (forall u, u <> msg_sender (Sim.at_time Sim.alice 90) ->
     commitments Hook.after_reveal !!! u = commitments Hook.after_commit !!! u \/
     exists c d,
       c <> 0 /\ (c ∉ usedCommitments Hook.after_commit) /\
       c ∈ usedCommitments Hook.after_reveal /\
       commitments Hook.after_reveal !!! u = CommitRevealOrder.mk c d false false) /\
  revealedOrders Hook.after_reveal
    = revealedOrders Hook.after_commit ++ [msg_sender (Sim.at_time Sim.alice 90)] /\
  usedCommitments Hook.after_commit ⊆ usedCommitments Hook.after_reveal /\
  exists routes es,
    routes <> [] /\
    events Hook.after_reveal =
      events Hook.after_commit
      ++ [OrderRevealed (msg_sender (Sim.at_time Sim.alice 90)) h] ++ es ++
      [SwapExecuted (msg_sender (Sim.at_time Sim.alice 90))
         (SwapParams.tokenIn Sim.request) (SwapParams.tokenOut Sim.request)
         (SwapParams.amountIn Sim.request) 99 routes].
Proof.
  exact (revealAndExecute_postcondition Sim.request 7 9 (Sim.at_time Sim.alice 90)
           Hook.after_commit Hook.after_reveal 99 hook_reveal_runs).
Defined.

Lemma execution_within_allocation_witness :
  exists legs spent : list uint256,
    RouteOptimizer.optimizeRoute_legs (SwapParams.tokenIn Sim.request)
      (SwapParams.tokenOut Sim.request) (SwapParams.amountIn Sim.request)
      Scenario.shallow_pools = Ok legs /\
    Legs.swap_amounts (calls Sim.after_swap)
      = Legs.swap_amounts (calls Sim.funded) ++ spent /\
    sumN spent <= sumN legs /\
    sumN legs <= SwapParams.amountIn Sim.request.
Proof.
  exact (execution_within_allocation Sim.request Scenario.shallow_pools
           Sim.two_routes 98 (Sim.at_time Sim.alice 10) Sim.funded Sim.after_swap 98
           sim_shallow_quote (exec_ok_inv _ _ _ _ _ sim_swap_runs)).
Defined.

Lemma protectedSwap_external_calls_witness :
  exists legs : list ExtCall,
    calls Hook.after_swap
      = calls Hook.genesis
        ++ pull_calls Scenario.unlisted_request (Sim.at_time Sim.alice 10) ++ legs /\
    Forall (leg_call (swapRouter Hook.genesis)
              (SwapParams.recipient Scenario.unlisted_request)
              (SwapParams.deadline Scenario.unlisted_request)) legs.
Proof.
  exact (protectedSwap_external_calls Scenario.unlisted_request
           (Sim.at_time Sim.alice 10) Hook.genesis Hook.after_swap 99
           hook_swap_runs).
Defined.
